(** * mamcts: cost-constrained node statistics, UCT statistics and the
      crossing-state test domain

    A shallow embedding of
      - [src/mcts/statistics/uct_statistic.h]                    (module [Uct]),
      - [src/mcts/cost_constrained/cost_constrained_statistic.h] (module [Ccs]),
      - [src/test/hypothesis/hypothesis_crossing_state.h]        (module [Crossing]),
      - [src/environments/crossing_state_episode_runner.h]       (module [Runner]).

    Modelling conventions.
      - A C++ [double] is an exact rational ([Q]) where the code keeps it
        finite: the configured constants and the running means.  In the
        modules [Uct], [Ccs] and [Crossing] rounding and overflow of
        finite values are left out; what is proved there is the expression
        that the code evaluates, or a fact that rounding keeps: a count,
        an order, a bound, the support of a distribution.  The module
        [Binary64] defines rounding to the nearest binary64 value, ties to
        even, and [Ccs64] the LP step and the expected policy cost with
        every operation rounded; the statements on the sum of a policy
        and on its expected cost are made there.  Where a value is
        computed by a division whose divisor can be zero, or from [log] and
        [sqrt], it is an [xdouble], a rational or one of the IEEE special
        values, with the IEEE rules for them; the sign of a zero is left
        out (a zero divisor counts as [+0]).  The running means divide by a
        counter that was just incremented, which is zero only after [2^32]
        visits; that case is left out.
      - [unsigned] counters are integers in [Z] with the wrap-around modulo
        [2^32] written out.
      - [std::map<ActionIdx, T>] is an association list walked by key
        comparison, so iteration is in ascending key order; [at] returns
        [None] where the C++ call throws [std::out_of_range].
      - The process-wide [std::mt19937] is an explicit stream of uniform
        samples, threaded through every function that draws from it.
      - [sqrt(log(N)/n)] is not computable over [Q]: for [N >= 2] and
        [n >= 1] its value is read from an instance of the class [Libm]. *)

From Stdlib Require Import ZArith QArith Qabs Qround Qpower Lia Lqa List Bool Permutation.
Import ListNotations.

(** ** Basic types *)

Abbreviation ActionIdx := nat (only parsing).
Abbreviation Reward := Q (only parsing).
Abbreviation Cost := Q (only parsing).
Abbreviation Probability := Q (only parsing).

(** [unsigned int]: 32 bits, arithmetic modulo [2^32]. *)
Module Unsigned.

Definition modulus : Z := 2 ^ 32.

Definition wrap (z : Z) : Z := z mod modulus.

Definition incr (z : Z) : Z := wrap (z + 1).

Definition sub (x y : Z) : Z := wrap (x - y).

End Unsigned.

(** [std::numeric_limits<double>::max()]. *)
Definition DBL_MAX : Q := inject_Z (2 ^ 1024 - 2 ^ 971).

(** [std::numeric_limits<double>::min()], the smallest positive normal
    double. *)
Definition DBL_MIN : Q := 1 / inject_Z (2 ^ 1022).

(** ** Doubles with the IEEE special values *)

Inductive xdouble : Type :=
| Fin (q : Q)
| PInf
| NInf
| NaN.

Module X.

Definition isnan (x : xdouble) : bool :=
  match x with NaN => true | _ => false end.

Definition opp (x : xdouble) : xdouble :=
  match x with
  | Fin q => Fin (- q)
  | PInf => NInf
  | NInf => PInf
  | NaN => NaN
  end.

Definition add (x y : xdouble) : xdouble :=
  match x, y with
  | NaN, _ | _, NaN => NaN
  | Fin a, Fin b => Fin (a + b)
  | PInf, NInf | NInf, PInf => NaN
  | PInf, _ | _, PInf => PInf
  | NInf, _ | _, NInf => NInf
  end.

Definition sub (x y : xdouble) : xdouble := add x (opp y).

(** The infinity of the sign of a nonzero finite factor; [0 * inf] is NaN. *)
Definition scale_inf (positive : bool) (q : Q) : xdouble :=
  if Qlt_le_dec 0 q then (if positive then PInf else NInf)
  else if Qlt_le_dec q 0 then (if positive then NInf else PInf)
  else NaN.

Definition mul (x y : xdouble) : xdouble :=
  match x, y with
  | NaN, _ | _, NaN => NaN
  | Fin a, Fin b => Fin (a * b)
  | Fin a, PInf | PInf, Fin a => scale_inf true a
  | Fin a, NInf | NInf, Fin a => scale_inf false a
  | PInf, PInf | NInf, NInf => PInf
  | PInf, NInf | NInf, PInf => NInf
  end.

(** Division of two finite values, as IEEE defines it at a zero divisor. *)
Definition div_fin (a b : Q) : xdouble :=
  if Qeq_bool b 0
  then (if Qlt_le_dec 0 a then PInf else if Qlt_le_dec a 0 then NInf else NaN)
  else Fin (a / b).

Definition abs (x : xdouble) : xdouble :=
  match x with
  | Fin q => Fin (Qabs q)
  | PInf | NInf => PInf
  | NaN => NaN
  end.

(** [x < y]; false as soon as one side is NaN. *)
Definition ltb (x y : xdouble) : bool :=
  match x, y with
  | NaN, _ | _, NaN => false
  | Fin a, Fin b => if Qlt_le_dec a b then true else false
  | NInf, NInf | PInf, PInf => false
  | NInf, _ | _, PInf => true
  | _, _ => false
  end.

(** [x <= y]; false as soon as one side is NaN. *)
Definition leb (x y : xdouble) : bool :=
  match x, y with
  | NaN, _ | _, NaN => false
  | Fin a, Fin b => Qle_bool a b
  | NInf, _ | _, PInf => true
  | _, _ => false
  end.

(** [std::max(a, b)] is [(a < b) ? b : a] and [std::min(a, b)] is
    [(b < a) ? b : a]. *)
Definition max (a b : xdouble) : xdouble := if ltb a b then b else a.

Definition min (a b : xdouble) : xdouble := if ltb b a then b else a.

End X.

(** ** Rounding to binary64

    IEEE-754 binary64 on the rationals: 53 significant bits, exponents from
    [-1022] to [1023], subnormal values below, round to nearest with ties
    to even, and an infinity where the rounded value exceeds [DBL_MAX]. *)
Module Binary64.

Definition pow2 (e : Z) : Q := 2 ^ e.

(** [floor (log2 x)] for a positive [x]. *)
Definition ilog2 (x : Q) : Z :=
  let k := (Z.log2 (Qnum x) - Z.log2 (Zpos (Qden x)))%Z in
  if Qle_bool (pow2 k) x then k else (k - 1)%Z.

(** The nearest integer, the even one of two at the same distance. *)
Definition nearest_even (m : Q) : Z :=
  let f := Qfloor m in
  match Qcompare (m - inject_Z f) (1 # 2) with
  | Lt => f
  | Gt => (f + 1)%Z
  | Eq => if Z.even f then f else (f + 1)%Z
  end.

(** The nearest multiple of the unit in the last place of a positive [x]:
    53 significant bits, the exponent not below [-1022]. *)
Definition round_pos (x : Q) : Q :=
  let ulp := pow2 (Z.max (ilog2 x) (-1022) - 52) in
  inject_Z (nearest_even (x / ulp)) * ulp.

(** Round to nearest, ties to even; beyond [DBL_MAX] the result is an
    infinity.  The sign of a zero is left out. *)
Definition round (x : Q) : xdouble :=
  match Qcompare (Qred x) 0 with
  | Eq => Fin 0
  | Gt =>
      let y := Qred (round_pos (Qred x)) in
      if Qle_bool y DBL_MAX then Fin y else PInf
  | Lt =>
      let y := Qred (round_pos (- Qred x)) in
      if Qle_bool y DBL_MAX then Fin (- y) else NInf
  end.

(** [x] is the double that [round] would return for it. *)
Definition is_double (x : Q) : bool :=
  match round x with
  | Fin y => Qeq_bool y x
  | _ => false
  end.

(** A positive double is [r * 2^t] for a significand [r] of 53 bits, or of
    fewer bits at the smallest exponent. *)
Definition canonical (r t : Z) : Prop :=
  (0 < r)%Z /\
  ((2 ^ 52 <= r < 2 ^ 53)%Z /\ (-1074 <= t)%Z \/ (r < 2 ^ 52)%Z /\ t = (-1074)%Z).

(** Rounding leaves the special values as they are. *)
Definition rnd (x : xdouble) : xdouble :=
  match x with
  | Fin q => round q
  | _ => x
  end.

(** What an operation returns: a special value or a double. *)
Definition is_output (x : xdouble) : Prop :=
  match x with
  | Fin q => round q = Fin q
  | _ => True
  end.

(** The four operations on doubles: the exact result, rounded. *)
Definition add (x y : xdouble) : xdouble := rnd (X.add x y).

Definition sub (x y : xdouble) : xdouble := rnd (X.sub x y).

Definition mul (x y : xdouble) : xdouble := rnd (X.mul x y).

Definition div (x y : xdouble) : xdouble :=
  match x, y with
  | NaN, _ | _, NaN => NaN
  | Fin a, Fin b => rnd (X.div_fin a b)
  | Fin _, PInf | Fin _, NInf => Fin 0
  | PInf, Fin b => if Qlt_le_dec b 0 then NInf else PInf
  | NInf, Fin b => if Qlt_le_dec b 0 then PInf else NInf
  | PInf, PInf | PInf, NInf | NInf, PInf | NInf, NInf => NaN
  end.

(** The double nearest to [x]; [0] stands in where that is an infinity. *)
Definition double_of (x : Q) : Q :=
  match round x with
  | Fin y => y
  | _ => 0
  end.

End Binary64.

(** ** libm *)

(** [sqrt_log N n] is the double that [sqrt(log(N) / n)] evaluates to for
    unsigned [N >= 2] and [n >= 1], where the argument of [sqrt] is finite and
    positive. *)
Class Libm : Type := sqrt_log : Z -> Z -> Q.

(** [sqrt(log(N) / n)] for unsigned [N] and [n], both converted to double:
    [log(0) = -inf] and [sqrt] of a negative value is NaN; [log(1) = 0], and
    [0/0] is NaN while [0/n] is [0]; for [N >= 2], [log(N) > 0], so a zero
    [n] gives [+inf]. *)
Definition sqrt_log_ratio {L : Libm} (N n : Z) : xdouble :=
  if (N =? 0)%Z then NaN
  else if (N =? 1)%Z then (if (n =? 0)%Z then NaN else Fin 0)
  else if (n =? 0)%Z then PInf
  else Fin (sqrt_log N n).

(** [sqrt_2log N n] is the double that [sqrt((2 * log(N)) / n)] evaluates to
    for unsigned [N >= 2] and [n >= 1]. *)
Class LibmUct : Type := sqrt_2log : Z -> Z -> Q.

(** [sqrt((2 * log(N)) / n)] for unsigned [N] and [n]; doubling keeps
    [log(0) = -inf] and [log(1) = 0], so the special cases are those of
    [sqrt_log_ratio]. *)
Definition sqrt_2log_ratio {L : LibmUct} (N n : Z) : xdouble :=
  if (N =? 0)%Z then NaN
  else if (N =? 1)%Z then (if (n =? 0)%Z then NaN else Fin 0)
  else if (n =? 0)%Z then PInf
  else Fin (sqrt_2log N n).

(** [pow_gt1 N alpha] is the double that [std::pow(N, alpha)] evaluates to
    for unsigned [N >= 2] and a nonzero [alpha]. *)
Class LibmPow : Type := pow_gt1 : Z -> Q -> xdouble.

(** [std::pow(N, alpha)] for an unsigned [N] converted to double:
    [pow(x, 0) = 1]; [pow(0, alpha)] is [0] for a positive and [+inf] for a
    negative [alpha]; [pow(1, alpha) = 1]. *)
Definition pow_unsigned {P : LibmPow} (N : Z) (alpha : Q) : xdouble :=
  if Qeq_bool alpha 0 then Fin 1
  else if (N =? 0)%Z then (if Qlt_le_dec 0 alpha then Fin 0 else PInf)
  else if (N =? 1)%Z then Fin 1
  else pow_gt1 N alpha.

(** ** The shared random generator *)

(** [RandomGenerator::random_generator_], as the stream of the samples that
    [std::uniform_real_distribution<double>(0, 1)] will draw from it. *)
Definition RandomGenerator := nat -> Q.

Definition unif (g : RandomGenerator) : Q * RandomGenerator :=
  (g 0%nat, fun n => g (S n)).

(** [std::uniform_int_distribution<ActionIdx>(lo, hi)] applied to the shared
    generator, for [lo <= hi]: the value drawn, which the distribution keeps
    in [[lo, hi]], and the generator afterwards. *)
Class UniformInt : Type := {
  uniform_int : RandomGenerator -> nat -> nat -> nat * RandomGenerator;
  uniform_int_range :
    forall g lo hi, (lo <= hi)%nat -> (lo <= fst (uniform_int g lo hi) <= hi)%nat
}.

(** ** [std::map] as a key-ordered association list *)
Module StdMap.

Definition t (V : Type) := list (ActionIdx * V).

(** [m.at(k)]; [None] stands for [std::out_of_range]. *)
Fixpoint find {V} (k : ActionIdx) (m : t V) : option V :=
  match m with
  | [] => None
  | (k', v) :: m' =>
      match Nat.compare k k' with
      | Lt => None
      | Eq => Some v
      | Gt => find k m'
      end
  end.

(** [m[k] = v]: overwrite, or insert at the key's place. *)
Fixpoint assign {V} (k : ActionIdx) (v : V) (m : t V) : t V :=
  match m with
  | [] => [(k, v)]
  | (k', v') :: m' =>
      match Nat.compare k k' with
      | Lt => (k, v) :: m
      | Eq => (k, v) :: m'
      | Gt => (k', v') :: assign k v m'
      end
  end.

(** The value that [m[k]] reads: the stored one, or the value-initialised
    entry that [operator[]] inserts. *)
Definition index {V} (dflt : V) (k : ActionIdx) (m : t V) : V :=
  match find k m with Some v => v | None => dflt end.

Definition keys {V} (m : t V) : list ActionIdx := map fst m.

Definition size {V} (m : t V) : nat := length m.

(** The representation invariant: keys strictly ascending. *)
Fixpoint ascending (l : list ActionIdx) : bool :=
  match l with
  | [] => true
  | k :: l' =>
      match l' with
      | [] => true
      | k' :: _ => (k <? k')%nat && ascending l'
      end
  end.

Definition ok {V} (m : t V) : bool := ascending (keys m).

End StdMap.

(** [Policy]: a probability per action. *)
Definition Policy := StdMap.t Probability.

(** ** The parameter object *)

(** The fields of [MctsParameters] that the statistics read.  [LAMBDA] is
    the one that the search itself overwrites, with a computed value. *)
Record MctsParameters := mkMctsParameters {
  DISCOUNT_FACTOR : Q;
  EXPLORATION_CONSTANT : Q;
  PROGRESSIVE_WIDENING_K : Q;
  PROGRESSIVE_WIDENING_ALPHA : Q;
  LOWER_BOUND : Q;
  UPPER_BOUND : Q;
  LAMBDA : xdouble;
  KAPPA : Q;
  ACTION_FILTER_FACTOR : Q;
  COST_CONSTRAINT : Q;
  COST_LOWER_BOUND : Q;
  COST_UPPER_BOUND : Q;
  REWARD_LOWER_BOUND : Q;
  REWARD_UPPER_BOUND : Q;
  GRADIENT_UPDATE_STEP : Q;
  TAU_GRADIENT_CLIP : Q
}.

(** [parameters.cost_constrained_statistic.LAMBDA = l] *)
Definition set_LAMBDA (p : MctsParameters) (l : xdouble) : MctsParameters :=
  {| DISCOUNT_FACTOR := DISCOUNT_FACTOR p;
     EXPLORATION_CONSTANT := EXPLORATION_CONSTANT p;
     PROGRESSIVE_WIDENING_K := PROGRESSIVE_WIDENING_K p;
     PROGRESSIVE_WIDENING_ALPHA := PROGRESSIVE_WIDENING_ALPHA p;
     LOWER_BOUND := LOWER_BOUND p;
     UPPER_BOUND := UPPER_BOUND p;
     LAMBDA := l;
     KAPPA := KAPPA p;
     ACTION_FILTER_FACTOR := ACTION_FILTER_FACTOR p;
     COST_CONSTRAINT := COST_CONSTRAINT p;
     COST_LOWER_BOUND := COST_LOWER_BOUND p;
     COST_UPPER_BOUND := COST_UPPER_BOUND p;
     REWARD_LOWER_BOUND := REWARD_LOWER_BOUND p;
     REWARD_UPPER_BOUND := REWARD_UPPER_BOUND p;
     GRADIENT_UPDATE_STEP := GRADIENT_UPDATE_STEP p;
     TAU_GRADIENT_CLIP := TAU_GRADIENT_CLIP p |}.

(** ** uct_statistic.h *)
Module Uct.

Record UcbPair := mkUcbPair {
  action_count_ : Z;
  action_value_ : Q
}.

(** [UcbPair()] *)
Definition UcbPair_init : UcbPair := mkUcbPair 0 0.

Definition UcbStatistics := StdMap.t UcbPair.

(** The members of [UctStatistic], with the two of its [NodeStatistic] base
    that the code below reads ([num_actions_], [collected_reward_]). *)
Record UctStatistic := mkUctStatistic {
  num_actions_ : nat;
  collected_reward_ : ActionIdx * Reward;
  value_ : Q;
  latest_return_ : Q;
  ucb_statistics_ : UcbStatistics;
  total_node_visits_ : Z;
  unexpanded_actions_ : list ActionIdx;
  upper_bound : Q;
  lower_bound : Q;
  k_discount_factor : Q;
  exploration_constant : Q;
  progressive_widening_k : Q;
  progressive_widening_alpha : Q
}.

(** The constructor: counters at zero, no expanded action,
    [unexpanded_actions_ = 0 .. num_actions-1]. *)
Definition init (num_actions : nat) (p : MctsParameters) : UctStatistic :=
  {| num_actions_ := num_actions;
     collected_reward_ := (0%nat, 0);
     value_ := 0;
     latest_return_ := 0;
     ucb_statistics_ := [];
     total_node_visits_ := 0;
     unexpanded_actions_ := seq 0 num_actions;
     upper_bound := UPPER_BOUND p;
     lower_bound := LOWER_BOUND p;
     k_discount_factor := DISCOUNT_FACTOR p;
     exploration_constant := EXPLORATION_CONSTANT p;
     progressive_widening_k := PROGRESSIVE_WIDENING_K p;
     progressive_widening_alpha := PROGRESSIVE_WIDENING_ALPHA p |}.

(** [collected_reward_ = c] *)
Definition set_collected_reward (s : UctStatistic) (c : ActionIdx * Reward)
  : UctStatistic :=
  {| num_actions_ := num_actions_ s;
     collected_reward_ := c;
     value_ := value_ s;
     latest_return_ := latest_return_ s;
     ucb_statistics_ := ucb_statistics_ s;
     total_node_visits_ := total_node_visits_ s;
     unexpanded_actions_ := unexpanded_actions_ s;
     upper_bound := upper_bound s;
     lower_bound := lower_bound s;
     k_discount_factor := k_discount_factor s;
     exploration_constant := exploration_constant s;
     progressive_widening_k := progressive_widening_k s;
     progressive_widening_alpha := progressive_widening_alpha s |}.

(** One turn of the loop of [get_best_action]: [temp] and [best] are
    replaced when the entry's value is strictly larger. *)
Definition best_step (acc : Q * ActionIdx) (it : ActionIdx * UcbPair)
  : Q * ActionIdx :=
  if Qlt_le_dec (fst acc) (action_value_ (snd it))
  then (action_value_ (snd it), fst it)
  else acc.

(** [get_best_action]: starts from [*ucb_statistics_.begin()], which an empty
    map does not have ([None]), and walks the map in key order. *)
Definition get_best_action (s : UctStatistic) : option ActionIdx :=
  match ucb_statistics_ s with
  | [] => None
  | (k0, p0) :: _ =>
      Some (snd (fold_left best_step (ucb_statistics_ s) (action_value_ p0, k0)))
  end.

(** [update_from_heuristic_from_backpropagated] *)
Definition update_from_heuristic_from_backpropagated
    (s : UctStatistic) (backpropagated : Reward) : UctStatistic :=
  {| num_actions_ := num_actions_ s;
     collected_reward_ := collected_reward_ s;
     value_ := backpropagated;
     latest_return_ := backpropagated;
     ucb_statistics_ := ucb_statistics_ s;
     total_node_visits_ := Unsigned.incr (total_node_visits_ s);
     unexpanded_actions_ := unexpanded_actions_ s;
     upper_bound := upper_bound s;
     lower_bound := lower_bound s;
     k_discount_factor := k_discount_factor s;
     exploration_constant := exploration_constant s;
     progressive_widening_k := progressive_widening_k s;
     progressive_widening_alpha := progressive_widening_alpha s |}.

(** [update_statistics_from_backpropagated] *)
Definition update_statistics_from_backpropagated
    (s : UctStatistic) (backpropagated : Reward) : UctStatistic :=
  let a := fst (collected_reward_ s) in
  let ucb_pair := StdMap.index UcbPair_init a (ucb_statistics_ s) in
  let latest := snd (collected_reward_ s) + k_discount_factor s * backpropagated in
  let count := Unsigned.incr (action_count_ ucb_pair) in
  let q := action_value_ ucb_pair
           + (latest - action_value_ ucb_pair) / inject_Z count in
  let total := Unsigned.incr (total_node_visits_ s) in
  {| num_actions_ := num_actions_ s;
     collected_reward_ := collected_reward_ s;
     value_ := value_ s + (latest - value_ s) / inject_Z total;
     latest_return_ := latest;
     ucb_statistics_ := StdMap.assign a (mkUcbPair count q) (ucb_statistics_ s);
     total_node_visits_ := total;
     unexpanded_actions_ := unexpanded_actions_ s;
     upper_bound := upper_bound s;
     lower_bound := lower_bound s;
     k_discount_factor := k_discount_factor s;
     exploration_constant := exploration_constant s;
     progressive_widening_k := progressive_widening_k s;
     progressive_widening_alpha := progressive_widening_alpha s |}.

(** [get_normalized_ucb_value]; the two [MCTS_EXPECT_TRUE] lines report a
    value outside [0,1], they do not change what is returned. *)
Definition get_normalized_ucb_value (s : UctStatistic) (action : ActionIdx)
  : option xdouble :=
  match StdMap.find action (ucb_statistics_ s) with
  | Some p =>
      Some (X.div_fin (action_value_ p - lower_bound s)
                      (upper_bound s - lower_bound s))
  | None => None
  end.

(** The sum of [ucb_statistics_[a].action_count_] over the expanded actions
    [a], as a mathematical integer. *)
Definition sum_action_counts (m : UcbStatistics) : Z :=
  fold_right (fun kp acc => (action_count_ (snd kp) + acc)%Z) 0%Z m.

(** [num_expanded_actions]: the size of the map, returned as an
    [unsigned int]. *)
Definition num_expanded_actions (s : UctStatistic) : Z :=
  Unsigned.wrap (Z.of_nat (StdMap.size (ucb_statistics_ s))).

(** [require_progressive_widening_total] *)
Definition require_progressive_widening_total {P : LibmPow} (s : UctStatistic)
  : bool :=
  let widening_term :=
    X.mul (Fin (progressive_widening_k s))
          (pow_unsigned (total_node_visits_ s) (progressive_widening_alpha s)) in
  X.leb (Fin (inject_Z (num_expanded_actions s))) widening_term
  && (num_expanded_actions s <? Z.of_nat (num_actions_ s))%Z.

(** The value that the loop of [calculate_ucb_and_max_action] stores for
    an entry of the map; as in [get_normalized_ucb_value], the two
    [MCTS_EXPECT_TRUE] lines do not change it. *)
Definition uct_value {L : LibmUct} (s : UctStatistic) (entry : UcbPair) : xdouble :=
  let action_value_normalized :=
    X.div_fin (action_value_ entry - lower_bound s) (upper_bound s - lower_bound s) in
  X.add action_value_normalized
        (X.mul (Fin (2 * exploration_constant s))
               (sqrt_2log_ratio (total_node_visits_ s) (action_count_ entry))).

(** One turn of that loop; the accumulator is
    [(values, max_value, maximizing_action)]. *)
Definition ucb_and_max_step {L : LibmUct} (s : UctStatistic)
    (acc : StdMap.t xdouble * xdouble * ActionIdx) (ucb_pair : ActionIdx * UcbPair)
  : StdMap.t xdouble * xdouble * ActionIdx :=
  let value := uct_value s (snd ucb_pair) in
  let values := StdMap.assign (fst ucb_pair) value (fst (fst acc)) in
  if X.ltb (snd (fst acc)) value
  then (values, value, fst ucb_pair)
  else (values, snd (fst acc), snd acc).

(** [calculate_ucb_and_max_action]: [values] is filled in place and the
    maximizing action returned; the search starts from action [0] at
    [numeric_limits<double>::min()].  [values] is an [std::unordered_map]
    that the code only indexes. *)
Definition calculate_ucb_and_max_action {L : LibmUct} (s : UctStatistic)
    (ucb_statistics : UcbStatistics) (values : StdMap.t xdouble)
  : ActionIdx * StdMap.t xdouble :=
  let r := fold_left (ucb_and_max_step s) ucb_statistics (values, Fin DBL_MIN, 0%nat) in
  (snd r, fst (fst r)).

(** [v.erase(v.begin() + idx)] *)
Definition erase {A} (idx : nat) (v : list A) : list A :=
  firstn idx v ++ skipn (S idx) v.

(** [choose_next_action]; drawing from an empty [unexpanded_actions_] and
    reading past its end are undefined, here [None]. *)
Definition choose_next_action {P : LibmPow} {U : UniformInt} {L : LibmUct}
    (s : UctStatistic) (g : RandomGenerator)
  : option (ActionIdx * UctStatistic * RandomGenerator) :=
  if require_progressive_widening_total s then
    match unexpanded_actions_ s with
    | [] => None
    | _ :: _ =>
        let drawn := uniform_int g 0 (length (unexpanded_actions_ s) - 1) in
        let array_idx := fst drawn in
        match nth_error (unexpanded_actions_ s) array_idx with
        | None => None
        | Some selected_action =>
            Some (selected_action,
                  {| num_actions_ := num_actions_ s;
                     collected_reward_ := collected_reward_ s;
                     value_ := value_ s;
                     latest_return_ := latest_return_ s;
                     ucb_statistics_ :=
                       StdMap.assign selected_action UcbPair_init (ucb_statistics_ s);
                     total_node_visits_ := total_node_visits_ s;
                     unexpanded_actions_ := erase array_idx (unexpanded_actions_ s);
                     upper_bound := upper_bound s;
                     lower_bound := lower_bound s;
                     k_discount_factor := k_discount_factor s;
                     exploration_constant := exploration_constant s;
                     progressive_widening_k := progressive_widening_k s;
                     progressive_widening_alpha := progressive_widening_alpha s |},
                  snd drawn)
        end
    end
  else Some (fst (calculate_ucb_and_max_action s (ucb_statistics_ s) []), s, g).

(** [get_policy]: the action values, keyed by action. *)
Definition get_policy (s : UctStatistic) : Policy :=
  fold_left (fun policy it => StdMap.assign (fst it) (action_value_ (snd it)) policy)
            (ucb_statistics_ s) [].

(** [update_from_heuristic] *)
Definition update_from_heuristic (s heuristic_statistic : UctStatistic)
  : UctStatistic :=
  update_from_heuristic_from_backpropagated s (value_ heuristic_statistic).

(** [update_statistic] *)
Definition update_statistic (s changed_child_statistic : UctStatistic)
  : UctStatistic :=
  update_statistics_from_backpropagated s (latest_return_ changed_child_statistic).

(** [set_heuristic_estimate_from_backpropagated] *)
Definition set_heuristic_estimate_from_backpropagated (s : UctStatistic)
    (backpropagated : Reward) : UctStatistic :=
  {| num_actions_ := num_actions_ s;
     collected_reward_ := collected_reward_ s;
     value_ := backpropagated;
     latest_return_ := latest_return_ s;
     ucb_statistics_ := ucb_statistics_ s;
     total_node_visits_ := total_node_visits_ s;
     unexpanded_actions_ := unexpanded_actions_ s;
     upper_bound := upper_bound s;
     lower_bound := lower_bound s;
     k_discount_factor := k_discount_factor s;
     exploration_constant := exploration_constant s;
     progressive_widening_k := progressive_widening_k s;
     progressive_widening_alpha := progressive_widening_alpha s |}.

(** [set_heuristic_estimate]: the cost estimate is not used. *)
Definition set_heuristic_estimate {EgoCosts : Type} (s : UctStatistic)
    (accum_rewards : Reward) (accum_ego_cost : EgoCosts) : UctStatistic :=
  set_heuristic_estimate_from_backpropagated s accum_rewards.

End Uct.

(** ** Exceptions as [option] *)

Definition bind {A B} (x : option A) (f : A -> option B) : option B :=
  match x with Some a => f a | None => None end.

Notation "'do' x <- e ; k" := (bind e (fun x => k))
  (at level 10, x name, e at level 100, k at level 200).

(** A loop over [l] whose body may throw. *)
Fixpoint traverse {A B} (f : A -> option B) (l : list A) : option (list B) :=
  match l with
  | [] => Some []
  | a :: l' =>
      do b <- f a;
      do bs <- traverse f l';
      Some (b :: bs)
  end.

(** [std::distance(v.begin(), std::max_element(v.begin(), v.end()))]: the
    index of the first largest element; on an empty vector [max_element]
    returns [end()], at distance [0]. *)
Fixpoint max_element_from (largest : nat) (largest_val : xdouble) (idx : nat)
    (l : list xdouble) : nat :=
  match l with
  | [] => largest
  | v :: l' =>
      if X.ltb largest_val v
      then max_element_from idx v (S idx) l'
      else max_element_from largest largest_val (S idx) l'
  end.

Definition max_element (values : list xdouble) : nat :=
  match values with
  | [] => 0%nat
  | v :: l' => max_element_from 0%nat v 1%nat l'
  end.

(** ** cost_constrained_statistic.h *)
Module Ccs.

Import Uct.

(** The members of [CostConstrainedStatistic], with the two of its
    [NodeStatistic] base that [update_statistic] reads.  The member [lambda]
    is a reference into the parameter object: the functions that read it take
    that object as their argument [params].  [mean_step_costs_] is an
    [std::unordered_map] that the code only indexes. *)
Record CostConstrainedStatistic := mkCostConstrainedStatistic {
  collected_reward_ : ActionIdx * Reward;
  collected_cost_ : ActionIdx * Cost;
  reward_statistic_ : UctStatistic;
  cost_statistic_ : UctStatistic;
  unexpanded_actions_ : list ActionIdx;
  mean_step_costs_ : StdMap.t Cost;
  kappa : Q;
  action_filter_factor : Q;
  cost_constraint : Q
}.

Definition make_cost_statistic_parameters (p : MctsParameters) : MctsParameters :=
  {| DISCOUNT_FACTOR := 1;
     EXPLORATION_CONSTANT := EXPLORATION_CONSTANT p;
     PROGRESSIVE_WIDENING_K := PROGRESSIVE_WIDENING_K p;
     PROGRESSIVE_WIDENING_ALPHA := PROGRESSIVE_WIDENING_ALPHA p;
     LOWER_BOUND := COST_LOWER_BOUND p;
     UPPER_BOUND := COST_UPPER_BOUND p;
     LAMBDA := LAMBDA p;
     KAPPA := KAPPA p;
     ACTION_FILTER_FACTOR := ACTION_FILTER_FACTOR p;
     COST_CONSTRAINT := COST_CONSTRAINT p;
     COST_LOWER_BOUND := COST_LOWER_BOUND p;
     COST_UPPER_BOUND := COST_UPPER_BOUND p;
     REWARD_LOWER_BOUND := REWARD_LOWER_BOUND p;
     REWARD_UPPER_BOUND := REWARD_UPPER_BOUND p;
     GRADIENT_UPDATE_STEP := GRADIENT_UPDATE_STEP p;
     TAU_GRADIENT_CLIP := TAU_GRADIENT_CLIP p |}.

Definition make_reward_statistic_parameters (p : MctsParameters) : MctsParameters :=
  {| DISCOUNT_FACTOR := DISCOUNT_FACTOR p;
     EXPLORATION_CONSTANT := EXPLORATION_CONSTANT p;
     PROGRESSIVE_WIDENING_K := PROGRESSIVE_WIDENING_K p;
     PROGRESSIVE_WIDENING_ALPHA := PROGRESSIVE_WIDENING_ALPHA p;
     LOWER_BOUND := REWARD_LOWER_BOUND p;
     UPPER_BOUND := REWARD_UPPER_BOUND p;
     LAMBDA := LAMBDA p;
     KAPPA := KAPPA p;
     ACTION_FILTER_FACTOR := ACTION_FILTER_FACTOR p;
     COST_CONSTRAINT := COST_CONSTRAINT p;
     COST_LOWER_BOUND := COST_LOWER_BOUND p;
     COST_UPPER_BOUND := COST_UPPER_BOUND p;
     REWARD_LOWER_BOUND := REWARD_LOWER_BOUND p;
     REWARD_UPPER_BOUND := REWARD_UPPER_BOUND p;
     GRADIENT_UPDATE_STEP := GRADIENT_UPDATE_STEP p;
     TAU_GRADIENT_CLIP := TAU_GRADIENT_CLIP p |}.

(** The constructor. *)
Definition init (num_actions : nat) (p : MctsParameters) : CostConstrainedStatistic :=
  {| collected_reward_ := (0%nat, 0);
     collected_cost_ := (0%nat, 0);
     reward_statistic_ := Uct.init num_actions (make_reward_statistic_parameters p);
     cost_statistic_ := Uct.init num_actions (make_cost_statistic_parameters p);
     unexpanded_actions_ := seq 0 num_actions;
     mean_step_costs_ :=
       fold_left (fun m action => StdMap.assign action 0 m) (seq 0 num_actions) [];
     kappa := KAPPA p;
     action_filter_factor := ACTION_FILTER_FACTOR p;
     cost_constraint := COST_CONSTRAINT p |}.

Definition policy_is_ready (s : CostConstrainedStatistic) : bool :=
  match unexpanded_actions_ s with [] => true | _ => false end.

(** The expansion branch of [choose_next_action], for the index
    [array_idx] that [random_action_selection] drew:
    [unexpanded_actions_[array_idx]] is selected and erased. *)
Definition expand_action (s : CostConstrainedStatistic) (array_idx : nat)
  : option (ActionIdx * CostConstrainedStatistic) :=
  do selected_action <- nth_error (unexpanded_actions_ s) array_idx;
  Some (selected_action,
        {| collected_reward_ := collected_reward_ s;
           collected_cost_ := collected_cost_ s;
           reward_statistic_ := reward_statistic_ s;
           cost_statistic_ := cost_statistic_ s;
           unexpanded_actions_ :=
             firstn array_idx (unexpanded_actions_ s)
             ++ skipn (S array_idx) (unexpanded_actions_ s);
           mean_step_costs_ := mean_step_costs_ s;
           kappa := kappa s;
           action_filter_factor := action_filter_factor s;
           cost_constraint := cost_constraint s |}).

Definition get_normalized_cost_action_value (s : CostConstrainedStatistic)
    (action : ActionIdx) : option xdouble :=
  get_normalized_ucb_value (cost_statistic_ s) action.

Section WithLibm.

Context {L : Libm}.

(** One turn of the loop of [calculate_ucb_values]. *)
Definition ucb_value (params : MctsParameters) (s : CostConstrainedStatistic)
    (kappa_local : Q) (idx : nat) : option xdouble :=
  do cost_value_normalized <- get_normalized_ucb_value (cost_statistic_ s) idx;
  do reward_value_normalized <- get_normalized_ucb_value (reward_statistic_ s) idx;
  do entry <- StdMap.find idx (ucb_statistics_ (reward_statistic_ s));
  let exploration_term :=
    X.mul (Fin kappa_local)
          (sqrt_log_ratio (total_node_visits_ (reward_statistic_ s))
                          (action_count_ entry)) in
  Some (X.add (X.sub reward_value_normalized
                     (X.mul (LAMBDA params) cost_value_normalized))
              (if X.isnan exploration_term then Fin DBL_MAX else exploration_term)).

(** [calculate_ucb_values]: indices [0 .. size-1] of the reward map are
    looked up with [at]. *)
Definition calculate_ucb_values (params : MctsParameters)
    (s : CostConstrainedStatistic) (kappa_local : Q) : option (list xdouble) :=
  traverse (ucb_value params s kappa_local)
           (seq 0 (StdMap.size (ucb_statistics_ (reward_statistic_ s)))).

(** [(count == 0) ? DBL_MAX : sqrt(log(count) / count)] *)
Definition node_count_term (count : Z) : xdouble :=
  if (count =? 0)%Z then Fin DBL_MAX else sqrt_log_ratio count count.

(** The test of the loop of [filter_feasible_actions] for one index; the
    conditional operator binds weaker than [+], so a zero count gives
    [DBL_MAX] alone. *)
Definition feasible_test (s : CostConstrainedStatistic) (values : list xdouble)
    (max_val node_counts_maximizing : xdouble) (action_filter_factor_local : Q)
    (action_idx : nat) : option bool :=
  do v <- nth_error values action_idx;
  let value_difference := X.abs (X.sub v max_val) in
  do entry <- StdMap.find action_idx (ucb_statistics_ (reward_statistic_ s));
  let node_count_relations :=
    if (action_count_ entry =? 0)%Z then Fin DBL_MAX
    else X.add (sqrt_log_ratio (action_count_ entry) (action_count_ entry))
               node_counts_maximizing in
  Some (X.leb value_difference
              (X.mul (Fin action_filter_factor_local) node_count_relations)).

(** [filter_feasible_actions]; reading [values[maximizing_action]] past the
    end of an empty vector is undefined, here [None]. *)
Definition filter_feasible_actions (s : CostConstrainedStatistic)
    (values : list xdouble) (action_filter_factor_local : Q)
  : option (list ActionIdx) :=
  let maximizing_action := max_element values in
  do max_val <- nth_error values maximizing_action;
  do entry <- StdMap.find maximizing_action (ucb_statistics_ (reward_statistic_ s));
  let node_counts_maximizing := node_count_term (action_count_ entry) in
  do tests <- traverse (feasible_test s values max_val node_counts_maximizing
                                      action_filter_factor_local)
                       (seq 0 (length values));
  Some (map fst (filter snd (combine (seq 0 (length values)) tests))).

End WithLibm.

(** One turn of the first loop of [solve_LP_and_sample]; the accumulator is
    [(maximizing_action, minimizing_action)]. *)
Definition extreme_step (cost_stats : UcbStatistics)
    (acc : option (ActionIdx * ActionIdx)) (feasible_action : ActionIdx)
  : option (ActionIdx * ActionIdx) :=
  do mm <- acc;
  do pf <- StdMap.find feasible_action cost_stats;
  do pmax <- StdMap.find (fst mm) cost_stats;
  if Qlt_le_dec (action_value_ pmax) (action_value_ pf)
  then Some (feasible_action, snd mm)
  else
    do pmin <- StdMap.find (snd mm) cost_stats;
    if Qlt_le_dec (action_value_ pf) (action_value_ pmin)
    then Some (fst mm, feasible_action)
    else Some mm.

(** [(maximizing_action, minimizing_action)] after the first loop;
    [feasible_actions.at(0)] throws on an empty vector. *)
Definition extreme_actions (cost_stats : UcbStatistics)
    (feasible_actions : list ActionIdx) : option (ActionIdx * ActionIdx) :=
  match feasible_actions with
  | [] => None
  | f0 :: _ => fold_left (extreme_step cost_stats) feasible_actions (Some (f0, f0))
  end.

(** [stochastic_policy[action.first] = 0] for every entry of [cost_stats]. *)
Definition zero_policy (cost_stats : UcbStatistics) : Policy :=
  fold_left (fun policy action => StdMap.assign (fst action) 0 policy) cost_stats [].

Definition PolicySampled := (ActionIdx * Policy)%type.

(** [solve_LP_and_sample]; the generator is advanced only in the last case. *)
Definition solve_LP_and_sample (s : CostConstrainedStatistic)
    (feasible_actions : list ActionIdx) (g : RandomGenerator)
  : option (PolicySampled * RandomGenerator) :=
  let cost_stats := ucb_statistics_ (cost_statistic_ s) in
  do mm <- extreme_actions cost_stats feasible_actions;
  let maximizing_action := fst mm in
  let minimizing_action := snd mm in
  let stochastic_policy := zero_policy cost_stats in
  if (minimizing_action =? maximizing_action)%nat
  then Some ((minimizing_action, StdMap.assign minimizing_action 1 stochastic_policy), g)
  else
    do pmax <- StdMap.find maximizing_action cost_stats;
    do pmin <- StdMap.find minimizing_action cost_stats;
    let max_val := action_value_ pmax in
    let min_val := action_value_ pmin in
    if Qle_bool (cost_constraint s) min_val
    then Some ((minimizing_action,
                StdMap.assign minimizing_action 1 stochastic_policy), g)
    else if Qle_bool max_val (cost_constraint s)
    then Some ((maximizing_action,
                StdMap.assign maximizing_action 1 stochastic_policy), g)
    else
      let probability_maximizer := (cost_constraint s - min_val) / (max_val - min_val) in
      let stochastic_policy' :=
        StdMap.assign minimizing_action (1 - probability_maximizer)
          (StdMap.assign maximizing_action probability_maximizer stochastic_policy) in
      let (sample, g') := unif g in
      if Qle_bool sample probability_maximizer
      then Some ((maximizing_action, stochastic_policy'), g')
      else Some ((minimizing_action, stochastic_policy'), g').

(** [expected_policy_cost]: [policy.at] throws on an action without entry. *)
Definition expected_policy_cost (s : CostConstrainedStatistic) (policy : Policy)
  : option Cost :=
  fold_left
    (fun acc cost_stat =>
       do expected_cost <- acc;
       do pr <- StdMap.find (fst cost_stat) policy;
       Some (expected_cost + pr * action_value_ (snd cost_stat)))
    (ucb_statistics_ (cost_statistic_ s)) (Some 0).

Section WithLibm.

Context {L : Libm}.

Definition greedy_policy (params : MctsParameters) (s : CostConstrainedStatistic)
    (kappa_local action_filter_factor_local : Q) (g : RandomGenerator)
  : option (PolicySampled * RandomGenerator) :=
  do ucb_values <- calculate_ucb_values params s kappa_local;
  do feasible_actions <- filter_feasible_actions s ucb_values action_filter_factor_local;
  solve_LP_and_sample s feasible_actions g.

Definition get_policy (params : MctsParameters) (s : CostConstrainedStatistic)
    (g : RandomGenerator) : option (Policy * RandomGenerator) :=
  do r <- greedy_policy params s 0 (action_filter_factor s) g;
  Some (snd (fst r), snd r).

Definition get_best_action (params : MctsParameters) (s : CostConstrainedStatistic)
    (g : RandomGenerator) : option (ActionIdx * RandomGenerator) :=
  do r <- greedy_policy params s 0 (action_filter_factor s) g;
  Some (fst (fst r), snd r).

(** [new_lambda] of [calculate_next_lambda], before it is clipped. *)
Definition next_lambda_unclipped (current_lambda : xdouble)
    (gradient_update_step cost_constraint : Q)
    (normalized_ucb_sample_action : xdouble) : xdouble :=
  let gradient := X.sub normalized_ucb_sample_action (Fin cost_constraint) in
  X.add current_lambda (X.mul (Fin gradient_update_step) gradient).

Definition clip_upper_limit (root_statistic : CostConstrainedStatistic)
    (tau_gradient_clip discount_factor : Q) : xdouble :=
  X.div_fin (upper_bound (reward_statistic_ root_statistic)
             - lower_bound (reward_statistic_ root_statistic))
            (tau_gradient_clip * (1 - discount_factor)).

(** [calculate_next_lambda]; [params] is the object that
    [root_statistic.lambda] refers to. *)
Definition calculate_next_lambda (params : MctsParameters)
    (current_lambda : xdouble)
    (gradient_update_step cost_constraint tau_gradient_clip : Q)
    (root_statistic : CostConstrainedStatistic) (discount_factor : Q)
    (g : RandomGenerator) : option (xdouble * RandomGenerator) :=
  do r <- greedy_policy params root_statistic 0 0 g;
  let policy_sampled_action := fst (fst r) in
  do normalized_ucb_sample_action <-
     get_normalized_cost_action_value root_statistic policy_sampled_action;
  let new_lambda :=
    next_lambda_unclipped current_lambda gradient_update_step cost_constraint
                          normalized_ucb_sample_action in
  let clipped_new_lambda :=
    X.min (X.max new_lambda (Fin 0))
          (clip_upper_limit root_statistic tau_gradient_clip discount_factor) in
  Some (clipped_new_lambda, snd r).

(** [NodeStatistic<CostConstrainedStatistic>::update_statistic_parameters];
    the statistics of a tree are built from the driver's parameter object, so
    [root_statistic.lambda] reads [parameters].  [current_iteration] is an
    [unsigned int], so the divisor of the step is at least [1]. *)
Definition update_statistic_parameters (parameters : MctsParameters)
    (root_statistic : CostConstrainedStatistic) (current_iteration : Z)
    (g : RandomGenerator) : option (MctsParameters * RandomGenerator) :=
  if negb (policy_is_ready root_statistic) then Some (parameters, g)
  else
    let current_lambda := LAMBDA parameters in
    let gradient_update_step :=
      GRADIENT_UPDATE_STEP parameters / ((1 # 10) * inject_Z current_iteration + 1) in
    let cost_constraint := COST_CONSTRAINT parameters in
    let tau_gradient_clip := TAU_GRADIENT_CLIP parameters in
    do r <- calculate_next_lambda parameters current_lambda gradient_update_step
              cost_constraint tau_gradient_clip root_statistic
              (DISCOUNT_FACTOR parameters) g;
    Some (set_LAMBDA parameters (fst r), snd r).

End WithLibm.

(** [update_from_heuristic] *)
Definition update_from_heuristic (s heuristic_statistic : CostConstrainedStatistic)
  : CostConstrainedStatistic :=
  {| collected_reward_ := collected_reward_ s;
     collected_cost_ := collected_cost_ s;
     reward_statistic_ :=
       update_from_heuristic_from_backpropagated
         (reward_statistic_ s) (value_ (reward_statistic_ heuristic_statistic));
     cost_statistic_ :=
       update_from_heuristic_from_backpropagated
         (cost_statistic_ s) (value_ (cost_statistic_ heuristic_statistic));
     unexpanded_actions_ := unexpanded_actions_ s;
     mean_step_costs_ := mean_step_costs_ s;
     kappa := kappa s;
     action_filter_factor := action_filter_factor s;
     cost_constraint := cost_constraint s |}.

(** [update_statistic]; [collected_action_transition_counts_] is copied into
    the cost statistic and read by none of the functions here, it is left
    out. *)
Definition update_statistic (s changed_child_statistic : CostConstrainedStatistic)
  : CostConstrainedStatistic :=
  let reward' :=
    update_statistics_from_backpropagated
      (set_collected_reward (reward_statistic_ s) (collected_reward_ s))
      (latest_return_ (reward_statistic_ changed_child_statistic)) in
  let cost' :=
    update_statistics_from_backpropagated
      (set_collected_reward (cost_statistic_ s) (collected_cost_ s))
      (latest_return_ (cost_statistic_ changed_child_statistic)) in
  let a := fst (collected_cost_ s) in
  let mean := StdMap.index 0 a (mean_step_costs_ s) in
  let n := action_count_ (StdMap.index UcbPair_init a (ucb_statistics_ cost')) in
  {| collected_reward_ := collected_reward_ s;
     collected_cost_ := collected_cost_ s;
     reward_statistic_ := reward';
     cost_statistic_ := cost';
     unexpanded_actions_ := unexpanded_actions_ s;
     mean_step_costs_ :=
       StdMap.assign a (mean + (snd (collected_cost_ s) - mean) / inject_Z n)
                     (mean_step_costs_ s);
     kappa := kappa s;
     action_filter_factor := action_filter_factor s;
     cost_constraint := cost_constraint s |}.

(** The driver stores the edge's action with its reward and cost in the
    node before it calls [update_statistic]. *)
Definition set_collected (s : CostConstrainedStatistic)
    (reward : ActionIdx * Reward) (cost : ActionIdx * Cost)
  : CostConstrainedStatistic :=
  {| collected_reward_ := reward;
     collected_cost_ := cost;
     reward_statistic_ := reward_statistic_ s;
     cost_statistic_ := cost_statistic_ s;
     unexpanded_actions_ := unexpanded_actions_ s;
     mean_step_costs_ := mean_step_costs_ s;
     kappa := kappa s;
     action_filter_factor := action_filter_factor s;
     cost_constraint := cost_constraint s |}.

Section Choose.

Context {L : Libm} {U : UniformInt}.

(** [choose_next_action]: with every action expanded the greedy selection
    with the node's [kappa] and filter factor; otherwise an unexpanded
    action, drawn uniformly and erased.  No entry of the statistics is
    created here. *)
Definition choose_next_action (params : MctsParameters)
    (s : CostConstrainedStatistic) (g : RandomGenerator)
  : option (ActionIdx * CostConstrainedStatistic * RandomGenerator) :=
  match unexpanded_actions_ s with
  | [] =>
      do r <- greedy_policy params s (kappa s) (action_filter_factor s) g;
      Some (fst (fst r), s, snd r)
  | _ :: _ =>
      let drawn := uniform_int g 0 (length (unexpanded_actions_ s) - 1) in
      do r <- expand_action s (fst drawn);
      Some (fst r, snd r, snd drawn)
  end.

End Choose.

(** The sum of the loop of [calc_updated_constraint_based_on_policy]: the
    entries of the policy other than the sampled action, weighted with
    their cost values. *)
Definition other_actions_costs (s : CostConstrainedStatistic)
    (policy : PolicySampled) : option Cost :=
  fold_left
    (fun acc action_pair =>
       do other <- acc;
       if (fst action_pair =? fst policy)%nat then Some other
       else
         do p <- StdMap.find (fst action_pair) (ucb_statistics_ (cost_statistic_ s));
         Some (other + snd action_pair * action_value_ p))
    (snd policy) (Some 0).

(** [calc_updated_constraint_based_on_policy] *)
Definition calc_updated_constraint_based_on_policy (s : CostConstrainedStatistic)
    (policy : PolicySampled) (current_constraint : Cost) : option xdouble :=
  do other <- other_actions_costs s policy;
  do probability <- StdMap.find (fst policy) (snd policy);
  do mean_step_cost <- StdMap.find (fst policy) (mean_step_costs_ s);
  Some (X.div_fin (current_constraint - probability * mean_step_cost - other)
                  (k_discount_factor (cost_statistic_ s) * probability)).

(** [set_heuristic_estimate] *)
Definition set_heuristic_estimate (s : CostConstrainedStatistic)
    (accum_rewards : Reward) (accum_ego_cost : Cost) : CostConstrainedStatistic :=
  {| collected_reward_ := collected_reward_ s;
     collected_cost_ := collected_cost_ s;
     reward_statistic_ :=
       set_heuristic_estimate_from_backpropagated (reward_statistic_ s) accum_rewards;
     cost_statistic_ :=
       set_heuristic_estimate_from_backpropagated (cost_statistic_ s) accum_ego_cost;
     unexpanded_actions_ := unexpanded_actions_ s;
     mean_step_costs_ := mean_step_costs_ s;
     kappa := kappa s;
     action_filter_factor := action_filter_factor s;
     cost_constraint := cost_constraint s |}.

End Ccs.
(** ** cost_constrained_statistic.h: the LP step in binary64

    [Ccs.solve_LP_and_sample] and [Ccs.expected_policy_cost] once more,
    with every arithmetic operation of the source rounded on its own, a
    product and the sum it goes into not fused.  The stored action values
    and the constraint are doubles, a policy is a map to doubles; the
    comparisons are exact. *)
Module Ccs64.

Import Uct Ccs.

(** A policy whose entries are doubles, special values included. *)
Definition Policy := StdMap.t xdouble.

Definition PolicySampled := (ActionIdx * Policy)%type.

(** [stochastic_policy[action.first] = 0.0f] for every entry of [cost_stats]. *)
Definition zero_policy (cost_stats : UcbStatistics) : Policy :=
  fold_left (fun policy action => StdMap.assign (fst action) (Fin 0) policy)
            cost_stats [].

(** [solve_LP_and_sample] *)
Definition solve_LP_and_sample (s : CostConstrainedStatistic)
    (feasible_actions : list ActionIdx) (g : RandomGenerator)
  : option (PolicySampled * RandomGenerator) :=
  let cost_stats := ucb_statistics_ (cost_statistic_ s) in
  do mm <- extreme_actions cost_stats feasible_actions;
  let maximizing_action := fst mm in
  let minimizing_action := snd mm in
  let stochastic_policy := zero_policy cost_stats in
  if (minimizing_action =? maximizing_action)%nat
  then Some ((minimizing_action,
              StdMap.assign minimizing_action (Fin 1) stochastic_policy), g)
  else
    do pmax <- StdMap.find maximizing_action cost_stats;
    do pmin <- StdMap.find minimizing_action cost_stats;
    let max_val := action_value_ pmax in
    let min_val := action_value_ pmin in
    if Qle_bool (cost_constraint s) min_val
    then Some ((minimizing_action,
                StdMap.assign minimizing_action (Fin 1) stochastic_policy), g)
    else if Qle_bool max_val (cost_constraint s)
    then Some ((maximizing_action,
                StdMap.assign maximizing_action (Fin 1) stochastic_policy), g)
    else
      let probability_maximizer :=
        Binary64.div (Binary64.sub (Fin (cost_constraint s)) (Fin min_val))
                     (Binary64.sub (Fin max_val) (Fin min_val)) in
      let stochastic_policy' :=
        StdMap.assign minimizing_action
          (Binary64.sub (Fin 1) probability_maximizer)
          (StdMap.assign maximizing_action probability_maximizer stochastic_policy) in
      let (sample, g') := unif g in
      if X.leb (Fin sample) probability_maximizer
      then Some ((maximizing_action, stochastic_policy'), g')
      else Some ((minimizing_action, stochastic_policy'), g').

(** [expected_policy_cost] *)
Definition expected_policy_cost (s : CostConstrainedStatistic) (policy : Policy)
  : option xdouble :=
  fold_left
    (fun acc cost_stat =>
       do expected_cost <- acc;
       do pr <- StdMap.find (fst cost_stat) policy;
       Some (Binary64.add expected_cost
                          (Binary64.mul pr (Fin (action_value_ (snd cost_stat))))))
    (ucb_statistics_ (cost_statistic_ s)) (Some (Fin 0)).

End Ccs64.

(** ** The updates of the backpropagation phase *)

(** What the driver does to the statistic of a node on the way back to the
    root: the leaf it has just created is seeded from the rollout
    ([update_from_heuristic]); every node above it stores the edge's action
    with its reward and cost and folds its child in ([update_statistic]). *)
Inductive BackpropUpdate : Type :=
| HeuristicInit (heuristic_statistic : Ccs.CostConstrainedStatistic)
| ChildUpdate (reward : ActionIdx * Reward) (cost : ActionIdx * Cost)
              (changed_child_statistic : Ccs.CostConstrainedStatistic).

Definition apply_update (s : Ccs.CostConstrainedStatistic) (u : BackpropUpdate)
  : Ccs.CostConstrainedStatistic :=
  match u with
  | HeuristicInit h => Ccs.update_from_heuristic s h
  | ChildUpdate r c child => Ccs.update_statistic (Ccs.set_collected s r c) child
  end.

Definition run_updates (s : Ccs.CostConstrainedStatistic) (us : list BackpropUpdate)
  : Ccs.CostConstrainedStatistic :=
  fold_left apply_update us s.

(** How many of the updates are heuristic initialisations. *)
Fixpoint heuristic_inits (us : list BackpropUpdate) : Z :=
  match us with
  | [] => 0
  | HeuristicInit _ :: us' => 1 + heuristic_inits us'
  | ChildUpdate _ _ _ :: us' => heuristic_inits us'
  end.


(** The sum of a policy's probabilities. *)
Definition policy_sum (policy : Policy) : Q :=
  fold_right (fun kp acc => snd kp + acc) 0 policy.

(** The expanded actions are exactly [0 .. n-1] in both statistics. *)
Definition fully_expanded (s : Ccs.CostConstrainedStatistic) (n : nat) : Prop :=
  StdMap.keys (Uct.ucb_statistics_ (Ccs.reward_statistic_ s)) = seq 0 n /\
  StdMap.keys (Uct.ucb_statistics_ (Ccs.cost_statistic_ s)) = seq 0 n.

(** ** hypothesis_crossing_state.h *)
Module Crossing.

(** [enum Actions], by value; the functions below return and compare these
    values after their conversion to [ActionIdx], which keeps the three of
    them apart whatever integer type [ActionIdx] is. *)
Definition WAIT : Z := 0.

Definition FORWARD : Z := 1.

Definition BACKWARD : Z := -1.

(** [AgentPolicyCrossingState]: [desired_gap_range_] is a pair of
    [unsigned int]. *)
Record AgentPolicyCrossingState := mkAgentPolicyCrossingState {
  desired_gap_range_ : Z * Z
}.

(** [calculate_action]: both operands are [unsigned int], so is their
    difference. *)
Definition calculate_action (ego_distance desired_gap_dst : Z) : Z :=
  if (0 <? Unsigned.sub ego_distance desired_gap_dst)%Z then FORWARD
  else if (Unsigned.sub ego_distance desired_gap_dst =? 0)%Z then WAIT
  else BACKWARD.

(** [gap_distances]: [second - first + 1] elements (an [unsigned int]
    expression), filled by [std::iota] from [first]. *)
Definition gap_distances (p : AgentPolicyCrossingState) : list Z :=
  let first := fst (desired_gap_range_ p) in
  let second := snd (desired_gap_range_ p) in
  let size := Unsigned.wrap (Unsigned.sub second first + 1) in
  map (fun i => Unsigned.wrap (first + Z.of_nat i)) (seq 0 (Z.to_nat size)).

(** [action_selected] after the loop of [get_probability]. *)
Definition action_selected (p : AgentPolicyCrossingState) (ego_distance action : Z)
  : Z :=
  fold_left
    (fun n desired_gap_dst =>
       if (calculate_action ego_distance desired_gap_dst =? action)%Z
       then Unsigned.incr n else n)
    (gap_distances p) 0%Z.

(** [get_probability]: the quotient of two floats, [0.0f/0.0f] included. *)
Definition get_probability (p : AgentPolicyCrossingState) (ego_distance action : Z)
  : xdouble :=
  X.div_fin (inject_Z (action_selected p ego_distance action))
            (inject_Z (Z.of_nat (length (gap_distances p)))).

Record AgentState := mkAgentState {
  x_pos : Z;
  last_action : Z
}.

Record HypothesisCrossingState := mkHypothesisCrossingState {
  hypothesis_ : list AgentPolicyCrossingState;
  other_agent_states_ : list AgentState;
  ego_state_ : AgentState;
  terminal_ : bool
}.

(** [dst_to_ego]: a difference of two [unsigned int]; an index past the end
    of [other_agent_states_] is undefined, here [None]. *)
Definition dst_to_ego (s : HypothesisCrossingState) (other_agent_idx : nat)
  : option Z :=
  do other <- nth_error (other_agent_states_ s) other_agent_idx;
  Some (Unsigned.sub (x_pos (ego_state_ s)) (x_pos other)).

(** [HypothesisCrossingState::get_probability]; [agent_idx - 1] on the
    unsigned [AgentIdx] [0] is past the end of the array. *)
Definition state_get_probability (s : HypothesisCrossingState)
    (hypothesis : nat) (agent_idx : nat) (action : Z) : option xdouble :=
  match agent_idx with
  | O => None
  | S other_agent_idx =>
      do h <- nth_error (hypothesis_ s) hypothesis;
      do d <- dst_to_ego s other_agent_idx;
      Some (get_probability h d action)
  end.

(** The value that [std::uniform_int_distribution<unsigned int>(lo, hi)]
    draws from a [std::mt19937] freshly seeded with [1000], for [lo <= hi];
    the distribution keeps it in [[lo, hi]]. *)
Class GapDraw : Type := {
  gap_draw : Z -> Z -> Z;
  gap_draw_range : forall lo hi, (lo <= hi)%Z -> (lo <= gap_draw lo hi <= hi)%Z
}.

(** [act]: the generator is local and seeded with a constant, so every
    call draws the same gap; a range with [first > second] is outside the
    precondition of the distribution, here [None]. *)
Definition act {D : GapDraw} (p : AgentPolicyCrossingState) (ego_distance : Z)
  : option Z :=
  let first := fst (desired_gap_range_ p) in
  let second := snd (desired_gap_range_ p) in
  if (first <=? second)%Z
  then Some (calculate_action ego_distance (gap_draw first second))
  else None.

Definition state_x_length : Z := 41.

Definition ego_goal_reached_position : Z := 35.

Definition crossing_point : Z := (state_x_length - 1) / 2 + 1.

(** [add_hypothesis] *)
Definition add_hypothesis (s : HypothesisCrossingState)
    (hypothesis : AgentPolicyCrossingState) : HypothesisCrossingState :=
  {| hypothesis_ := hypothesis_ s ++ [hypothesis];
     other_agent_states_ := other_agent_states_ s;
     ego_state_ := ego_state_ s;
     terminal_ := terminal_ s |}.

Definition get_num_hypothesis (s : HypothesisCrossingState) : nat :=
  length (hypothesis_ s).

Definition is_terminal (s : HypothesisCrossingState) : bool := terminal_ s.

(** [get_last_action]; [ego_agent_idx] is a constant of the state
    interface, which is not part of this file: it is an argument here.
    [agent_idx - 1] on the [AgentIdx] [0] is past the end of the array. *)
Definition get_last_action (ego_agent_idx : nat) (s : HypothesisCrossingState)
    (agent_idx : nat) : option Z :=
  if (agent_idx =? ego_agent_idx)%nat then Some (last_action (ego_state_ s))
  else
    match agent_idx with
    | O => None
    | S other_agent_idx =>
        do other <- nth_error (other_agent_states_ s) other_agent_idx;
        Some (last_action other)
    end.

(** [bool] to [float] *)
Definition float_of_bool (b : bool) : Q := if b then 1 else 0.

(** [rewards.resize(n)]: cut, or filled up with zeros. *)
Definition resize (n : nat) (rewards : list Reward) : list Reward :=
  firstn n rewards ++ repeat 0 (n - length rewards).

(** [static_cast<Actions>(a)]: the values of the enumeration are those of
    the smallest bit-field that holds its enumerators [-1 .. 3]; the cast
    of any other value is undefined, here [None]. *)
Definition cast_to_Actions (a : Z) : option Z :=
  if ((-4 <=? a) && (a <=? 3))%Z then Some a else None.

(** The next state of one other agent in the loop of [execute]. *)
Definition next_other_agent_state (s : HypothesisCrossingState)
    (joint_action : list Z) (i : nat) : option AgentState :=
  do old_state <- nth_error (other_agent_states_ s) i;
  do a <- nth_error joint_action (i + 1);
  do action <- cast_to_Actions a;
  Some (mkAgentState (Unsigned.wrap (x_pos old_state + a)) action).

(** [execute]: the successor state with what it writes to [rewards] and
    [ego_cost].  An entry of [joint_action] is the integer value of the
    [ActionIdx]; added to an [unsigned int] position and stored as one, the
    sum is taken modulo [2^32] whatever integer type [ActionIdx] is.  The
    successor is built by the constructor that leaves [hypothesis_] empty.
    Reading [joint_action] past its end is undefined, here [None]. *)
Definition execute (ego_agent_idx : nat) (s : HypothesisCrossingState)
    (joint_action : list Z) (rewards : list Reward)
  : option (HypothesisCrossingState * list Reward * Cost) :=
  do a_ego <- nth_error joint_action ego_agent_idx;
  do action_ego <- cast_to_Actions a_ego;
  let next_ego_state :=
    mkAgentState (Unsigned.wrap (x_pos (ego_state_ s) + a_ego)) action_ego in
  do next_other_agent_states <-
     traverse (next_other_agent_state s joint_action)
              (seq 0 (length (other_agent_states_ s)));
  let goal_reached := (ego_goal_reached_position <=? x_pos (ego_state_ s))%Z in
  let collision :=
    existsb (fun state => (x_pos next_ego_state =? crossing_point)%Z
                          && (x_pos state =? crossing_point)%Z)
            next_other_agent_states in
  let terminal := goal_reached || collision in
  let reward := float_of_bool goal_reached * 100 - 1000 * float_of_bool collision in
  Some ({| hypothesis_ := [];
           other_agent_states_ := next_other_agent_states;
           ego_state_ := next_ego_state;
           terminal_ := terminal |},
        reward :: tl (resize 2 rewards),
        float_of_bool collision * 1).

End Crossing.

(** ** crossing_state_episode_runner.h *)
Module Runner.

Section Episode.

(** What [step] calls lies outside these files (the search, the agents'
    true policies, [execute] of the templated crossing state, the belief
    tracker, the viewer), and so does the type [EgoCosts], here with its
    value-initialised element.  [World] is the state of the runner;
    [advance] is one non-terminal step: the runner afterwards with the
    ego's reward as the [float] that the tuple holds, the cost and the
    flags [ego_collided] and [ego_goal_reached] of the new state. *)
Variable World : Type.

Variable Belief : Type.

Variable EgoCosts : Type.

Variable EgoCosts_init : EgoCosts.

Variable is_terminal : World -> bool.

Variable advance : World -> World * (Q * EgoCosts * bool * bool).

Variable get_beliefs : World -> Belief.

(** The values of the tuple that [step] returns; the names paired with
    them are left out. *)
Record StepResult := mkStepResult {
  Reward_ : Q;
  EgoCosts_ : EgoCosts;
  Terminal : bool;
  Collision : bool;
  GoalReached : bool
}.

(** [step]: on a terminal state the value-initialised tuple. *)
Definition step (w : World) : World * StepResult :=
  if is_terminal w then (w, mkStepResult 0 EgoCosts_init false false false)
  else
    let r := advance w in
    (fst r,
     mkStepResult (fst (fst (fst (snd r)))) (snd (fst (fst (snd r))))
                  (is_terminal (fst r)) (snd (fst (snd r))) (snd (snd r))).

(** What [run] adds to the result of the last step. *)
Record RunResult := mkRunResult {
  last_step : StepResult;
  MaxSteps : Z;
  NumSteps : Z;
  BeliefResults : list Belief
}.

(** [run]: the loop has no exit of its own, [fuel] bounds its turns;
    [current_step] is an [unsigned int]. *)
Fixpoint run_loop (max_steps_ : Z) (save_belief_results : bool) (fuel : nat)
    (w : World) (current_step : Z) (belief_results : list Belief)
  : option (World * RunResult) :=
  match fuel with
  | O => None
  | S fuel' =>
      let stepped := step w in
      let step_result := snd stepped in
      let max_steps_reached := (max_steps_ <? current_step)%Z in
      let belief_results' :=
        if save_belief_results
        then belief_results ++ [get_beliefs (fst stepped)]
        else belief_results in
      if Terminal step_result || max_steps_reached
      then Some (fst stepped,
                 mkRunResult step_result (if max_steps_reached then 1 else 0)%Z
                             current_step belief_results')
      else run_loop max_steps_ save_belief_results fuel' (fst stepped)
                    (Unsigned.incr current_step) belief_results'
  end.

Definition run (max_steps_ : Z) (save_belief_results : bool) (fuel : nat)
    (w : World) : option (World * RunResult) :=
  run_loop max_steps_ save_belief_results fuel w 0%Z [].

End Episode.

Arguments mkStepResult {EgoCosts} Reward_ EgoCosts_ Terminal Collision GoalReached.
Arguments Reward_ {EgoCosts} s.
Arguments EgoCosts_ {EgoCosts} s.
Arguments Terminal {EgoCosts} s.
Arguments Collision {EgoCosts} s.
Arguments GoalReached {EgoCosts} s.
Arguments step {World EgoCosts} EgoCosts_init is_terminal advance w.
Arguments mkRunResult {Belief EgoCosts} last_step MaxSteps NumSteps BeliefResults.
Arguments last_step {Belief EgoCosts} r.
Arguments MaxSteps {Belief EgoCosts} r.
Arguments NumSteps {Belief EgoCosts} r.
Arguments BeliefResults {Belief EgoCosts} r.
Arguments run_loop {World Belief EgoCosts} EgoCosts_init is_terminal advance
  get_beliefs max_steps_ save_belief_results fuel w current_step belief_results.
Arguments run {World Belief EgoCosts} EgoCosts_init is_terminal advance get_beliefs
  max_steps_ save_belief_results fuel w.

End Runner.

(** ** Vocabulary of the statements *)

(** The invariant that the two update functions of [UctStatistic] keep: the
    visit counter is the sum of the action counters plus [h], modulo
    [2^32]. *)
Definition visits_inv (s : Uct.UctStatistic) (h : Z) : Prop :=
  Uct.total_node_visits_ s
  = ((Uct.sum_action_counts (Uct.ucb_statistics_ s) + h) mod Unsigned.modulus)%Z.

(** The multiplier is finite and the bounds of both statistics are in
    order, the precondition of the normalisation. *)
Definition well_configured (params : MctsParameters)
    (s : Ccs.CostConstrainedStatistic) : Prop :=
  (exists l, LAMBDA params = Fin l) /\
  Uct.lower_bound (Ccs.reward_statistic_ s)
  < Uct.upper_bound (Ccs.reward_statistic_ s) /\
  Uct.lower_bound (Ccs.cost_statistic_ s)
  < Uct.upper_bound (Ccs.cost_statistic_ s).

(** The bounds of the two statistics are those of the parameter object,
    as the constructor copies them. *)
Definition bounds_from (p : MctsParameters) (s : Ccs.CostConstrainedStatistic)
  : Prop :=
  Uct.upper_bound (Ccs.reward_statistic_ s) = REWARD_UPPER_BOUND p /\
  Uct.lower_bound (Ccs.reward_statistic_ s) = REWARD_LOWER_BOUND p /\
  Uct.upper_bound (Ccs.cost_statistic_ s) = COST_UPPER_BOUND p /\
  Uct.lower_bound (Ccs.cost_statistic_ s) = COST_LOWER_BOUND p.

(** Every entry of the reward map has a nonzero count. *)
Definition visited (s : Ccs.CostConstrainedStatistic) : Prop :=
  Forall (fun kp => Uct.action_count_ (snd kp) <> 0%Z)
         (Uct.ucb_statistics_ (Ccs.reward_statistic_ s)).

(** What makes the right-hand side of the filter's test non-negative: a
    zero factor, or a non-negative factor and non-negative square roots. *)
Definition filter_bound_nonneg {L : Libm} (action_filter_factor_local : Q) : Prop :=
  action_filter_factor_local == 0 \/
  (0 <= action_filter_factor_local /\ forall N n, 0 <= sqrt_log N n).

(** The invariant of the first loop of [solve_LP_and_sample]: both actions
    are among those seen, their costs bound the cost of every action seen,
    and two different actions have different costs. *)
Definition extreme_inv (cs : Uct.UcbStatistics) (seen : list ActionIdx)
    (mm : ActionIdx * ActionIdx) : Prop :=
  In (fst mm) seen /\ In (snd mm) seen /\
  exists pmax pmin,
    StdMap.find (fst mm) cs = Some pmax /\
    StdMap.find (snd mm) cs = Some pmin /\
    (forall f pf, In f seen -> StdMap.find f cs = Some pf ->
                  Uct.action_value_ pmin <= Uct.action_value_ pf
                  <= Uct.action_value_ pmax) /\
    (fst mm <> snd mm -> Uct.action_value_ pmin < Uct.action_value_ pmax).

(** The entry of the all-zero policy for an entry of the cost map. *)
Definition zero_entry (kp : ActionIdx * Uct.UcbPair) : ActionIdx * Probability :=
  (fst kp, 0).

(** The sum of [g(a) * cost[a]] over the expanded actions [a]. *)
Definition weighted_cost (g : ActionIdx -> Q) (cs : Uct.UcbStatistics) : Q :=
  fold_right (fun kp acc => g (fst kp) * Uct.action_value_ (snd kp) + acc) 0 cs.

(** All the mass [x] on the action [a]. *)
Definition point_mass (a : ActionIdx) (x : Q) (k : ActionIdx) : Q :=
  if (k =? a)%nat then x else 0.

(** The returns that a run of updates backs up for action [a] into the
    reward statistic of a node with discount factor [gamma], oldest first:
    the reward on the edge plus the discounted latest return of the
    child. *)
Fixpoint reward_returns (gamma : Q) (a : ActionIdx) (us : list BackpropUpdate)
  : list Q :=
  match us with
  | [] => []
  | HeuristicInit _ :: us' => reward_returns gamma a us'
  | ChildUpdate r _ child :: us' =>
      if (fst r =? a)%nat
      then (snd r + gamma * Uct.latest_return_ (Ccs.reward_statistic_ child))
           :: reward_returns gamma a us'
      else reward_returns gamma a us'
  end.

(** The same for the cost statistic, without discount. *)
Fixpoint cost_returns (a : ActionIdx) (us : list BackpropUpdate) : list Q :=
  match us with
  | [] => []
  | HeuristicInit _ :: us' => cost_returns a us'
  | ChildUpdate _ c child :: us' =>
      if (fst c =? a)%nat
      then (snd c + Uct.latest_return_ (Ccs.cost_statistic_ child))
           :: cost_returns a us'
      else cost_returns a us'
  end.



(** Every update stores the edge's action with both the reward and the
    cost. *)
Definition same_action (u : BackpropUpdate) : Prop :=
  match u with
  | HeuristicInit _ => True
  | ChildUpdate r c _ => fst r = fst c
  end.


(** The visit counts of a map, keyed by action. *)
Definition counts_of (m : Uct.UcbStatistics) : StdMap.t Z :=
  map (fun kp => (fst kp, Uct.action_count_ (snd kp))) m.


(** The expanded and the unexpanded actions of a UCT statistic are the
    actions [0 .. num_actions-1], each once. *)
Definition partitioned (s : Uct.UctStatistic) : Prop :=
  Permutation (StdMap.keys (Uct.ucb_statistics_ s) ++ Uct.unexpanded_actions_ s)
              (seq 0 (Uct.num_actions_ s)) /\
  StdMap.ok (Uct.ucb_statistics_ s) = true /\
  (Z.of_nat (Uct.num_actions_ s) < Unsigned.modulus)%Z.

(** Rounds at one node: each one selects the next action and then applies
    the updates that are backed up to the node before the next
    selection. *)
Fixpoint select_rounds {L : Libm} {U : UniformInt} (params : MctsParameters)
    (s : Ccs.CostConstrainedStatistic) (g : RandomGenerator)
    (rounds : list (list BackpropUpdate))
  : option (list ActionIdx * Ccs.CostConstrainedStatistic * RandomGenerator) :=
  match rounds with
  | [] => Some ([], s, g)
  | us :: rounds' =>
      do r <- Ccs.choose_next_action params s g;
      do r' <- select_rounds params (run_updates (snd (fst r)) us) (snd r) rounds';
      Some (fst (fst r) :: fst (fst r'), snd (fst r'), snd r')
  end.

(** The cost of the entries of a policy other than that of action [a],
    each weighted with the cost value of its action. *)
Definition policy_cost_except (cs : Uct.UcbStatistics) (a : ActionIdx)
    (policy : Policy) : Q :=
  fold_right
    (fun kp acc =>
       (if (fst kp =? a)%nat then 0
        else snd kp * Uct.action_value_ (StdMap.index Uct.UcbPair_init (fst kp) cs))
       + acc)
    0 policy.

(** The sum of the entries of a policy of doubles, added up in key order
    with every addition rounded. *)
Definition rounded_policy_sum (policy : Ccs64.Policy) : xdouble :=
  fold_left (fun acc kp => Binary64.add acc (snd kp)) policy (Fin 0).

(** ** Example data *)
Module Examples.

Import Uct Ccs.

(** The parameters that [cost_constrained_test.cc] sets for
    [SetUp(1, 2.0, 0.5, 0.8, 0.3, 0.8, 0.3)]; its initial lambda,
    [((1 - 0.8) * 2 - (1 - 0.3) * 0.5) / (0.3 - 0.8)], is [-0.1].  The four
    parameters of the plain UCT statistic and [KAPPA] are not set by the
    test. *)
Definition test_parameters : MctsParameters :=
  {| DISCOUNT_FACTOR := 9 # 10;
     EXPLORATION_CONSTANT := 7 # 10;
     PROGRESSIVE_WIDENING_K := 1;
     PROGRESSIVE_WIDENING_ALPHA := 1 # 4;
     LOWER_BOUND := 0;
     UPPER_BOUND := 1;
     LAMBDA :=
       Fin (((1 - (8 # 10)) * 2 - (1 - (3 # 10)) * (5 # 10)) / ((3 # 10) - (8 # 10)));
     KAPPA := 10;
     ACTION_FILTER_FACTOR := 1;
     COST_CONSTRAINT := 8 # 10;
     COST_LOWER_BOUND := 0;
     COST_UPPER_BOUND := 1;
     REWARD_LOWER_BOUND := 0;
     REWARD_UPPER_BOUND := 2;
     GRADIENT_UPDATE_STEP := 1 # 10;
     TAU_GRADIENT_CLIP := 1 |}.

(** The root of a fresh tree over three actions. *)
Definition fresh_root : CostConstrainedStatistic := Ccs.init 3 test_parameters.

(** A leaf whose rollout returned nothing. *)
Definition leaf : CostConstrainedStatistic := Ccs.init 3 test_parameters.

(** The root after one iteration that expanded action [1] and collected
    reward [2] at no cost. *)
Definition root_after_one_iteration : CostConstrainedStatistic :=
  match expand_action fresh_root 1 with
  | Some (_, s) => apply_update s (ChildUpdate (1%nat, 2) (1%nat, 0) leaf)
  | None => fresh_root
  end.

(** Parameters with a zero multiplier and a cost constraint of one half. *)
Definition tie_parameters : MctsParameters :=
  {| DISCOUNT_FACTOR := 9 # 10;
     EXPLORATION_CONSTANT := 7 # 10;
     PROGRESSIVE_WIDENING_K := 1;
     PROGRESSIVE_WIDENING_ALPHA := 1 # 4;
     LOWER_BOUND := 0;
     UPPER_BOUND := 1;
     LAMBDA := Fin 0;
     KAPPA := 10;
     ACTION_FILTER_FACTOR := 1;
     COST_CONSTRAINT := 1 # 2;
     COST_LOWER_BOUND := 0;
     COST_UPPER_BOUND := 1;
     REWARD_LOWER_BOUND := 0;
     REWARD_UPPER_BOUND := 2;
     GRADIENT_UPDATE_STEP := 1 # 10;
     TAU_GRADIENT_CLIP := 1 |}.

(** The same with a cost constraint that every action meets. *)
Definition slack_parameters : MctsParameters :=
  {| DISCOUNT_FACTOR := 9 # 10;
     EXPLORATION_CONSTANT := 7 # 10;
     PROGRESSIVE_WIDENING_K := 1;
     PROGRESSIVE_WIDENING_ALPHA := 1 # 4;
     LOWER_BOUND := 0;
     UPPER_BOUND := 1;
     LAMBDA := Fin 0;
     KAPPA := 10;
     ACTION_FILTER_FACTOR := 1;
     COST_CONSTRAINT := 1;
     COST_LOWER_BOUND := 0;
     COST_UPPER_BOUND := 1;
     REWARD_LOWER_BOUND := 0;
     REWARD_UPPER_BOUND := 2;
     GRADIENT_UPDATE_STEP := 1 # 10;
     TAU_GRADIENT_CLIP := 1 |}.

(** A root over two actions, each expanded and backed up once: both
    collected reward [1], action [0] at cost [0] and action [1] at cost
    [1]. *)
Definition two_action_root (p : MctsParameters) : CostConstrainedStatistic :=
  match expand_action (Ccs.init 2 p) 0 with
  | Some (_, s1) =>
      match expand_action
              (apply_update s1 (ChildUpdate (0%nat, 1) (0%nat, 0) (Ccs.init 2 p))) 0
      with
      | Some (_, s2) =>
          apply_update s2 (ChildUpdate (1%nat, 1) (1%nat, 1) (Ccs.init 2 p))
      | None => s1
      end
  | None => Ccs.init 2 p
  end.

Definition tie_root : CostConstrainedStatistic := two_action_root tie_parameters.

Definition slack_root : CostConstrainedStatistic := two_action_root slack_parameters.

(** A statistic whose only entry has a zero count at two node visits, a
    state that the updates above do not produce. *)
Definition unvisited_root : CostConstrainedStatistic :=
  {| collected_reward_ := (0%nat, 0);
     collected_cost_ := (0%nat, 0);
     reward_statistic_ :=
       {| num_actions_ := 1;
          Uct.collected_reward_ := (0%nat, 0);
          value_ := 0;
          latest_return_ := 0;
          ucb_statistics_ := [(0%nat, UcbPair_init)];
          total_node_visits_ := 2;
          Uct.unexpanded_actions_ := [];
          upper_bound := 2;
          lower_bound := 0;
          k_discount_factor := 9 # 10;
          exploration_constant := 7 # 10;
          progressive_widening_k := 1;
          progressive_widening_alpha := 1 # 4 |};
     cost_statistic_ :=
       {| num_actions_ := 1;
          Uct.collected_reward_ := (0%nat, 0);
          value_ := 0;
          latest_return_ := 0;
          ucb_statistics_ := [(0%nat, UcbPair_init)];
          total_node_visits_ := 2;
          Uct.unexpanded_actions_ := [];
          upper_bound := 1;
          lower_bound := 0;
          k_discount_factor := 1;
          exploration_constant := 7 # 10;
          progressive_widening_k := 1;
          progressive_widening_alpha := 1 # 4 |};
     unexpanded_actions_ := [];
     mean_step_costs_ := [(0%nat, 0)];
     kappa := 10;
     action_filter_factor := 1;
     cost_constraint := 1 # 2 |}.

(** A generator whose first uniform sample is [1/4] and whose later ones
    are [3/4]. *)
Definition quarter_then_three_quarters : RandomGenerator :=
  fun n => match n with O => 1 # 4 | S _ => 3 # 4 end.

(** A stand-in for libm where a statement needs one. *)
Definition half_libm : Libm := fun _ _ => 1 # 2.

(** A UCT statistic with three expanded actions, two of them of the largest
    value. *)
Definition uct_three : UctStatistic :=
  {| num_actions_ := 3;
     Uct.collected_reward_ := (0%nat, 0);
     value_ := 1;
     latest_return_ := 1;
     ucb_statistics_ :=
       [(0%nat, mkUcbPair 1 (1 # 2)); (1%nat, mkUcbPair 2 1); (2%nat, mkUcbPair 1 1)];
     total_node_visits_ := 4;
     Uct.unexpanded_actions_ := [];
     upper_bound := 1;
     lower_bound := 0;
     k_discount_factor := 9 # 10;
     exploration_constant := 7 # 10;
     progressive_widening_k := 1;
     progressive_widening_alpha := 1 # 4 |}.

(** The hypothesis of the crossing-state tests with desired gaps [3 .. 5],
    and one whose range is all of [unsigned int]. *)
Definition gap_3_5 : Crossing.AgentPolicyCrossingState :=
  Crossing.mkAgentPolicyCrossingState (3, 5)%Z.

Definition gap_all : Crossing.AgentPolicyCrossingState :=
  Crossing.mkAgentPolicyCrossingState (0, 4294967295)%Z.

(** Two backups over the edge of action [1], from children whose latest
    returns are [0]: rewards [2] and [1], costs [0] and [1]. *)
Definition two_backups : list BackpropUpdate :=
  [ChildUpdate (1%nat, 2) (1%nat, 0) leaf; ChildUpdate (1%nat, 1) (1%nat, 1) leaf].

(** Stand-ins for the library where a statement needs one: a distribution
    that draws its lower bound and leaves the generator alone, and
    constant functions. *)
Definition lowest_index : UniformInt :=
  {| uniform_int := fun g lo _ => (lo, g);
     uniform_int_range := fun _ lo _ H => conj (le_n lo) H |}.


Definition unit_pow : LibmPow := fun _ _ => Fin 1.

Definition lowest_gap : Crossing.GapDraw :=
  {| Crossing.gap_draw := fun lo _ => lo;
     Crossing.gap_draw_range := fun lo _ H => conj (Z.le_refl lo) H |}.


(** The ego and one other agent one cell before the crossing point. *)
Definition before_crossing : Crossing.HypothesisCrossingState :=
  Crossing.mkHypothesisCrossingState
    [gap_3_5] [Crossing.mkAgentState 20 0] (Crossing.mkAgentState 20 0) false.

(** An episode that counts down to its terminal state [0] without
    rewards. *)
Definition countdown_advance (w : nat) : nat * (Q * Q * bool * bool) :=
  (Nat.pred w, (0, 0, false, false)).

(** A root over [num_actions] actions of which [0] and [1] are expanded
    and backed up once, both with collected reward [1]: action [0] at cost
    [c0], action [1] at cost [c1]. *)
Definition two_expanded_root (num_actions : nat) (p : MctsParameters) (c0 c1 : Cost)
  : CostConstrainedStatistic :=
  match expand_action (Ccs.init num_actions p) 0 with
  | Some (_, s1) =>
      match expand_action
              (apply_update s1
                 (ChildUpdate (0%nat, 1) (0%nat, c0) (Ccs.init num_actions p))) 0
      with
      | Some (_, s2) =>
          apply_update s2
            (ChildUpdate (1%nat, 1) (1%nat, c1) (Ccs.init num_actions p))
      | None => s1
      end
  | None => Ccs.init num_actions p
  end.

(** Three actions, the third not expanded yet. *)
Definition two_of_three_root : CostConstrainedStatistic :=
  two_expanded_root 3 tie_parameters 0 1.

(** The constraint [0.3] between the costs [0.1] and [0.4], each the
    double nearest to the decimal. *)
Definition decimal_parameters : MctsParameters :=
  {| DISCOUNT_FACTOR := 9 # 10;
     EXPLORATION_CONSTANT := 7 # 10;
     PROGRESSIVE_WIDENING_K := 1;
     PROGRESSIVE_WIDENING_ALPHA := 1 # 4;
     LOWER_BOUND := 0;
     UPPER_BOUND := 1;
     LAMBDA := Fin 0;
     KAPPA := 10;
     ACTION_FILTER_FACTOR := 1;
     COST_CONSTRAINT := Binary64.double_of (3 # 10);
     COST_LOWER_BOUND := 0;
     COST_UPPER_BOUND := 1;
     REWARD_LOWER_BOUND := 0;
     REWARD_UPPER_BOUND := 2;
     GRADIENT_UPDATE_STEP := 1 # 10;
     TAU_GRADIENT_CLIP := 1 |}.

Definition decimal_root : CostConstrainedStatistic :=
  two_expanded_root 2 decimal_parameters
    (Binary64.double_of (1 # 10)) (Binary64.double_of (4 # 10)).



End Examples.

(** * Theorems *)

(** ** [StdMap] *)
Module StdMapFacts.
Import StdMap.

Lemma ascending_cons (k : ActionIdx) (l : list ActionIdx) :
  ascending (k :: l) = true -> Forall (fun k' => (k < k')%nat) l /\ ascending l = true.
Proof.
  revert k; induction l as [|k' l IH]; intros k H.
  - split; [constructor | reflexivity].
  - cbn [ascending] in H. apply andb_true_iff in H as [Hlt Hl].
    apply Nat.ltb_lt in Hlt. split; [|exact Hl].
    constructor; [exact Hlt|].
    destruct (IH k' Hl) as [Hall _].
    eapply Forall_impl; [|exact Hall]. cbn; intros; lia.
Qed.

Lemma ok_cons {V} (k : ActionIdx) (v : V) (m : t V) :
  ok ((k, v) :: m) = true ->
  Forall (fun k' => (k < k')%nat) (keys m) /\ ok m = true.
Proof. apply ascending_cons. Qed.

Lemma find_In {V} (m : t V) (k : ActionIdx) (v : V) :
  ok m = true -> (find k m = Some v <-> In (k, v) m).
Proof.
  induction m as [|[k' v'] m IH]; intros Hok; cbn [find].
  - split; [discriminate | intros []].
  - destruct (ok_cons _ _ _ Hok) as [Hall Hok'].
    destruct (Nat.compare_spec k k') as [->|Hlt|Hgt].
    + split.
      * intros [= ->]. left; reflexivity.
      * intros [[= ->]|Hin]; [reflexivity|].
        apply (in_map fst) in Hin. cbn in Hin.
        rewrite Forall_forall in Hall. apply Hall in Hin. lia.
    + split; [discriminate|].
      intros [[= -> ->]|Hin]; [lia|].
      apply (in_map fst) in Hin. cbn in Hin.
      rewrite Forall_forall in Hall. apply Hall in Hin. lia.
    + rewrite (IH Hok'). split; [intros; right; assumption|].
      intros [[= -> ->]|Hin]; [lia | exact Hin].
Qed.

Lemma find_keys {V} (m : t V) (k : ActionIdx) :
  ok m = true -> (In k (keys m) <-> exists v, find k m = Some v).
Proof.
  intros Hok. split.
  - intros Hin. apply in_map_iff in Hin as [[k' v] [<- Hin]].
    exists v. apply find_In; assumption.
  - intros [v Hv]. apply find_In in Hv; [|assumption].
    apply (in_map fst) in Hv. exact Hv.
Qed.

Lemma find_assign_eq {V} (m : t V) (k : ActionIdx) (v : V) :
  find k (assign k v m) = Some v.
Proof.
  induction m as [|[k' v'] m IH]; cbn [assign find].
  - rewrite Nat.compare_refl. reflexivity.
  - destruct (Nat.compare k k') eqn:E; cbn [find].
    + rewrite Nat.compare_refl. reflexivity.
    + rewrite Nat.compare_refl. reflexivity.
    + rewrite E. exact IH.
Qed.

Lemma find_assign_neq {V} (m : t V) (k k' : ActionIdx) (v : V) :
  k <> k' -> find k' (assign k v m) = find k' m.
Proof.
  intros Hne. induction m as [|[k1 v1] m IH]; cbn [assign find].
  - destruct (Nat.compare_spec k' k); [congruence | reflexivity | reflexivity].
  - destruct (Nat.compare_spec k k1) as [->|Hlt|Hgt]; cbn [find].
    + destruct (Nat.compare_spec k' k1); [congruence | reflexivity | reflexivity].
    + destruct (Nat.compare_spec k' k) as [->|Hlt'|Hgt']; [congruence | |reflexivity].
      destruct (Nat.compare_spec k' k1); [lia | reflexivity | lia].
    + destruct (Nat.compare k' k1); [reflexivity | reflexivity | exact IH].
Qed.

Lemma keys_assign_found {V} (m : t V) (k : ActionIdx) (v v0 : V) :
  find k m = Some v0 -> keys (assign k v m) = keys m.
Proof.
  induction m as [|[k1 v1] m IH]; cbn [assign find keys map]; [discriminate|].
  destruct (Nat.compare_spec k k1) as [->|Hlt|Hgt]; cbn [map fst].
  - reflexivity.
  - discriminate.
  - intros H. f_equal. apply IH, H.
Qed.

Lemma assign_ok {V} (m : t V) (k : ActionIdx) (v : V) :
  ok m = true -> ok (assign k v m) = true.
Proof.
  unfold ok. induction m as [|[k1 v1] m IH]; cbn [assign keys map fst]; [reflexivity|].
  intros Hok. destruct (Nat.compare_spec k k1) as [->|Hlt|Hgt].
  - exact Hok.
  - cbn [keys map fst ascending] in *. rewrite Hok.
    apply Nat.ltb_lt in Hlt. rewrite Hlt. reflexivity.
  - cbn [keys map fst] in *.
    assert (Hm : ascending (keys m) = true).
    { destruct (ascending_cons _ _ Hok) as [_ H]. exact H. }
    specialize (IH Hm).
    destruct m as [|[k2 v2] m]; cbn [assign keys map fst ascending] in *.
    + apply Nat.ltb_lt in Hgt. rewrite Hgt. reflexivity.
    + apply andb_true_iff in Hok as [Hk Hrest].
      destruct (Nat.compare_spec k k2) as [->|Hlt2|Hgt2];
        cbn [keys map fst ascending] in *.
      * rewrite Hk. exact IH.
      * apply Nat.ltb_lt in Hgt. rewrite Hgt. exact IH.
      * rewrite Hk. exact IH.
Qed.

End StdMapFacts.

(** ** Visit counters (uct_statistic.h) *)
Module UctFacts.
Import Uct.

Lemma sum_action_counts_assign (m : UcbStatistics) (a : ActionIdx) (p : UcbPair) :
  sum_action_counts (StdMap.assign a p m)
  = (sum_action_counts m - action_count_ (StdMap.index UcbPair_init a m)
     + action_count_ p)%Z.
Proof.
  unfold StdMap.index.
  induction m as [|[k v] m IH]; cbn [StdMap.assign StdMap.find sum_action_counts fold_right snd].
  - cbn. lia.
  - destruct (Nat.compare a k); cbn [sum_action_counts fold_right snd UcbPair_init action_count_].
    + lia.
    + lia.
    + fold (sum_action_counts (StdMap.assign a p m)). rewrite IH.
      fold (sum_action_counts m). lia.
Qed.

Lemma visits_inv_heuristic (s : UctStatistic) (h : Z) (r : Reward) :
  visits_inv s h ->
  visits_inv (update_from_heuristic_from_backpropagated s r) (1 + h).
Proof.
  unfold visits_inv, update_from_heuristic_from_backpropagated, Unsigned.incr,
    Unsigned.wrap; cbn [total_node_visits_ ucb_statistics_].
  intros ->. rewrite Zplus_mod_idemp_l. f_equal; lia.
Qed.

Lemma visits_inv_backprop (s : UctStatistic) (h : Z) (r : Reward) :
  visits_inv s h ->
  visits_inv (update_statistics_from_backpropagated s r) h.
Proof.
  unfold visits_inv, update_statistics_from_backpropagated;
    cbn [total_node_visits_ ucb_statistics_].
  intros ->. rewrite sum_action_counts_assign. cbn [action_count_].
  unfold Unsigned.incr, Unsigned.wrap.
  set (c := action_count_ (StdMap.index UcbPair_init (fst (collected_reward_ s))
                                        (ucb_statistics_ s))).
  set (S0 := sum_action_counts (ucb_statistics_ s)).
  rewrite Zplus_mod_idemp_l.
  replace (S0 - c + (c + 1) mod Unsigned.modulus + h)%Z
    with ((c + 1) mod Unsigned.modulus + (S0 - c + h))%Z by ring.
  rewrite Zplus_mod_idemp_l. f_equal; lia.
Qed.

Lemma visits_inv_set_collected (s : UctStatistic) (h : Z) (c : ActionIdx * Reward) :
  visits_inv s h -> visits_inv (set_collected_reward s c) h.
Proof. exact (fun H => H). Qed.

End UctFacts.

Module BackpropFacts.
Import Uct Ccs UctFacts.

Lemma run_updates_visits (us : list BackpropUpdate) (s : CostConstrainedStatistic)
    (hr hc : Z) :
  visits_inv (reward_statistic_ s) hr ->
  visits_inv (cost_statistic_ s) hc ->
  visits_inv (reward_statistic_ (run_updates s us)) (heuristic_inits us + hr) /\
  visits_inv (cost_statistic_ (run_updates s us)) (heuristic_inits us + hc).
Proof.
  revert s hr hc. induction us as [|u us IH]; intros s hr hc Hr Hc.
  - cbn. split; assumption.
  - cbn [run_updates fold_left]. fold (run_updates (apply_update s u) us).
    destruct u as [h|r c child]; cbn [heuristic_inits apply_update].
    + replace (1 + heuristic_inits us + hr)%Z with (heuristic_inits us + (1 + hr))%Z by ring.
      replace (1 + heuristic_inits us + hc)%Z with (heuristic_inits us + (1 + hc))%Z by ring.
      apply IH; cbn; apply visits_inv_heuristic; assumption.
    + apply IH; cbn; apply visits_inv_backprop; assumption.
Qed.

(** C2, as the code has it: on a node built by the constructor, after any
    sequence of backpropagation-phase updates, the visit counter of the
    reward statistic equals the sum of the counters of the expanded actions
    plus the number of heuristic initialisations the node received (modulo
    [2^32], the counters being [unsigned]); likewise for the cost
    statistic. *)
Theorem visits_are_counts_plus_heuristic_inits
    (num_actions : nat) (p : MctsParameters) (us : list BackpropUpdate) :
  let s := run_updates (Ccs.init num_actions p) us in
  total_node_visits_ (reward_statistic_ s)
  = ((sum_action_counts (ucb_statistics_ (reward_statistic_ s)) + heuristic_inits us)
       mod Unsigned.modulus)%Z
  /\
  total_node_visits_ (cost_statistic_ s)
  = ((sum_action_counts (ucb_statistics_ (cost_statistic_ s)) + heuristic_inits us)
       mod Unsigned.modulus)%Z.
Proof.
  cbv zeta.
  destruct (run_updates_visits us (Ccs.init num_actions p) 0 0) as [Hr Hc].
  - reflexivity.
  - reflexivity.
  - unfold visits_inv in Hr, Hc. rewrite Z.add_0_r in Hr, Hc. split; assumption.
Qed.

End BackpropFacts.

(** ** [UctStatistic::get_best_action] *)
Module BestActionFacts.
Import Uct StdMapFacts.

Lemma ascending_app (l1 l2 : list ActionIdx) (k : ActionIdx) :
  StdMap.ascending (l1 ++ k :: l2) = true -> Forall (fun k' => (k < k')%nat) l2.
Proof.
  induction l1 as [|k1 l1 IH]; cbn [app]; intros H.
  - apply ascending_cons in H. tauto.
  - apply ascending_cons in H. apply IH. tauto.
Qed.

Lemma best_step_lt (t0 : Q) (b0 k : ActionIdx) (p : UcbPair) :
  t0 < action_value_ p -> best_step (t0, b0) (k, p) = (action_value_ p, k).
Proof.
  intros H. unfold best_step. cbn [fst snd].
  destruct (Qlt_le_dec t0 (action_value_ p)); [reflexivity | exfalso; lra].
Qed.

Lemma best_step_ge (t0 : Q) (b0 k : ActionIdx) (p : UcbPair) :
  action_value_ p <= t0 -> best_step (t0, b0) (k, p) = (t0, b0).
Proof.
  intros H. unfold best_step. cbn [fst snd].
  destruct (Qlt_le_dec t0 (action_value_ p)); [exfalso; lra | reflexivity].
Qed.

(** What the loop of [get_best_action] leaves in [(temp, best)]: either the
    start value, which no entry exceeds, or the first entry that exceeds
    everything before it and that nothing after it exceeds. *)
Lemma best_fold (l : list (ActionIdx * UcbPair)) (t0 : Q) (b0 : ActionIdx) :
  (fold_left best_step l (t0, b0) = (t0, b0) /\
   Forall (fun it => action_value_ (snd it) <= t0) l)
  \/
  (exists l1 k p l2,
      l = l1 ++ (k, p) :: l2 /\
      fold_left best_step l (t0, b0) = (action_value_ p, k) /\
      t0 < action_value_ p /\
      Forall (fun it => action_value_ (snd it) < action_value_ p) l1 /\
      Forall (fun it => action_value_ (snd it) <= action_value_ p) l2).
Proof.
  revert t0 b0. induction l as [|[k p] l IH]; intros t0 b0.
  - left. split; [reflexivity | constructor].
  - cbn [fold_left].
    destruct (Qlt_le_dec t0 (action_value_ p)) as [Hlt|Hle].
    + rewrite (best_step_lt _ b0 k _ Hlt).
      right. destruct (IH (action_value_ p) k) as [[Heq Hall]|(l1 & k' & p' & l2 & -> & Heq & Hlt' & H1 & H2)].
      * exists [], k, p, l.
        split; [reflexivity|]. split; [exact Heq|]. split; [exact Hlt|].
        split; [constructor | exact Hall].
      * exists ((k, p) :: l1), k', p', l2.
        split; [reflexivity|]. split; [exact Heq|]. split; [lra|].
        split; [constructor; [exact Hlt' | exact H1] | exact H2].
    + rewrite (best_step_ge _ b0 k _ Hle).
      destruct (IH t0 b0) as [[Heq Hall]|(l1 & k' & p' & l2 & -> & Heq & Hlt' & H1 & H2)].
      * left. split; [exact Heq|]. constructor; [exact Hle | exact Hall].
      * right. exists ((k, p) :: l1), k', p', l2.
        split; [reflexivity|]. split; [exact Heq|]. split; [exact Hlt'|].
        split; [constructor; [cbn; lra | exact H1] | exact H2].
Qed.

(** C9: [get_best_action] has no result on a statistic without expanded
    action (it would dereference [begin()] of an empty map); with at least
    one expanded action it returns an expanded action whose stored value no
    other expanded action exceeds, and the lowest index among those of that
    value. *)
Theorem get_best_action_first_maximum (s : UctStatistic) :
  (ucb_statistics_ s = [] -> get_best_action s = None) /\
  (ucb_statistics_ s <> [] ->
   StdMap.ok (ucb_statistics_ s) = true ->
   exists best pb,
     get_best_action s = Some best /\
     StdMap.find best (ucb_statistics_ s) = Some pb /\
     forall k p,
       StdMap.find k (ucb_statistics_ s) = Some p ->
       action_value_ p <= action_value_ pb /\
       (action_value_ p == action_value_ pb -> (best <= k)%nat)).
Proof.
  unfold get_best_action. split.
  - intros ->. reflexivity.
  - intros Hne Hok. destruct (ucb_statistics_ s) as [|[k0 p0] rest] eqn:Em; [congruence|].
    clear Hne. cbn [fold_left].
    rewrite (best_step_ge (action_value_ p0) k0 k0 p0) by lra.
    destruct (ok_cons _ _ _ Hok) as [Hmin Hok'].
    destruct (best_fold rest (action_value_ p0) k0)
      as [[Heq Hall]|(l1 & k & p & l2 & Hrest & Heq & Hlt & H1 & H2)].
    + exists k0, p0. rewrite Heq. cbn [snd]. split; [reflexivity|].
      split; [apply find_In; [assumption | left; reflexivity]|].
      intros k p Hf. apply find_In in Hf; [|assumption].
      destruct Hf as [[= <- <-]|Hin].
      * split; [lra | intros; lia].
      * rewrite Forall_forall in Hall. specialize (Hall _ Hin). cbn in Hall.
        split; [exact Hall|]. intros _.
        rewrite Forall_forall in Hmin.
        apply (in_map fst) in Hin. specialize (Hmin _ Hin). cbn in Hmin. lia.
    + exists k, p. rewrite Heq. cbn [snd]. split; [reflexivity|].
      split.
      { apply find_In; [assumption|]. right. rewrite Hrest.
        apply in_or_app. right. left. reflexivity. }
      intros k' p' Hf. apply find_In in Hf; [|assumption].
      destruct Hf as [[= <- <-]|Hin].
      * split; [lra | intros; lra].
      * rewrite Hrest in Hin. apply in_app_or in Hin as [Hin|[[= <- <-]|Hin]].
        -- rewrite Forall_forall in H1. specialize (H1 _ Hin). cbn in H1.
           split; [lra | intros; lra].
        -- split; [lra | intros; lia].
        -- rewrite Forall_forall in H2. specialize (H2 _ Hin). cbn in H2.
           split; [exact H2|]. intros _.
           unfold StdMap.ok in Hok'. rewrite Hrest in Hok'.
           unfold StdMap.keys in Hok'. rewrite map_app in Hok'. cbn [map fst] in Hok'.
           apply ascending_app in Hok'. rewrite Forall_forall in Hok'.
           apply (in_map fst) in Hin. specialize (Hok' _ Hin). cbn in Hok'. lia.
Qed.

End BestActionFacts.

(** ** The crossing-state test domain *)
Module CrossingFacts.
Import Crossing.

Lemma sub_nonneg (x y : Z) : (0 <= Unsigned.sub x y)%Z.
Proof.
  unfold Unsigned.sub, Unsigned.wrap, Unsigned.modulus.
  apply Z.mod_pos_bound. reflexivity.
Qed.

Lemma calculate_action_cases (ego_distance desired_gap_dst : Z) :
  (Unsigned.sub ego_distance desired_gap_dst <> 0%Z ->
   calculate_action ego_distance desired_gap_dst = FORWARD) /\
  (Unsigned.sub ego_distance desired_gap_dst = 0%Z ->
   calculate_action ego_distance desired_gap_dst = WAIT).
Proof.
  unfold calculate_action. pose proof (sub_nonneg ego_distance desired_gap_dst) as H.
  split; intros Hd.
  - destruct (Z.ltb_spec 0 (Unsigned.sub ego_distance desired_gap_dst)); [reflexivity | lia].
  - rewrite Hd. reflexivity.
Qed.

Lemma calculate_action_not_backward (ego_distance desired_gap_dst : Z) :
  calculate_action ego_distance desired_gap_dst <> BACKWARD.
Proof.
  destruct (calculate_action_cases ego_distance desired_gap_dst) as [Hf Hw].
  destruct (Z.eq_dec (Unsigned.sub ego_distance desired_gap_dst) 0) as [E|E].
  - rewrite (Hw E). discriminate.
  - rewrite (Hf E). discriminate.
Qed.

Lemma action_selected_backward (p : AgentPolicyCrossingState) (ego_distance : Z) :
  action_selected p ego_distance BACKWARD = 0%Z.
Proof.
  unfold action_selected. generalize (gap_distances p) as l.
  induction l as [|gap l IH]; [reflexivity|].
  cbn [fold_left].
  destruct (Z.eqb_spec (calculate_action ego_distance gap) BACKWARD) as [E|_].
  - exfalso. exact (calculate_action_not_backward _ _ E).
  - exact IH.
Qed.

(** C10, as the code has it: [calculate_action] never returns [BACKWARD];
    it returns [FORWARD] whenever the unsigned difference is not zero, that
    is, whenever the two distances differ modulo [2^32]; [get_probability]
    counts no gap for [BACKWARD], and returns [0] for it on every range that
    holds at least one gap; on a range of length [0] modulo [2^32] the
    quotient is [0/0]. *)
Theorem backward_is_never_chosen (p : AgentPolicyCrossingState) (ego_distance : Z) :
  (forall desired_gap_dst,
      calculate_action ego_distance desired_gap_dst <> BACKWARD /\
      (Unsigned.wrap ego_distance <> Unsigned.wrap desired_gap_dst ->
       calculate_action ego_distance desired_gap_dst = FORWARD)) /\
  action_selected p ego_distance BACKWARD = 0%Z /\
  (gap_distances p <> [] ->
   exists q, get_probability p ego_distance BACKWARD = Fin q /\ q == 0) /\
  (gap_distances p = [] -> get_probability p ego_distance BACKWARD = NaN).
Proof.
  split; [|split; [|split]].
  - intros gap. split; [apply calculate_action_not_backward|].
    intros Hne. apply calculate_action_cases.
    unfold Unsigned.sub, Unsigned.wrap in *. intros H0. apply Hne.
    replace ego_distance with ((ego_distance - gap) + gap)%Z at 1 by ring.
    rewrite <- Zplus_mod_idemp_l, H0. reflexivity.
  - apply action_selected_backward.
  - intros Hne. unfold get_probability. rewrite action_selected_backward.
    unfold X.div_fin.
    destruct (Qeq_bool (inject_Z (Z.of_nat (length (gap_distances p)))) 0) eqn:E.
    + exfalso. apply Qeq_bool_eq in E. unfold Qeq, inject_Z in E. cbn in E.
      destruct (gap_distances p); [congruence | cbn in E; lia].
    + eexists. split; [reflexivity|]. unfold Qdiv. ring.
  - intros He. unfold get_probability. rewrite action_selected_backward, He.
    reflexivity.
Qed.

End CrossingFacts.

(** ** The LP step ([solve_LP_and_sample]) *)
Module LpFacts.
Import Uct Ccs StdMapFacts.

Local Open Scope Q_scope.

(** *** The policy map *)

Lemma assign_append {V} (m : StdMap.t V) (k : ActionIdx) (v : V) :
  Forall (fun k' => (k' < k)%nat) (StdMap.keys m) ->
  StdMap.assign k v m = m ++ [(k, v)].
Proof.
  induction m as [|[k1 v1] m IH]; cbn [StdMap.assign StdMap.keys map fst app].
  - reflexivity.
  - intros H. inversion H as [|? ? Hk Hm]; subst.
    destruct (Nat.compare_spec k k1); [lia | lia |].
    f_equal. apply IH, Hm.
Qed.

Lemma ascending_app_before (l1 l2 : list ActionIdx) (k : ActionIdx) :
  StdMap.ascending (l1 ++ k :: l2) = true -> Forall (fun k' => (k' < k)%nat) l1.
Proof.
  induction l1 as [|k1 l1 IH]; cbn [app]; intros H; [constructor|].
  apply ascending_cons in H as [Hall Hasc]. constructor.
  - rewrite Forall_forall in Hall. apply Hall.
    apply in_or_app. right. left. reflexivity.
  - apply IH, Hasc.
Qed.

Lemma zero_policy_fold (cs : UcbStatistics) (acc : Policy) :
  StdMap.ascending (StdMap.keys acc ++ StdMap.keys cs) = true ->
  fold_left (fun policy action => StdMap.assign (fst action) 0 policy) cs acc
  = acc ++ map zero_entry cs.
Proof.
  revert acc. induction cs as [|[k p] cs IH]; intros acc Hasc; cbn [fold_left map].
  - rewrite app_nil_r. reflexivity.
  - cbn [fst]. rewrite assign_append.
    + rewrite IH.
      * rewrite <- app_assoc. reflexivity.
      * unfold StdMap.keys in *. rewrite map_app, <- app_assoc. exact Hasc.
    + eapply ascending_app_before. exact Hasc.
Qed.

Lemma zero_policy_map (cs : UcbStatistics) :
  StdMap.ok cs = true -> zero_policy cs = map zero_entry cs.
Proof.
  intros Hok. unfold zero_policy. rewrite zero_policy_fold; [reflexivity|].
  exact Hok.
Qed.

Lemma zero_policy_keys (cs : UcbStatistics) :
  StdMap.ok cs = true -> StdMap.keys (zero_policy cs) = StdMap.keys cs.
Proof.
  intros Hok. rewrite zero_policy_map by assumption.
  unfold StdMap.keys. rewrite map_map. reflexivity.
Qed.

Lemma zero_policy_ok (cs : UcbStatistics) :
  StdMap.ok cs = true -> StdMap.ok (zero_policy cs) = true.
Proof.
  intros Hok. unfold StdMap.ok. rewrite zero_policy_keys by assumption. exact Hok.
Qed.

Lemma zero_policy_find (cs : UcbStatistics) (k : ActionIdx) :
  StdMap.ok cs = true -> In k (StdMap.keys cs) ->
  StdMap.find k (zero_policy cs) = Some 0.
Proof.
  intros Hok Hin. apply find_In; [apply zero_policy_ok, Hok|].
  rewrite zero_policy_map by assumption.
  apply in_map_iff in Hin as [[k' p] [<- Hin]].
  apply in_map_iff. exists (k', p). split; [reflexivity | exact Hin].
Qed.

Lemma policy_sum_zero (cs : UcbStatistics) :
  StdMap.ok cs = true -> policy_sum (zero_policy cs) == 0.
Proof.
  intros Hok. rewrite zero_policy_map by assumption. clear Hok.
  induction cs as [|[k p] cs IH]; cbn [map policy_sum fold_right zero_entry fst snd].
  - reflexivity.
  - fold (policy_sum (map zero_entry cs)). rewrite IH. reflexivity.
Qed.

Lemma policy_sum_assign (m : Policy) (k : ActionIdx) (v : Q) :
  policy_sum (StdMap.assign k v m)
  == policy_sum m - StdMap.index 0 k m + v.
Proof.
  unfold StdMap.index.
  induction m as [|[k1 v1] m IH];
    cbn [StdMap.assign StdMap.find policy_sum fold_right snd].
  - ring.
  - destruct (Nat.compare k k1); cbn [policy_sum fold_right snd].
    + fold (policy_sum m). ring.
    + fold (policy_sum m). ring.
    + fold (policy_sum (StdMap.assign k v m)). fold (policy_sum m).
      rewrite IH. ring.
Qed.

(** *** The search for the extreme actions *)

Lemma extreme_step_inv (cs : UcbStatistics) (seen : list ActionIdx)
    (mm : ActionIdx * ActionIdx) (f : ActionIdx) (pf : UcbPair) :
  extreme_inv cs seen mm ->
  StdMap.find f cs = Some pf ->
  exists mm', extreme_step cs (Some mm) f = Some mm' /\
              extreme_inv cs (seen ++ [f]) mm'.
Proof.
  intros (Hmx & Hmn & pmax & pmin & Hfmx & Hfmn & Hbound & Hstrict) Hf.
  assert (Hle : action_value_ pmin <= action_value_ pmax).
  { destruct (Hbound _ _ Hmx Hfmx). assumption. }
  unfold extreme_step. cbn [bind]. rewrite Hf, Hfmx. cbn [bind].
  destruct (Qlt_le_dec (action_value_ pmax) (action_value_ pf)) as [Hgt|Hngt].
  - eexists. split; [reflexivity|]. cbn [fst snd].
    split; [apply in_or_app; right; left; reflexivity|].
    split; [apply in_or_app; left; assumption|].
    exists pf, pmin. repeat split; try assumption.
    + destruct (in_app_or _ _ _ H) as [Hin|[<-|[]]].
      * destruct (Hbound _ _ Hin H0). assumption.
      * rewrite Hf in H0. injection H0 as <-. lra.
    + destruct (in_app_or _ _ _ H) as [Hin|[<-|[]]].
      * destruct (Hbound _ _ Hin H0). lra.
      * rewrite Hf in H0. injection H0 as <-. lra.
    + lra.
  - rewrite Hfmn. cbn [bind].
    destruct (Qlt_le_dec (action_value_ pf) (action_value_ pmin)) as [Hlt|Hnlt].
    + eexists. split; [reflexivity|]. cbn [fst snd].
      split; [apply in_or_app; left; assumption|].
      split; [apply in_or_app; right; left; reflexivity|].
      exists pmax, pf. repeat split; try assumption.
      * destruct (in_app_or _ _ _ H) as [Hin|[<-|[]]].
        -- destruct (Hbound _ _ Hin H0). lra.
        -- rewrite Hf in H0. injection H0 as <-. lra.
      * destruct (in_app_or _ _ _ H) as [Hin|[<-|[]]].
        -- destruct (Hbound _ _ Hin H0). assumption.
        -- rewrite Hf in H0. injection H0 as <-. lra.
      * lra.
    + eexists. split; [reflexivity|].
      split; [apply in_or_app; left; assumption|].
      split; [apply in_or_app; left; assumption|].
      exists pmax, pmin. repeat split; try assumption.
      * destruct (in_app_or _ _ _ H) as [Hin|[<-|[]]].
        -- destruct (Hbound _ _ Hin H0). assumption.
        -- rewrite Hf in H0. injection H0 as <-. lra.
      * destruct (in_app_or _ _ _ H) as [Hin|[<-|[]]].
        -- destruct (Hbound _ _ Hin H0). assumption.
        -- rewrite Hf in H0. injection H0 as <-. lra.
Qed.

Lemma extreme_fold_inv (cs : UcbStatistics) (l seen : list ActionIdx)
    (mm : ActionIdx * ActionIdx) :
  extreme_inv cs seen mm ->
  Forall (fun f => exists pf, StdMap.find f cs = Some pf) l ->
  exists mm', fold_left (extreme_step cs) l (Some mm) = Some mm' /\
              extreme_inv cs (seen ++ l) mm'.
Proof.
  revert seen mm. induction l as [|f l IH]; intros seen mm Hinv Hall.
  - exists mm. rewrite app_nil_r. split; [reflexivity | exact Hinv].
  - inversion Hall as [|? ? [pf Hf] Hall']; subst.
    destruct (extreme_step_inv cs seen mm f pf Hinv Hf) as (mm1 & Hstep & Hinv1).
    destruct (IH _ _ Hinv1 Hall') as (mm' & Hfold & Hinv').
    exists mm'. cbn [fold_left]. rewrite Hstep. split; [exact Hfold|].
    rewrite <- app_assoc in Hinv'. exact Hinv'.
Qed.

(** [extreme_actions] finds a most and a least expensive feasible action. *)
Lemma extreme_actions_spec (cs : UcbStatistics) (feasible : list ActionIdx) :
  feasible <> [] ->
  Forall (fun f => exists pf, StdMap.find f cs = Some pf) feasible ->
  exists a_max a_min pmax pmin,
    extreme_actions cs feasible = Some (a_max, a_min) /\
    In a_max feasible /\ In a_min feasible /\
    StdMap.find a_max cs = Some pmax /\
    StdMap.find a_min cs = Some pmin /\
    (forall f pf, In f feasible -> StdMap.find f cs = Some pf ->
                  action_value_ pmin <= action_value_ pf <= action_value_ pmax) /\
    (a_max <> a_min -> action_value_ pmin < action_value_ pmax).
Proof.
  intros Hne Hall. destruct feasible as [|f0 rest]; [congruence|]. clear Hne.
  inversion Hall as [|? ? [p0 Hf0] _]; subst.
  assert (Hinv0 : extreme_inv cs [f0] (f0, f0)).
  { split; [left; reflexivity|]. split; [left; reflexivity|].
    exists p0, p0. cbn [fst snd]. repeat split; try assumption.
    - destruct H as [<-|[]]. rewrite Hf0 in H0. injection H0 as <-. lra.
    - destruct H as [<-|[]]. rewrite Hf0 in H0. injection H0 as <-. lra.
    - congruence. }
  destruct (extreme_fold_inv cs (f0 :: rest) [f0] (f0, f0) Hinv0 Hall)
    as ([a_max a_min] & Hfold & Hmx & Hmn & pmax & pmin & Hfmx & Hfmn & Hb & Hs).
  cbn [fst snd] in *.
  assert (Hsub : forall x, In x ([f0] ++ f0 :: rest) -> In x (f0 :: rest)).
  { intros x [<-|Hx]; [left; reflexivity | exact Hx]. }
  exists a_max, a_min, pmax, pmin. unfold extreme_actions.
  repeat split; auto.
  - apply (Hb f pf); [|assumption]. right. assumption.
  - apply (Hb f pf); [|assumption]. right. assumption.
Qed.

(** *** The policies the LP step builds *)

Lemma point_policy (cs : UcbStatistics) (a : ActionIdx) (pa : UcbPair) :
  StdMap.ok cs = true ->
  StdMap.find a cs = Some pa ->
  let policy := StdMap.assign a 1 (zero_policy cs) in
  StdMap.keys policy = StdMap.keys cs /\
  StdMap.find a policy = Some 1 /\
  (forall k, In k (StdMap.keys cs) -> k <> a -> StdMap.find k policy = Some 0) /\
  policy_sum policy == 1.
Proof.
  intros Hok Hfa policy. subst policy.
  assert (Hin : In a (StdMap.keys cs)) by (apply find_keys; eauto).
  pose proof (zero_policy_find cs a Hok Hin) as Hz.
  split; [|split; [|split]].
  - rewrite (keys_assign_found _ _ _ _ Hz). apply zero_policy_keys, Hok.
  - apply find_assign_eq.
  - intros k Hk Hne. rewrite find_assign_neq by congruence.
    apply zero_policy_find; assumption.
  - rewrite policy_sum_assign, policy_sum_zero by assumption.
    unfold StdMap.index. rewrite Hz. ring.
Qed.

Lemma two_point_policy (cs : UcbStatistics) (a b : ActionIdx) (pa pb : UcbPair)
    (x y : Q) :
  StdMap.ok cs = true ->
  a <> b ->
  StdMap.find a cs = Some pa ->
  StdMap.find b cs = Some pb ->
  let policy := StdMap.assign b y (StdMap.assign a x (zero_policy cs)) in
  StdMap.keys policy = StdMap.keys cs /\
  StdMap.find a policy = Some x /\
  StdMap.find b policy = Some y /\
  (forall k, In k (StdMap.keys cs) -> k <> a -> k <> b ->
             StdMap.find k policy = Some 0) /\
  policy_sum policy == x + y.
Proof.
  intros Hok Hne Hfa Hfb policy. subst policy.
  assert (Hina : In a (StdMap.keys cs)) by (apply find_keys; eauto).
  assert (Hinb : In b (StdMap.keys cs)) by (apply find_keys; eauto).
  pose proof (zero_policy_find cs a Hok Hina) as Hza.
  pose proof (zero_policy_find cs b Hok Hinb) as Hzb.
  assert (Hb1 : StdMap.find b (StdMap.assign a x (zero_policy cs)) = Some 0).
  { rewrite find_assign_neq by congruence. exact Hzb. }
  split; [|split; [|split; [|split]]].
  - rewrite (keys_assign_found _ _ _ _ Hb1), (keys_assign_found _ _ _ _ Hza).
    apply zero_policy_keys, Hok.
  - rewrite find_assign_neq by congruence. apply find_assign_eq.
  - apply find_assign_eq.
  - intros k Hk Hka Hkb. rewrite !find_assign_neq by congruence.
    apply zero_policy_find; assumption.
  - rewrite !policy_sum_assign, policy_sum_zero by assumption.
    unfold StdMap.index. rewrite Hb1, Hza. ring.
Qed.

(** [solve_LP_and_sample], case by case, once the extreme actions are known. *)
Lemma solve_LP_and_sample_cases (s : CostConstrainedStatistic)
    (feasible : list ActionIdx) (g : RandomGenerator)
    (a_max a_min : ActionIdx) (pmax pmin : UcbPair) :
  let cs := ucb_statistics_ (cost_statistic_ s) in
  let p := (cost_constraint s - action_value_ pmin)
           / (action_value_ pmax - action_value_ pmin) in
  extreme_actions cs feasible = Some (a_max, a_min) ->
  StdMap.find a_max cs = Some pmax ->
  StdMap.find a_min cs = Some pmin ->
  (a_max = a_min /\
   solve_LP_and_sample s feasible g
   = Some ((a_min, StdMap.assign a_min 1 (zero_policy cs)), g))
  \/
  (a_max <> a_min /\ cost_constraint s <= action_value_ pmin /\
   solve_LP_and_sample s feasible g
   = Some ((a_min, StdMap.assign a_min 1 (zero_policy cs)), g))
  \/
  (a_max <> a_min /\ action_value_ pmin < cost_constraint s /\
   action_value_ pmax <= cost_constraint s /\
   solve_LP_and_sample s feasible g
   = Some ((a_max, StdMap.assign a_max 1 (zero_policy cs)), g))
  \/
  (a_max <> a_min /\ action_value_ pmin < cost_constraint s /\
   cost_constraint s < action_value_ pmax /\
   solve_LP_and_sample s feasible g
   = Some ((if Qle_bool (fst (unif g)) p then a_max else a_min,
            StdMap.assign a_min (1 - p) (StdMap.assign a_max p (zero_policy cs))),
           snd (unif g))).
Proof.
  intros cs p Hext Hfmx Hfmn. unfold solve_LP_and_sample.
  fold cs. rewrite Hext. cbn [bind fst snd].
  destruct (Nat.eqb_spec a_min a_max) as [->|Hne].
  - left. split; reflexivity.
  - right. rewrite Hfmx, Hfmn. cbn [bind].
    destruct (Qle_bool (cost_constraint s) (action_value_ pmin)) eqn:E1.
    + left. apply Qle_bool_iff in E1. split; [congruence|]. split; [exact E1 | reflexivity].
    + right.
      assert (Hlt1 : action_value_ pmin < cost_constraint s).
      { apply Qnot_le_lt. intros H. apply Qle_bool_iff in H. congruence. }
      destruct (Qle_bool (action_value_ pmax) (cost_constraint s)) eqn:E2.
      * left. apply Qle_bool_iff in E2. split; [congruence|].
        split; [exact Hlt1|]. split; [exact E2 | reflexivity].
      * right.
        assert (Hlt2 : cost_constraint s < action_value_ pmax).
        { apply Qnot_le_lt. intros H. apply Qle_bool_iff in H. congruence. }
        split; [congruence|]. split; [exact Hlt1|]. split; [exact Hlt2|].
        unfold unif. cbn [fst snd]. fold p.
        destruct (Qle_bool (g 0%nat) p); reflexivity.
Qed.

Lemma feasible_found (cs : UcbStatistics) (feasible : list ActionIdx) :
  StdMap.ok cs = true ->
  Forall (fun a => In a (StdMap.keys cs)) feasible ->
  Forall (fun f => exists pf, StdMap.find f cs = Some pf) feasible.
Proof.
  intros Hok. apply Forall_impl. intros a Ha. apply find_keys; assumption.
Qed.

Ltac common_part :=
  split; [eassumption|]; split; [assumption|]; split; [assumption|];
  split; [assumption|]; split; [assumption|]; split; [assumption|];
  split; [eassumption|].

(** In the arithmetic of the rationals: on a non-empty list of feasible,
    expanded actions the LP step returns a policy over the expanded actions
    that is zero outside [{a_max, a_min}], the feasible actions of largest
    and smallest estimated cost, sums to one, and follows the three
    cases. *)
Lemma lp_policy_three_cases (s : CostConstrainedStatistic)
    (feasible : list ActionIdx) (g : RandomGenerator) :
  let cs := ucb_statistics_ (cost_statistic_ s) in
  StdMap.ok cs = true ->
  feasible <> [] ->
  Forall (fun a => In a (StdMap.keys cs)) feasible ->
  exists a_max a_min pmax pmin a policy g',
    extreme_actions cs feasible = Some (a_max, a_min) /\
    In a_max feasible /\ In a_min feasible /\
    StdMap.find a_max cs = Some pmax /\
    StdMap.find a_min cs = Some pmin /\
    (forall f pf, In f feasible -> StdMap.find f cs = Some pf ->
                  action_value_ pmin <= action_value_ pf <= action_value_ pmax) /\
    solve_LP_and_sample s feasible g = Some ((a, policy), g') /\
    StdMap.keys policy = StdMap.keys cs /\
    (forall k, In k (StdMap.keys cs) -> k <> a_max -> k <> a_min ->
               StdMap.find k policy = Some 0) /\
    policy_sum policy == 1 /\
    (a_max = a_min -> StdMap.find a_max policy = Some 1) /\
    (cost_constraint s <= action_value_ pmin ->
     StdMap.find a_min policy = Some 1 /\
     (a_max <> a_min -> StdMap.find a_max policy = Some 0)) /\
    (action_value_ pmax <= cost_constraint s ->
     StdMap.find a_max policy = Some 1 /\
     (a_max <> a_min -> StdMap.find a_min policy = Some 0)) /\
    (a_max <> a_min ->
     action_value_ pmin < cost_constraint s < action_value_ pmax ->
     let p := (cost_constraint s - action_value_ pmin)
              / (action_value_ pmax - action_value_ pmin) in
     StdMap.find a_max policy = Some p /\
     StdMap.find a_min policy = Some (1 - p)).
Proof.
  intros cs Hok Hne Hall.
  pose proof (feasible_found cs feasible Hok Hall) as Hfound.
  destruct (extreme_actions_spec cs feasible Hne Hfound)
    as (a_max & a_min & pmax & pmin & Hext & Hinmx & Hinmn & Hfmx & Hfmn & Hb & Hs).
  assert (Hkmx : In a_max (StdMap.keys cs)) by (apply find_keys; eauto).
  assert (Hkmn : In a_min (StdMap.keys cs)) by (apply find_keys; eauto).
  exists a_max, a_min, pmax, pmin.
  destruct (solve_LP_and_sample_cases s feasible g a_max a_min pmax pmin
              Hext Hfmx Hfmn)
    as [[Heq Hsol]|[(Hneq & Hc & Hsol)|[(Hneq & Hc1 & Hc2 & Hsol)|(Hneq & Hc1 & Hc2 & Hsol)]]];
    fold cs in Hsol.
  - (* a_max = a_min *)
    subst a_max.
    destruct (point_policy cs a_min pmin Hok Hfmn) as (Hk & Hf1 & Hf0 & Hsum).
    do 3 eexists. common_part.
    split; [exact Hk|]. split; [intros; apply Hf0; assumption|].
    split; [exact Hsum|]. split; [intros; exact Hf1|].
    split; [intros; split; [exact Hf1 | congruence]|].
    split; [intros; split; [exact Hf1 | congruence]|].
    congruence.
  - (* the constraint is below every feasible cost *)
    destruct (point_policy cs a_min pmin Hok Hfmn) as (Hk & Hf1 & Hf0 & Hsum).
    pose proof (Hs Hneq) as Hlt.
    do 3 eexists. common_part.
    split; [exact Hk|]. split; [intros; apply Hf0; assumption|].
    split; [exact Hsum|]. split; [congruence|].
    split; [intros; split; [exact Hf1 | intros; apply Hf0; assumption]|].
    split; [intros; exfalso; lra|].
    intros _ [? ?]; exfalso; lra.
  - (* the constraint is above every feasible cost *)
    destruct (point_policy cs a_max pmax Hok Hfmx) as (Hk & Hf1 & Hf0 & Hsum).
    do 3 eexists. common_part.
    split; [exact Hk|]. split; [intros; apply Hf0; assumption|].
    split; [exact Hsum|]. split; [congruence|].
    split; [intros; exfalso; lra|].
    split; [intros; split; [exact Hf1 | intros; apply Hf0; congruence]|].
    intros _ [? ?]; exfalso; lra.
  - (* the constraint lies strictly between *)
    set (p := (cost_constraint s - action_value_ pmin)
              / (action_value_ pmax - action_value_ pmin)) in *.
    destruct (two_point_policy cs a_max a_min pmax pmin p (1 - p) Hok Hneq Hfmx Hfmn)
      as (Hk & Hfa & Hfb & Hf0 & Hsum).
    do 3 eexists. common_part.
    split; [exact Hk|]. split; [intros; apply Hf0; assumption|].
    split; [rewrite Hsum; ring|]. split; [congruence|].
    split; [intros; exfalso; lra|].
    split; [intros; exfalso; lra|].
    intros _ _. split; assumption.
Qed.

End LpFacts.

(** ** The expected cost of a policy *)
Module ExpectedCostFacts.
Import Uct Ccs StdMapFacts LpFacts.

Local Open Scope Q_scope.

Lemma expected_fold (cs : UcbStatistics) (policy : Policy) (g : ActionIdx -> Q)
    (acc : Q) :
  (forall k, In k (StdMap.keys cs) -> StdMap.find k policy = Some (g k)) ->
  exists e,
    fold_left
      (fun acc cost_stat =>
         do expected_cost <- acc;
         do pr <- StdMap.find (fst cost_stat) policy;
         Some (expected_cost + pr * action_value_ (snd cost_stat)))
      cs (Some acc) = Some e /\
    e == acc + weighted_cost g cs.
Proof.
  revert acc. induction cs as [|[k p] cs IH]; intros acc Hg.
  - exists acc. split; [reflexivity|]. cbn. ring.
  - cbn [fold_left bind fst snd]. rewrite (Hg k) by (left; reflexivity).
    cbn [bind].
    destruct (IH (acc + g k * action_value_ p)) as (e & He & Heq).
    { intros k' Hk'. apply Hg. right. exact Hk'. }
    exists e. split; [exact He|]. rewrite Heq.
    cbn [weighted_cost fold_right fst snd]. fold (weighted_cost g cs). ring.
Qed.

Lemma weighted_cost_ext (g g' : ActionIdx -> Q) (cs : UcbStatistics) :
  (forall k, In k (StdMap.keys cs) -> g k == g' k) ->
  weighted_cost g cs == weighted_cost g' cs.
Proof.
  induction cs as [|[k p] cs IH]; intros H; cbn [weighted_cost fold_right fst snd].
  - reflexivity.
  - fold (weighted_cost g cs). fold (weighted_cost g' cs).
    rewrite IH by (intros; apply H; right; assumption).
    rewrite (H k) by (left; reflexivity). reflexivity.
Qed.

Lemma weighted_cost_plus (g g' : ActionIdx -> Q) (cs : UcbStatistics) :
  weighted_cost (fun k => g k + g' k) cs == weighted_cost g cs + weighted_cost g' cs.
Proof.
  induction cs as [|[k p] cs IH]; cbn [weighted_cost fold_right fst snd].
  - ring.
  - fold (weighted_cost (fun k => g k + g' k) cs).
    fold (weighted_cost g cs). fold (weighted_cost g' cs). rewrite IH. ring.
Qed.

Lemma weighted_cost_absent (a : ActionIdx) (x : Q) (cs : UcbStatistics) :
  ~ In a (StdMap.keys cs) -> weighted_cost (point_mass a x) cs == 0.
Proof.
  induction cs as [|[k p] cs IH]; intros Hnin; cbn [weighted_cost fold_right fst snd].
  - reflexivity.
  - fold (weighted_cost (point_mass a x) cs).
    rewrite IH by (intros H; apply Hnin; right; exact H).
    unfold point_mass. destruct (Nat.eqb_spec k a) as [->|_].
    + exfalso. apply Hnin. left. reflexivity.
    + ring.
Qed.

Lemma weighted_cost_point (a : ActionIdx) (x : Q) (cs : UcbStatistics) (pa : UcbPair) :
  StdMap.ok cs = true ->
  StdMap.find a cs = Some pa ->
  weighted_cost (point_mass a x) cs == x * action_value_ pa.
Proof.
  induction cs as [|[k p] cs IH]; intros Hok Hf; [discriminate|].
  destruct (ok_cons _ _ _ Hok) as [Hall Hok'].
  cbn [weighted_cost fold_right fst snd]. fold (weighted_cost (point_mass a x) cs).
  cbn [StdMap.find] in Hf. unfold point_mass at 1.
  destruct (Nat.compare_spec a k) as [->|Hlt|Hgt].
  - injection Hf as ->. rewrite Nat.eqb_refl.
    rewrite weighted_cost_absent; [ring|].
    intros Hin. rewrite Forall_forall in Hall. apply Hall in Hin. lia.
  - discriminate.
  - destruct (Nat.eqb_spec k a); [lia|]. rewrite (IH Hok' Hf). ring.
Qed.

(** In the arithmetic of the rationals: when the smallest and the largest
    cost value of the feasible actions bracket the constraint, the policy
    of the LP step has the expected cost [cost_constraint]; for two
    different extreme actions that is
    [p * cost[a_max] + (1 - p) * cost[a_min]]. *)
Lemma lp_expected_cost_in_exact_arithmetic (s : CostConstrainedStatistic)
    (feasible : list ActionIdx) (g : RandomGenerator)
    (a_max a_min : ActionIdx) (pmax pmin : UcbPair) :
  let cs := ucb_statistics_ (cost_statistic_ s) in
  let p := (cost_constraint s - action_value_ pmin)
           / (action_value_ pmax - action_value_ pmin) in
  StdMap.ok cs = true ->
  feasible <> [] ->
  Forall (fun a => In a (StdMap.keys cs)) feasible ->
  extreme_actions cs feasible = Some (a_max, a_min) ->
  StdMap.find a_max cs = Some pmax ->
  StdMap.find a_min cs = Some pmin ->
  action_value_ pmin <= cost_constraint s <= action_value_ pmax ->
  exists a policy g' e,
    solve_LP_and_sample s feasible g = Some ((a, policy), g') /\
    expected_policy_cost s policy = Some e /\
    e == cost_constraint s /\
    (a_max <> a_min ->
     p * action_value_ pmax + (1 - p) * action_value_ pmin == cost_constraint s).
Proof.
  intros cs p Hok Hne Hall Hext Hfmx Hfmn [Hlo Hhi].
  pose proof (feasible_found cs feasible Hok Hall) as Hfound.
  destruct (extreme_actions_spec cs feasible Hne Hfound)
    as (a_max' & a_min' & pmax' & pmin' & Hext' & _ & _ & Hfmx' & Hfmn' & _ & Hs).
  rewrite Hext in Hext'. injection Hext' as <- <-.
  rewrite Hfmx in Hfmx'. injection Hfmx' as <-.
  rewrite Hfmn in Hfmn'. injection Hfmn' as <-.
  assert (Hformula : a_max <> a_min ->
            p * action_value_ pmax + (1 - p) * action_value_ pmin == cost_constraint s).
  { intros Hneq. specialize (Hs Hneq). unfold p. field. lra. }
  unfold expected_policy_cost. fold cs.
  destruct (solve_LP_and_sample_cases s feasible g a_max a_min pmax pmin
              Hext Hfmx Hfmn)
    as [[Heq Hsol]|[(Hneq & Hc & Hsol)|[(Hneq & Hc1 & Hc2 & Hsol)|(Hneq & Hc1 & Hc2 & Hsol)]]];
    fold cs in Hsol.
  - subst a_max. rewrite Hfmx in Hfmn. injection Hfmn as <-.
    destruct (point_policy cs a_min pmax Hok Hfmx) as (_ & Hf1 & Hf0 & _).
    destruct (expected_fold cs (StdMap.assign a_min 1 (zero_policy cs))
                (point_mass a_min 1) 0) as (e & He & Heq).
    { intros k Hk. unfold point_mass. destruct (Nat.eqb_spec k a_min) as [->|Hn].
      - exact Hf1.
      - apply Hf0; assumption. }
    do 3 eexists. exists e. split; [exact Hsol|]. split; [exact He|].
    split; [|exact Hformula].
    rewrite Heq, (weighted_cost_point a_min 1 cs pmax Hok Hfmx). lra.
  - destruct (point_policy cs a_min pmin Hok Hfmn) as (_ & Hf1 & Hf0 & _).
    destruct (expected_fold cs (StdMap.assign a_min 1 (zero_policy cs))
                (point_mass a_min 1) 0) as (e & He & Heq).
    { intros k Hk. unfold point_mass. destruct (Nat.eqb_spec k a_min) as [->|Hn].
      - exact Hf1.
      - apply Hf0; assumption. }
    do 3 eexists. exists e. split; [exact Hsol|]. split; [exact He|].
    split; [|exact Hformula].
    rewrite Heq, (weighted_cost_point a_min 1 cs pmin Hok Hfmn). lra.
  - destruct (point_policy cs a_max pmax Hok Hfmx) as (_ & Hf1 & Hf0 & _).
    destruct (expected_fold cs (StdMap.assign a_max 1 (zero_policy cs))
                (point_mass a_max 1) 0) as (e & He & Heq).
    { intros k Hk. unfold point_mass. destruct (Nat.eqb_spec k a_max) as [->|Hn].
      - exact Hf1.
      - apply Hf0; assumption. }
    do 3 eexists. exists e. split; [exact Hsol|]. split; [exact He|].
    split; [|exact Hformula].
    rewrite Heq, (weighted_cost_point a_max 1 cs pmax Hok Hfmx). lra.
  - fold p in Hsol.
    destruct (two_point_policy cs a_max a_min pmax pmin p (1 - p) Hok Hneq Hfmx Hfmn)
      as (_ & Hfa & Hfb & Hf0 & _).
    destruct (expected_fold cs
                (StdMap.assign a_min (1 - p) (StdMap.assign a_max p (zero_policy cs)))
                (fun k => if (k =? a_min)%nat then 1 - p else point_mass a_max p k) 0)
      as (e & He & Heq).
    { intros k Hk. unfold point_mass.
      destruct (Nat.eqb_spec k a_min) as [E2|Hn2]; [subst k; exact Hfb|].
      destruct (Nat.eqb_spec k a_max) as [E1|Hn1]; [subst k; exact Hfa|].
      apply Hf0; assumption. }
    do 3 eexists. exists e. split; [exact Hsol|]. split; [exact He|].
    split; [|exact Hformula].
    rewrite Heq.
    rewrite (weighted_cost_ext _
               (fun k => point_mass a_max p k + point_mass a_min (1 - p) k)).
    + rewrite weighted_cost_plus,
        (weighted_cost_point a_max p cs pmax Hok Hfmx),
        (weighted_cost_point a_min (1 - p) cs pmin Hok Hfmn).
      rewrite <- (Hformula Hneq). ring.
    + intros k _. unfold point_mass.
      destruct (Nat.eqb_spec k a_min) as [E2|Hn2];
        destruct (Nat.eqb_spec k a_max) as [E1|Hn1]; try ring.
      congruence.
Qed.

End ExpectedCostFacts.

(** ** The greedy selection ([greedy_policy]) *)
Module GreedyFacts.
Import Uct Ccs StdMapFacts LpFacts.

Local Open Scope Q_scope.

(** *** Loops that may throw *)

Lemma traverse_defined {A B} (f : A -> option B) (l : list A) :
  (forall a, In a l -> exists b, f a = Some b) ->
  exists bs, traverse f l = Some bs.
Proof.
  induction l as [|a l IH]; intros H.
  - exists []. reflexivity.
  - destruct (H a) as [b Hb]; [left; reflexivity|].
    destruct IH as [bs Hbs]; [intros; apply H; right; assumption|].
    exists (b :: bs). cbn [traverse]. rewrite Hb. cbn [bind]. rewrite Hbs. reflexivity.
Qed.

Lemma traverse_combine {A B} (f : A -> option B) (l : list A) (bs : list B) :
  traverse f l = Some bs ->
  (forall a, In a l -> exists b, f a = Some b /\ In (a, b) (combine l bs)) /\
  (forall a b, In (a, b) (combine l bs) -> f a = Some b).
Proof.
  revert bs. induction l as [|a l IH]; intros bs H; cbn [traverse] in H.
  - injection H as <-. split; [intros a [] | intros a b []].
  - destruct (f a) as [b|] eqn:Ea; [|discriminate]. cbn [bind] in H.
    destruct (traverse f l) as [bs'|] eqn:El; [|discriminate]. cbn [bind] in H.
    injection H as <-. destruct (IH bs' eq_refl) as [IH1 IH2]. split.
    + intros a' [<-|Hin].
      * exists b. split; [exact Ea | left; reflexivity].
      * destruct (IH1 a' Hin) as (b' & Hb' & Hin'). exists b'.
        split; [exact Hb' | right; exact Hin'].
    + intros a' b' [[= <- <-]|Hin]; [exact Ea | apply IH2, Hin].
Qed.

Lemma traverse_nth {A B} (f : A -> option B) (l : list A) (bs : list B) :
  traverse f l = Some bs ->
  length bs = length l /\
  forall i a, nth_error l i = Some a ->
              exists b, nth_error bs i = Some b /\ f a = Some b.
Proof.
  revert bs. induction l as [|a l IH]; intros bs H; cbn [traverse] in H.
  - injection H as <-. split; [reflexivity|]. intros [|i] a H; discriminate.
  - destruct (f a) as [b|] eqn:Ea; [|discriminate]. cbn [bind] in H.
    destruct (traverse f l) as [bs'|] eqn:El; [|discriminate]. cbn [bind] in H.
    injection H as <-. destruct (IH bs' eq_refl) as [IHl IHn]. split.
    + cbn [length]. rewrite IHl. reflexivity.
    + intros [|i] a' Hn; cbn [nth_error] in *.
      * injection Hn as <-. exists b. split; [reflexivity | exact Ea].
      * apply IHn, Hn.
Qed.

(** *** Fully expanded statistics *)

Lemma ascending_seq (a n : nat) : StdMap.ascending (seq a n) = true.
Proof.
  revert a. induction n as [|n IH]; intros a; [reflexivity|].
  cbn [seq]. destruct n as [|n]; [reflexivity|].
  specialize (IH (S a)). cbn [seq] in IH |- *. cbn [StdMap.ascending] in IH |- *.
  rewrite IH. replace (a <? S a)%nat with true; [reflexivity|].
  symmetry. apply Nat.ltb_lt. lia.
Qed.

Lemma dense_find {V} (m : StdMap.t V) (n idx : nat) :
  StdMap.keys m = seq 0 n ->
  StdMap.ok m = true /\
  StdMap.size m = n /\
  ((idx < n)%nat -> exists v, StdMap.find idx m = Some v).
Proof.
  intros Hk.
  assert (Hok : StdMap.ok m = true).
  { unfold StdMap.ok. rewrite Hk. apply ascending_seq. }
  split; [exact Hok|]. split.
  - unfold StdMap.size. rewrite <- (length_map fst m).
    unfold StdMap.keys in Hk. rewrite Hk. apply length_seq.
  - intros Hlt. apply find_keys; [exact Hok|]. rewrite Hk. apply in_seq. lia.
Qed.

(** *** The UCB values *)

Section WithLibm.

Context {L : Libm}.

Lemma sqrt_log_ratio_nonzero_count (N n : Z) :
  n <> 0%Z -> sqrt_log_ratio N n = NaN \/ exists q, sqrt_log_ratio N n = Fin q.
Proof.
  intros Hn. unfold sqrt_log_ratio.
  destruct (Z.eqb_spec N 0); [left; reflexivity|].
  destruct (Z.eqb_spec n 0); [contradiction|].
  destruct (Z.eqb_spec N 1); right; eexists; reflexivity.
Qed.

Lemma exploration_term_finite (kappa_local : Q) (N n : Z) :
  n <> 0%Z \/ kappa_local == 0 ->
  let e := X.mul (Fin kappa_local) (sqrt_log_ratio N n) in
  exists q, (if X.isnan e then Fin DBL_MAX else e) = Fin q.
Proof.
  intros Hc e. subst e. unfold sqrt_log_ratio.
  destruct (Z.eqb_spec N 0); [eexists; reflexivity|].
  destruct (Z.eqb_spec N 1).
  - destruct (Z.eqb_spec n 0); eexists; reflexivity.
  - destruct (Z.eqb_spec n 0) as [->|Hn]; [|eexists; reflexivity].
    destruct Hc as [Hc|Hk]; [congruence|].
    cbn [X.mul]. unfold X.scale_inf.
    destruct (Qlt_le_dec 0 kappa_local); [exfalso; lra|].
    destruct (Qlt_le_dec kappa_local 0); [exfalso; lra|].
    eexists; reflexivity.
Qed.

Lemma div_fin_nonzero (a b : Q) : ~ b == 0 -> X.div_fin a b = Fin (a / b).
Proof.
  intros Hb. unfold X.div_fin.
  destruct (Qeq_bool b 0) eqn:E; [|reflexivity].
  apply Qeq_bool_eq in E. contradiction.
Qed.

Lemma get_normalized_ucb_value_fin (s : UctStatistic) (idx : nat) (v : xdouble) :
  lower_bound s < upper_bound s ->
  get_normalized_ucb_value s idx = Some v ->
  exists p,
    StdMap.find idx (ucb_statistics_ s) = Some p /\
    v = Fin ((action_value_ p - lower_bound s) / (upper_bound s - lower_bound s)).
Proof.
  intros Hb H. unfold get_normalized_ucb_value in H.
  destruct (StdMap.find idx (ucb_statistics_ s)) as [p|]; [|discriminate].
  exists p. split; [reflexivity|].
  rewrite div_fin_nonzero in H by lra. congruence.
Qed.

Lemma ucb_value_finite (params : MctsParameters) (s : CostConstrainedStatistic)
    (kappa_local : Q) (idx : nat) (v : xdouble) :
  well_configured params s ->
  visited s \/ kappa_local == 0 ->
  StdMap.ok (ucb_statistics_ (reward_statistic_ s)) = true ->
  ucb_value params s kappa_local idx = Some v ->
  exists q, v = Fin q.
Proof.
  intros ([l Hl] & Hbr & Hbc) Hc Hok Hv. unfold ucb_value in Hv.
  destruct (get_normalized_ucb_value (cost_statistic_ s) idx) as [c|] eqn:Ec;
    [|discriminate].
  destruct (get_normalized_ucb_value (reward_statistic_ s) idx) as [r|] eqn:Er;
    [|discriminate].
  cbn [bind] in Hv.
  destruct (StdMap.find idx (ucb_statistics_ (reward_statistic_ s))) as [entry|] eqn:Ef;
    [|discriminate].
  cbn [bind] in Hv.
  destruct (get_normalized_ucb_value_fin _ _ _ Hbc Ec) as (pc & _ & ->).
  destruct (get_normalized_ucb_value_fin _ _ _ Hbr Er) as (pr & _ & ->).
  destruct (exploration_term_finite kappa_local
              (total_node_visits_ (reward_statistic_ s)) (action_count_ entry))
    as [q Hq].
  { destruct Hc as [Hvis|Hk]; [left | right; exact Hk].
    apply find_In in Ef; [|exact Hok].
    unfold visited in Hvis. rewrite Forall_forall in Hvis.
    exact (Hvis _ Ef). }
  cbv zeta in Hq, Hv. rewrite Hq, Hl in Hv. injection Hv as <-.
  eexists. reflexivity.
Qed.

Lemma calculate_ucb_values_defined (params : MctsParameters)
    (s : CostConstrainedStatistic) (kappa_local : Q) (n : nat) :
  fully_expanded s n ->
  well_configured params s ->
  visited s \/ kappa_local == 0 ->
  exists qs, calculate_ucb_values params s kappa_local = Some (map Fin qs) /\
             length qs = n.
Proof.
  intros [Hr Hc] Hconf Hfin.
  destruct (dense_find _ n 0 Hr) as (Hokr & Hsize & _).
  unfold calculate_ucb_values. rewrite Hsize.
  destruct (traverse_defined (ucb_value params s kappa_local) (seq 0 n)) as [vs Hvs].
  { intros idx Hin. apply in_seq in Hin.
    destruct (dense_find _ n idx Hr) as (_ & _ & Hfr).
    destruct (dense_find _ n idx Hc) as (_ & _ & Hfc).
    destruct Hfr as [pr Hpr]; [lia|]. destruct Hfc as [pc Hpc]; [lia|].
    unfold ucb_value, get_normalized_ucb_value. rewrite Hpc, Hpr.
    cbn [bind]. eexists. reflexivity. }
  rewrite Hvs.
  assert (Hall : Forall (fun v => exists q, v = Fin q) vs).
  { apply Forall_forall. intros v Hin.
    destruct (In_nth_error _ _ Hin) as [i Hi].
    destruct (traverse_nth _ _ _ Hvs) as [Hlen Hnth].
    assert (Hi' : nth_error (seq 0 n) i <> None).
    { apply nth_error_Some. rewrite <- Hlen. apply nth_error_Some. congruence. }
    destruct (nth_error (seq 0 n) i) as [idx|] eqn:Ei; [|congruence].
    destruct (Hnth _ _ Ei) as (b & Hb & Hfb).
    rewrite Hi in Hb. injection Hb as <-.
    eapply ucb_value_finite; eassumption. }
  assert (Hqs : exists qs, vs = map Fin qs).
  { clear Hvs. induction Hall as [|v vs [q ->] _ [qs ->]].
    - exists []. reflexivity.
    - exists (q :: qs). reflexivity. }
  destruct Hqs as [qs ->]. exists qs. split; [reflexivity|].
  destruct (traverse_nth _ _ _ Hvs) as [Hlen _].
  rewrite length_map, length_seq in Hlen. exact Hlen.
Qed.

End WithLibm.

Section WithLibm.
Context {L : Libm}.


End WithLibm.


(** *** [std::max_element] *)

Lemma max_element_from_spec (qs pre : list Q) (largest : nat) (lv : Q) :
  nth_error (pre ++ qs) largest = Some lv ->
  (forall q, In q pre -> q <= lv) ->
  exists m,
    nth_error (pre ++ qs)
              (max_element_from largest (Fin lv) (length pre) (map Fin qs)) = Some m /\
    forall q, In q (pre ++ qs) -> q <= m.
Proof.
  revert pre largest lv. induction qs as [|q qs IH]; intros pre largest lv Hn Hpre.
  - cbn [map max_element_from]. exists lv. split; [exact Hn|].
    intros q Hq. rewrite app_nil_r in Hq. apply Hpre, Hq.
  - cbn [map max_element_from X.ltb].
    replace (pre ++ q :: qs) with ((pre ++ [q]) ++ qs) in *
      by (rewrite <- app_assoc; reflexivity).
    replace (S (length pre)) with (length (pre ++ [q]))
      by (rewrite length_app; cbn; lia).
    destruct (Qlt_le_dec lv q) as [Hlt|Hle].
    + apply IH.
      * rewrite nth_error_app1 by (rewrite length_app; cbn; lia).
        rewrite nth_error_app2 by lia. rewrite Nat.sub_diag. reflexivity.
      * intros x Hx. apply in_app_or in Hx as [Hx|[<-|[]]]; [|lra].
        specialize (Hpre _ Hx). lra.
    + apply IH; [exact Hn|].
      intros x Hx. apply in_app_or in Hx as [Hx|[<-|[]]]; [|exact Hle].
      apply Hpre, Hx.
Qed.

Lemma max_element_spec (qs : list Q) :
  qs <> [] ->
  exists m,
    nth_error qs (max_element (map Fin qs)) = Some m /\
    forall q, In q qs -> q <= m.
Proof.
  destruct qs as [|q0 qs]; [congruence|]. intros _.
  cbn [map max_element].
  destruct (max_element_from_spec qs [q0] 0 q0) as (m & Hm & Hall).
  - reflexivity.
  - intros q [<-|[]]. lra.
  - exists m. split; assumption.
Qed.

(** *** The feasibility filter *)

Lemma DBL_MAX_nonneg : 0 <= DBL_MAX.
Proof. vm_compute. discriminate. Qed.

Section WithLibm.

Context {L : Libm}.

Lemma sqrt_log_ratio_diag (c : Z) :
  c <> 0%Z ->
  exists r, sqrt_log_ratio c c = Fin r /\ ((forall N n, 0 <= sqrt_log N n) -> 0 <= r).
Proof.
  intros Hc. unfold sqrt_log_ratio.
  destruct (Z.eqb_spec c 0); [contradiction|].
  destruct (Z.eqb_spec c 1).
  - exists 0. split; [reflexivity | intros; lra].
  - exists (sqrt_log c c). split; [reflexivity | intros H; apply H].
Qed.

Lemma node_count_term_fin (c : Z) :
  exists r, node_count_term c = Fin r /\ ((forall N n, 0 <= sqrt_log N n) -> 0 <= r).
Proof.
  unfold node_count_term. destruct (Z.eqb_spec c 0) as [_|Hc].
  - exists DBL_MAX. split; [reflexivity | intros; apply DBL_MAX_nonneg].
  - apply sqrt_log_ratio_diag, Hc.
Qed.

Lemma node_count_relations_fin (c : Z) (r0 : Q) :
  exists r,
    (if (c =? 0)%Z then Fin DBL_MAX else X.add (sqrt_log_ratio c c) (Fin r0)) = Fin r /\
    ((forall N n, 0 <= sqrt_log N n) -> 0 <= r0 -> 0 <= r).
Proof.
  destruct (Z.eqb_spec c 0) as [_|Hc].
  - exists DBL_MAX. split; [reflexivity | intros; apply DBL_MAX_nonneg].
  - destruct (sqrt_log_ratio_diag c Hc) as (r & -> & Hr).
    exists (r + r0). split; [reflexivity|]. intros H H0. specialize (Hr H). lra.
Qed.

Lemma bound_product_nonneg (ff r r0 : Q) :
  filter_bound_nonneg ff ->
  ((forall N n, 0 <= sqrt_log N n) -> 0 <= r0) ->
  ((forall N n, 0 <= sqrt_log N n) -> 0 <= r0 -> 0 <= r) ->
  0 <= ff * r.
Proof.
  intros [Hz|[Hff Hsl]] H0 Hr.
  - rewrite Hz. lra.
  - apply Qmult_le_0_compat; [exact Hff | apply Hr; auto].
Qed.

(** [filter_feasible_actions] on finite values, with every index expanded:
    it returns, and an index is kept exactly when its value is within the
    bound of the largest one. *)
Lemma filter_feasible_actions_spec (s : CostConstrainedStatistic) (qs : list Q)
    (ff : Q) (n : nat) :
  StdMap.keys (ucb_statistics_ (reward_statistic_ s)) = seq 0 n ->
  length qs = n ->
  qs <> [] ->
  exists feasible m entry r0,
    nth_error qs (max_element (map Fin qs)) = Some m /\
    (forall q, In q qs -> q <= m) /\
    StdMap.find (max_element (map Fin qs)) (ucb_statistics_ (reward_statistic_ s))
    = Some entry /\
    node_count_term (action_count_ entry) = Fin r0 /\
    ((forall N n, 0 <= sqrt_log N n) -> 0 <= r0) /\
    filter_feasible_actions s (map Fin qs) ff = Some feasible /\
    (forall a, In a feasible -> (a < n)%nat) /\
    (forall idx q e rr,
        nth_error qs idx = Some q ->
        StdMap.find idx (ucb_statistics_ (reward_statistic_ s)) = Some e ->
        (if (action_count_ e =? 0)%Z then Fin DBL_MAX
         else X.add (sqrt_log_ratio (action_count_ e) (action_count_ e)) (Fin r0))
        = Fin rr ->
        (In idx feasible <-> Qabs (q + - m) <= ff * rr)).
Proof.
  intros Hk Hlen Hne.
  destruct (max_element_spec qs Hne) as (m & Hm & Hmax).
  set (r := max_element (map Fin qs)) in *.
  assert (Hr : (r < n)%nat).
  { rewrite <- Hlen. apply nth_error_Some. congruence. }
  destruct (dense_find _ n r Hk) as (Hok & _ & Hfr).
  destruct (Hfr Hr) as [entry Hentry].
  destruct (node_count_term_fin (action_count_ entry)) as (r0 & Hr0 & Hr0pos).
  assert (Htest : forall idx q e rr,
            nth_error qs idx = Some q ->
            StdMap.find idx (ucb_statistics_ (reward_statistic_ s)) = Some e ->
            (if (action_count_ e =? 0)%Z then Fin DBL_MAX
             else X.add (sqrt_log_ratio (action_count_ e) (action_count_ e)) (Fin r0))
            = Fin rr ->
            feasible_test s (map Fin qs) (Fin m) (Fin r0) ff idx
            = Some (Qle_bool (Qabs (q + - m)) (ff * rr))).
  { intros idx q e rr Hq He Hrr. unfold feasible_test.
    rewrite (map_nth_error Fin _ _ Hq). cbn [bind]. rewrite He. cbn [bind].
    rewrite Hrr. reflexivity. }
  destruct (traverse_defined (feasible_test s (map Fin qs) (Fin m) (Fin r0) ff)
                             (seq 0 n)) as [tests Htests].
  { intros idx Hin. apply in_seq in Hin.
    destruct (nth_error qs idx) as [q|] eqn:Eq.
    2:{ apply nth_error_None in Eq. lia. }
    destruct (dense_find _ n idx Hk) as (_ & _ & Hf).
    destruct Hf as [e He]; [lia|].
    destruct (node_count_relations_fin (action_count_ e) r0) as (rr & Hrr & _).
    eexists. eapply Htest; eassumption. }
  destruct (traverse_combine _ _ _ Htests) as [Hc1 Hc2].
  exists (map fst (filter snd (combine (seq 0 n) tests))), m, entry, r0.
  split; [exact Hm|]. split; [exact Hmax|]. split; [exact Hentry|].
  split; [exact Hr0|]. split; [exact Hr0pos|]. split; [|split].
  - unfold filter_feasible_actions. fold r.
    rewrite (map_nth_error Fin _ _ Hm). cbn [bind]. rewrite Hentry. cbn [bind].
    rewrite Hr0, length_map, Hlen, Htests. reflexivity.
  - intros a Ha. apply in_map_iff in Ha as ([a' b] & <- & Hin).
    apply filter_In in Hin as [Hin _]. apply in_combine_l in Hin.
    apply in_seq in Hin. cbn [fst]. lia.
  - intros idx q e rr Hq He Hrr. pose proof (Htest _ _ _ _ Hq He Hrr) as Ht.
    assert (Hidx : (idx < n)%nat).
    { rewrite <- Hlen. apply nth_error_Some. congruence. }
    split.
    + intros Hin. apply Qle_bool_iff.
      apply in_map_iff in Hin as ([a' b] & Ha & Hin). cbn [fst] in Ha.
      subst a'. apply filter_In in Hin as [Hin Hb]. cbn [snd] in Hb. subst b.
      apply Hc2 in Hin. rewrite Ht in Hin. injection Hin as Hin. exact Hin.
    + intros Hle. apply Qle_bool_iff in Hle. destruct (Hc1 idx) as (b & Hb & Hin); [apply in_seq; lia|].
      rewrite Ht in Hb. injection Hb as Hb.
      apply in_map_iff. exists (idx, b).
      split; [reflexivity|]. apply filter_In. split; [exact Hin|].
      cbn [snd]. rewrite <- Hb. exact Hle.
Qed.

(** With a non-negative bound the maximising index is kept. *)
Lemma filter_keeps_maximum (s : CostConstrainedStatistic) (qs : list Q)
    (ff : Q) (n : nat) :
  StdMap.keys (ucb_statistics_ (reward_statistic_ s)) = seq 0 n ->
  length qs = n ->
  qs <> [] ->
  filter_bound_nonneg ff ->
  exists feasible,
    filter_feasible_actions s (map Fin qs) ff = Some feasible /\
    In (max_element (map Fin qs)) feasible /\
    (forall a, In a feasible -> (a < n)%nat).
Proof.
  intros Hk Hlen Hne Hff.
  destruct (filter_feasible_actions_spec s qs ff n Hk Hlen Hne)
    as (feasible & m & entry & r0 & Hm & _ & _ & _ & Hr0pos & Hfilter & Hbound & Hiff).
  exists feasible. split; [exact Hfilter|]. split; [|exact Hbound].
  assert (Hr : (max_element (map Fin qs) < n)%nat).
  { rewrite <- Hlen. apply nth_error_Some. congruence. }
  destruct (dense_find _ n (max_element (map Fin qs)) Hk) as (_ & _ & Hf).
  destruct (Hf Hr) as [e He].
  destruct (node_count_relations_fin (action_count_ e) r0) as (rr & Hrr & Hrrpos).
  apply (Hiff _ _ _ _ Hm He Hrr).
  pose proof (bound_product_nonneg ff rr r0 Hff Hr0pos Hrrpos) as Hpos.
  apply Qabs_Qle_condition. split; lra.
Qed.

(** *** [greedy_policy] returns *)

Lemma greedy_policy_unfold (params : MctsParameters) (s : CostConstrainedStatistic)
    (kappa_local ff : Q) (g : RandomGenerator) (values : list xdouble)
    (feasible : list ActionIdx) :
  calculate_ucb_values params s kappa_local = Some values ->
  filter_feasible_actions s values ff = Some feasible ->
  greedy_policy params s kappa_local ff g = solve_LP_and_sample s feasible g.
Proof.
  intros Hv Hf. unfold greedy_policy. rewrite Hv. cbn [bind]. rewrite Hf. reflexivity.
Qed.

(** The ingredients of one greedy selection on a fully expanded statistic. *)
Lemma greedy_policy_defined (params : MctsParameters) (s : CostConstrainedStatistic)
    (kappa_local ff : Q) (n : nat) :
  fully_expanded s n ->
  n <> 0%nat ->
  well_configured params s ->
  visited s \/ kappa_local == 0 ->
  filter_bound_nonneg ff ->
  exists qs feasible a_max a_min pmax pmin,
    calculate_ucb_values params s kappa_local = Some (map Fin qs) /\
    filter_feasible_actions s (map Fin qs) ff = Some feasible /\
    In (max_element (map Fin qs)) feasible /\
    (exists m, nth_error qs (max_element (map Fin qs)) = Some m /\
               forall q, In q qs -> q <= m) /\
    (forall a, In a feasible -> (a < n)%nat) /\
    extreme_actions (ucb_statistics_ (cost_statistic_ s)) feasible
    = Some (a_max, a_min) /\
    In a_max feasible /\ In a_min feasible /\
    StdMap.find a_max (ucb_statistics_ (cost_statistic_ s)) = Some pmax /\
    StdMap.find a_min (ucb_statistics_ (cost_statistic_ s)) = Some pmin /\
    forall g, exists a policy g',
      greedy_policy params s kappa_local ff g = Some ((a, policy), g') /\
      (a = a_max \/ a = a_min).
Proof.
  intros Hfull Hn Hconf Hfin Hff.
  destruct (calculate_ucb_values_defined params s kappa_local n Hfull Hconf Hfin)
    as (qs & Hvalues & Hlen).
  destruct Hfull as [Hkr Hkc].
  assert (Hne : qs <> []) by (destruct qs; [cbn in Hlen; congruence | congruence]).
  destruct (filter_keeps_maximum s qs ff n Hkr Hlen Hne Hff)
    as (feasible & Hfilter & Hin & Hbound).
  destruct (dense_find _ n 0 Hkc) as (Hokc & _ & _).
  assert (Hfound : Forall (fun f => exists pf,
                     StdMap.find f (ucb_statistics_ (cost_statistic_ s)) = Some pf)
                          feasible).
  { apply Forall_forall. intros a Ha.
    destruct (dense_find _ n a Hkc) as (_ & _ & Hf). apply Hf, Hbound, Ha. }
  assert (Hfne : feasible <> []) by (intros ->; destruct Hin).
  destruct (extreme_actions_spec _ feasible Hfne Hfound)
    as (a_max & a_min & pmax & pmin & Hext & Hinmx & Hinmn & Hfmx & Hfmn & _ & _).
  exists qs, feasible, a_max, a_min, pmax, pmin.
  repeat (split; [assumption|]).
  split; [apply max_element_spec, Hne|].
  repeat (split; [assumption|]).
  intros g. rewrite (greedy_policy_unfold _ _ _ _ _ _ _ Hvalues Hfilter).
  destruct (solve_LP_and_sample_cases s feasible g a_max a_min pmax pmin
              Hext Hfmx Hfmn)
    as [[Heq Hsol]|[(Hneq & Hc & Hsol)|[(Hneq & Hc1 & Hc2 & Hsol)|(Hneq & Hc1 & Hc2 & Hsol)]]];
    rewrite Hsol; do 3 eexists; (split; [reflexivity|]); auto.
  destruct (Qle_bool _ _); auto.
Qed.

End WithLibm.

End GreedyFacts.

(** ** Selection, repeated selection and the lambda adapter *)
Module SelectionFacts.
Import Uct Ccs StdMapFacts LpFacts GreedyFacts.

Local Open Scope Q_scope.

(** *** When the LP step returns *)

Lemma extreme_fold_some (cs : UcbStatistics) (l : list ActionIdx)
    (acc : option (ActionIdx * ActionIdx)) (mm : ActionIdx * ActionIdx) :
  fold_left (extreme_step cs) l acc = Some mm ->
  acc <> None /\ Forall (fun f => exists pf, StdMap.find f cs = Some pf) l.
Proof.
  revert acc. induction l as [|f l IH]; intros acc H; cbn [fold_left] in H.
  - split; [congruence | constructor].
  - destruct (IH _ H) as [Hstep Hall].
    unfold extreme_step in Hstep.
    destruct acc as [mm0|]; [|cbn in Hstep; congruence]. cbn [bind] in Hstep.
    destruct (StdMap.find f cs) as [pf|] eqn:Ef; [|cbn in Hstep; congruence].
    split; [congruence|]. constructor; [exists pf; exact Ef | exact Hall].
Qed.

Lemma solve_LP_and_sample_some (s : CostConstrainedStatistic)
    (feasible : list ActionIdx) (g : RandomGenerator)
    (r : PolicySampled * RandomGenerator) :
  solve_LP_and_sample s feasible g = Some r ->
  exists a_max a_min pmax pmin,
    extreme_actions (ucb_statistics_ (cost_statistic_ s)) feasible
    = Some (a_max, a_min) /\
    StdMap.find a_max (ucb_statistics_ (cost_statistic_ s)) = Some pmax /\
    StdMap.find a_min (ucb_statistics_ (cost_statistic_ s)) = Some pmin /\
    (a_max <> a_min -> action_value_ pmin < action_value_ pmax).
Proof.
  intros H. unfold solve_LP_and_sample in H.
  destruct (extreme_actions (ucb_statistics_ (cost_statistic_ s)) feasible)
    as [mm|] eqn:Eext; [|discriminate].
  clear H. pose proof Eext as Hext. unfold extreme_actions in Eext.
  destruct feasible as [|f0 rest]; [discriminate|].
  destruct (extreme_fold_some _ _ _ _ Eext) as [_ Hall].
  destruct (extreme_actions_spec _ (f0 :: rest) ltac:(congruence) Hall)
    as (a_max & a_min & pmax & pmin & Hext' & _ & _ & Hfmx & Hfmn & _ & Hs).
  exists a_max, a_min, pmax, pmin.
  split; [rewrite <- Hext'; symmetry; exact Hext|].
  split; [exact Hfmx|]. split; [exact Hfmn | exact Hs].
Qed.



Section WithLibm.

Context {L : Libm}.




End WithLibm.

End SelectionFacts.

(** ** The lambda adapter and the feasibility filter *)
Module AdapterFacts.
Import Uct Ccs StdMapFacts LpFacts GreedyFacts SelectionFacts.

Local Open Scope Q_scope.

Lemma solve_LP_and_sample_action_found (s : CostConstrainedStatistic)
    (feasible : list ActionIdx) (g g' : RandomGenerator) (a : ActionIdx)
    (policy : Policy) :
  solve_LP_and_sample s feasible g = Some ((a, policy), g') ->
  exists pa, StdMap.find a (ucb_statistics_ (cost_statistic_ s)) = Some pa.
Proof.
  intros Hsol.
  destruct (solve_LP_and_sample_some _ _ _ _ Hsol)
    as (a_max & a_min & pmax & pmin & Hext & Hfmx & Hfmn & _).
  assert (Ha : a = a_max \/ a = a_min).
  { destruct (solve_LP_and_sample_cases s feasible g a_max a_min pmax pmin
                Hext Hfmx Hfmn)
      as [[_ H]|[(_ & _ & H)|[(_ & _ & _ & H)|(_ & _ & _ & H)]]];
      rewrite H in Hsol; injection Hsol as Ha _ _; subst a; auto.
    destruct (Qle_bool _ _); auto. }
  destruct Ha as [->| ->]; eauto.
Qed.

Lemma clip_bounds (x upper : Q) :
  0 <= upper ->
  exists l, X.min (X.max (Fin x) (Fin 0)) (Fin upper) = Fin l /\ 0 <= l <= upper.
Proof.
  intros H. unfold X.min, X.max. cbn [X.ltb].
  destruct (Qlt_le_dec x 0); cbn [X.ltb];
    destruct (Qlt_le_dec upper _); eexists; (split; [reflexivity|]); split; lra.
Qed.

Lemma clip_upper_limit_fin (root : CostConstrainedStatistic) (tau gamma : Q) :
  lower_bound (reward_statistic_ root) <= upper_bound (reward_statistic_ root) ->
  0 < tau * (1 - gamma) ->
  clip_upper_limit root tau gamma
  = Fin ((upper_bound (reward_statistic_ root) - lower_bound (reward_statistic_ root))
         / (tau * (1 - gamma))) /\
  0 <= (upper_bound (reward_statistic_ root) - lower_bound (reward_statistic_ root))
       / (tau * (1 - gamma)).
Proof.
  intros Hb Hd. unfold clip_upper_limit. split.
  - apply div_fin_nonzero. lra.
  - apply Qle_shift_div_l; [exact Hd | lra].
Qed.




Lemma bounds_from_expand_action (p : MctsParameters)
    (s s' : CostConstrainedStatistic) (array_idx : nat) (a : ActionIdx) :
  expand_action s array_idx = Some (a, s') -> bounds_from p s -> bounds_from p s'.
Proof.
  unfold expand_action. intros He H.
  destruct (nth_error (unexpanded_actions_ s) array_idx); [|discriminate].
  cbn [bind] in He. injection He as _ <-. exact H.
Qed.

Lemma bounds_from_set_LAMBDA (p : MctsParameters) (l : xdouble)
    (s : CostConstrainedStatistic) :
  bounds_from p s -> bounds_from (set_LAMBDA p l) s.
Proof. intros H. exact H. Qed.

Section WithLibm.

Context {L : Libm}.

Lemma greedy_policy_action_found (params : MctsParameters)
    (s : CostConstrainedStatistic) (kappa_local ff : Q) (g g' : RandomGenerator)
    (a : ActionIdx) (policy : Policy) :
  greedy_policy params s kappa_local ff g = Some ((a, policy), g') ->
  exists pa, StdMap.find a (ucb_statistics_ (cost_statistic_ s)) = Some pa.
Proof.
  unfold greedy_policy. intros H.
  destruct (calculate_ucb_values params s kappa_local) as [values|]; [|discriminate].
  cbn [bind] in H.
  destruct (filter_feasible_actions s values ff) as [feasible|]; [|discriminate].
  cbn [bind] in H. eapply solve_LP_and_sample_action_found, H.
Qed.


(** C4, as the code has it: a run of the adapter on a root that still has
    unexpanded actions leaves lambda as it was; a run on a root without
    unexpanded actions, whose expanded actions are [0 .. n-1], returns and
    stores a lambda in [[0, (upper - lower) / (tau * (1 - gamma))]],
    provided the multiplier is finite, the bounds of both statistics are in
    order and [tau * (1 - gamma)] is positive.  [upper] and [lower] are the
    bounds of the root's reward statistic, which are [REWARD_UPPER_BOUND]
    and [REWARD_LOWER_BOUND] where the root was built from the parameter
    object. *)
Theorem lambda_clipped_when_adapted (parameters : MctsParameters)
    (root_statistic : CostConstrainedStatistic) (current_iteration : Z)
    (g : RandomGenerator) (n : nat) :
  (policy_is_ready root_statistic = false ->
   update_statistic_parameters parameters root_statistic current_iteration g
   = Some (parameters, g)) /\
  (policy_is_ready root_statistic = true ->
   fully_expanded root_statistic n ->
   n <> 0%nat ->
   well_configured parameters root_statistic ->
   0 < TAU_GRADIENT_CLIP parameters * (1 - DISCOUNT_FACTOR parameters) ->
   exists parameters' g' l,
     update_statistic_parameters parameters root_statistic current_iteration g
     = Some (parameters', g') /\
     LAMBDA parameters' = Fin l /\
     0 <= l
     <= (upper_bound (reward_statistic_ root_statistic)
         - lower_bound (reward_statistic_ root_statistic))
        / (TAU_GRADIENT_CLIP parameters * (1 - DISCOUNT_FACTOR parameters)) /\
     (bounds_from parameters root_statistic ->
      l <= (REWARD_UPPER_BOUND parameters - REWARD_LOWER_BOUND parameters)
           / (TAU_GRADIENT_CLIP parameters * (1 - DISCOUNT_FACTOR parameters)))).
Proof.
  split.
  - intros Hready. unfold update_statistic_parameters. rewrite Hready. reflexivity.
  - intros Hready Hfull Hn Hconf Htau.
    destruct (greedy_policy_defined parameters root_statistic 0 0 n Hfull Hn Hconf)
      as (qs & feasible & a_max & a_min & pmax & pmin & _ & _ & _ & _ & _ & _ & _ & _
          & _ & _ & Hgreedy).
    { right. reflexivity. }
    { left. reflexivity. }
    destruct Hconf as ([l0 Hl0] & Hbr & Hbc).
    destruct (Hgreedy g) as (a & policy & g' & Hg & _).
    destruct (greedy_policy_action_found _ _ _ _ _ _ _ _ Hg) as [pa Hpa].
    destruct (clip_upper_limit_fin root_statistic (TAU_GRADIENT_CLIP parameters)
                (DISCOUNT_FACTOR parameters)) as [Hu Hupos]; [lra | exact Htau|].
    unfold update_statistic_parameters, calculate_next_lambda.
    rewrite Hready, Hg. cbn [negb bind fst snd].
    unfold get_normalized_cost_action_value, get_normalized_ucb_value.
    rewrite Hpa. cbn [bind fst snd].
    rewrite div_fin_nonzero by lra. rewrite Hu, Hl0.
    unfold next_lambda_unclipped. cbn [X.sub X.opp X.add X.mul].
    match goal with
    | |- context [X.min (X.max (Fin ?x) (Fin 0)) (Fin ?u)] =>
        destruct (clip_bounds x u Hupos) as (l & Hl & Hrange)
    end.
    do 2 eexists. exists l. split; [reflexivity|].
    cbn [LAMBDA set_LAMBDA]. split; [exact Hl|]. split; [exact Hrange|].
    intros (Hur & Hlr & _). rewrite <- Hur, <- Hlr. apply Hrange.
Qed.

(** C7, as the code has it: on a statistic whose expanded actions are
    [0 .. n-1], [n >= 1], and for every vector of [n] finite values, which
    is what [calculate_ucb_values] hands over unless one of its values is
    an infinity or NaN, [filter_feasible_actions] with a non-negative
    factor returns a list of expanded actions that holds the first
    maximizing one.  There is no fallback: [solve_LP_and_sample] throws on
    an empty list. *)
Theorem filter_keeps_maximizing_action (s : CostConstrainedStatistic)
    (qs : list Q) (action_filter_factor_local : Q) (n : nat) :
  StdMap.keys (ucb_statistics_ (reward_statistic_ s)) = seq 0 n ->
  length qs = n ->
  n <> 0%nat ->
  0 <= action_filter_factor_local ->
  (forall N c, 0 <= sqrt_log N c) ->
  (exists feasible m,
      nth_error qs (max_element (map Fin qs)) = Some m /\
      (forall q, In q qs -> q <= m) /\
      filter_feasible_actions s (map Fin qs) action_filter_factor_local
      = Some feasible /\
      In (max_element (map Fin qs)) feasible /\
      (forall a, In a feasible -> (a < n)%nat)) /\
  (forall g, solve_LP_and_sample s [] g = None).
Proof.
  intros Hkeys Hlen Hn Hff Hsl. split; [|reflexivity].
  assert (Hne : qs <> []).
  { intros ->. cbn [length] in Hlen. congruence. }
  destruct (filter_feasible_actions_spec s qs action_filter_factor_local n
              Hkeys Hlen Hne)
    as (feasible & m & _ & _ & Hm & Hmax & _ & _ & _ & Hf & _).
  destruct (filter_keeps_maximum s qs action_filter_factor_local n Hkeys Hlen Hne)
    as (feasible' & Hf' & Hin & Hbound).
  { right. split; assumption. }
  rewrite Hf in Hf'. injection Hf' as <-.
  exists feasible, m. repeat (split; [assumption|]). exact Hbound.
Qed.

End WithLibm.

End AdapterFacts.

(** ** The statements on the example data *)
Module ExampleFacts.
Import Uct Ccs Examples StdMapFacts LpFacts GreedyFacts SelectionFacts.

Local Open Scope Q_scope.

Lemma tie_root_fully_expanded : fully_expanded tie_root 2.
Proof. split; reflexivity. Qed.

Lemma tie_root_well_configured : well_configured tie_parameters tie_root.
Proof. split; [exists 0; reflexivity | split; reflexivity]. Qed.


(** C2 fails on the leaf's heuristic initialisation: it counts a visit of
    the node and no visit of an action. *)
Lemma heuristic_init_counts_a_node_visit_only :
  total_node_visits_
    (reward_statistic_ (run_updates fresh_root [HeuristicInit leaf])) = 1%Z /\
  sum_action_counts
    (ucb_statistics_
       (reward_statistic_ (run_updates fresh_root [HeuristicInit leaf]))) = 0%Z /\
  total_node_visits_
    (cost_statistic_ (run_updates fresh_root [HeuristicInit leaf])) = 1%Z /\
  sum_action_counts
    (ucb_statistics_
       (cost_statistic_ (run_updates fresh_root [HeuristicInit leaf]))) = 0%Z.
Proof. repeat split; reflexivity. Qed.

(** C4 fails while the root has unexpanded actions: the adapter returns
    with the parameters untouched, here with the negative initial lambda of
    the repository's test, below the interval [[0, 20]]. *)
Lemma lambda_stays_negative_before_expansion :
  (forall (L : Libm) (current_iteration : Z) (g : RandomGenerator),
      update_statistic_parameters test_parameters fresh_root current_iteration g
      = Some (test_parameters, g)) /\
  (exists l, LAMBDA test_parameters = Fin l /\ l == - (1 # 10)) /\
  (exists u, clip_upper_limit fresh_root (TAU_GRADIENT_CLIP test_parameters)
                              (DISCOUNT_FACTOR test_parameters) = Fin u /\
             u == 20).
Proof.
  split; [intros; reflexivity|].
  split; eexists; (split; [reflexivity|]); reflexivity.
Qed.

(** C1 fails on a root of which only action [1] is expanded: the set of
    expanded actions is not empty, yet [greedy_policy] throws before its LP
    step, whatever its arguments, and the LP step itself throws on the
    action [0].  And where it returns, the policy is over the expanded
    actions, not over all of them: on a root over three actions with
    [0] and [1] expanded it has no entry for action [2]. *)
Lemma lp_step_needs_expanded_feasible_actions :
  StdMap.keys (ucb_statistics_ (cost_statistic_ root_after_one_iteration))
  = [1%nat] /\
  (forall (L : Libm) (kappa_local action_filter_factor_local : Q)
          (g : RandomGenerator),
      greedy_policy test_parameters root_after_one_iteration kappa_local
                    action_filter_factor_local g = None) /\
  (forall g : RandomGenerator,
      Ccs64.solve_LP_and_sample root_after_one_iteration [0%nat] g = None) /\
  num_actions_ (cost_statistic_ two_of_three_root) = 3%nat /\
  exists a policy g',
    Ccs64.solve_LP_and_sample two_of_three_root [0%nat; 1%nat]
                              quarter_then_three_quarters
    = Some ((a, policy), g') /\
    StdMap.keys policy = [0%nat; 1%nat] /\
    StdMap.find 2%nat policy = None.
Proof.
  split; [reflexivity|]. split; [intros; reflexivity|].
  split; [intros; reflexivity|]. split; [reflexivity|].
  do 3 eexists. split; [vm_compute; reflexivity|].
  split; reflexivity.
Qed.

(** C7 fails on a root of which only action [1] is expanded: index [0] has
    no entry, so [calculate_ucb_values] throws, [filter_feasible_actions]
    throws on whatever values it is given, and [get_best_action] throws;
    neither a feasible set nor a fallback action is returned. *)
Lemma filter_throws_on_partly_expanded_root :
  StdMap.keys (ucb_statistics_ (reward_statistic_ root_after_one_iteration))
  = [1%nat] /\
  (forall (L : Libm) (kappa_local : Q),
      calculate_ucb_values test_parameters root_after_one_iteration kappa_local
      = None) /\
  (forall (L : Libm) (values : list xdouble) (action_filter_factor_local : Q),
      filter_feasible_actions root_after_one_iteration values
                              action_filter_factor_local = None) /\
  (forall (L : Libm) (g : RandomGenerator),
      get_best_action test_parameters root_after_one_iteration g = None).
Proof.
  split; [reflexivity|]. split; [intros; reflexivity|]. split; [|intros; reflexivity].
  intros L values ff. unfold filter_feasible_actions.
  destruct values as [|v values]; [reflexivity|].
  destruct (nth_error (v :: values) (max_element (v :: values))); [|reflexivity].
  cbn [bind].
  destruct (StdMap.find _ _); [|reflexivity].
  cbn [bind length seq traverse]. reflexivity.
Qed.

(** C10 fails on the range of all [unsigned int]: its length wraps to [0],
    no gap is tried, and the quotient is [0/0]. *)
Lemma get_probability_is_nan_on_the_full_range :
  Crossing.gap_distances gap_all = [] /\
  Crossing.get_probability gap_all 7 Crossing.BACKWARD = NaN.
Proof. split; reflexivity. Qed.

(** Where the count of the maximising action is zero and the exploration
    constant positive, its value is [+inf]: the filter returns the empty
    list and the selection throws. *)
Lemma filter_is_empty_on_an_infinite_value :
  forall L : Libm,
    calculate_ucb_values tie_parameters unvisited_root 10 = Some [PInf] /\
    filter_feasible_actions unvisited_root [PInf] 1 = Some [] /\
    forall g, greedy_policy tie_parameters unvisited_root 10 1 g = None.
Proof.
  intros L. split; [reflexivity|]. split; [reflexivity|]. intros g. reflexivity.
Qed.

(** *** The theorems at work *)

Lemma lp_policy_three_cases_witness :
  exists a policy g',
    solve_LP_and_sample tie_root [0%nat; 1%nat] quarter_then_three_quarters
    = Some ((a, policy), g') /\
    policy_sum policy == 1.
Proof.
  destruct (LpFacts.lp_policy_three_cases
              tie_root [0%nat; 1%nat] quarter_then_three_quarters)
    as (a_max & a_min & pmax & pmin & a & policy & g' & _ & _ & _ & _ & _ & _
        & Hsol & _ & _ & Hsum & _).
  - reflexivity.
  - discriminate.
  - constructor; [vm_compute; auto | constructor; [vm_compute; auto | constructor]].
  - exists a, policy, g'. split; assumption.
Defined.


Lemma lambda_clipped_when_adapted_witness :
  exists parameters' g' l,
    update_statistic_parameters (L := half_libm) tie_parameters tie_root 0
                                quarter_then_three_quarters
    = Some (parameters', g') /\
    LAMBDA parameters' = Fin l /\
    0 <= l <= 20.
Proof.
  destruct (proj2 (AdapterFacts.lambda_clipped_when_adapted
                     (L := half_libm) tie_parameters tie_root 0
                     quarter_then_three_quarters 2))
    as (parameters' & g' & l & Hupd & Hl & Hrange & _).
  - reflexivity.
  - exact tie_root_fully_expanded.
  - discriminate.
  - exact tie_root_well_configured.
  - vm_compute. reflexivity.
  - exists parameters', g', l. split; [exact Hupd|]. split; [exact Hl|].
    exact Hrange.
Defined.


Lemma filter_keeps_maximizing_action_witness :
  exists feasible,
    filter_feasible_actions (L := half_libm) tie_root (map Fin [1 # 4; 3 # 4]) 1
    = Some feasible /\
    In 1%nat feasible.
Proof.
  destruct (AdapterFacts.filter_keeps_maximizing_action
              (L := half_libm) tie_root [1 # 4; 3 # 4] 1 2)
    as [(feasible & m & _ & _ & Hf & Hin & _) _].
  - reflexivity.
  - reflexivity.
  - discriminate.
  - vm_compute. discriminate.
  - intros N c. vm_compute. discriminate.
  - exists feasible. split; [exact Hf | exact Hin].
Defined.

Lemma get_best_action_first_maximum_witness :
  exists best pb,
    Uct.get_best_action uct_three = Some best /\
    StdMap.find best (ucb_statistics_ uct_three) = Some pb /\
    forall k p,
      StdMap.find k (ucb_statistics_ uct_three) = Some p ->
      action_value_ p <= action_value_ pb /\
      (action_value_ p == action_value_ pb -> (best <= k)%nat).
Proof.
  apply (proj2 (BestActionFacts.get_best_action_first_maximum uct_three)).
  - discriminate.
  - reflexivity.
Defined.

Lemma backward_is_never_chosen_witness :
  exists q, Crossing.get_probability gap_3_5 7 Crossing.BACKWARD = Fin q /\ q == 0.
Proof.
  destruct (CrossingFacts.backward_is_never_chosen gap_3_5 7) as (_ & _ & H & _).
  apply H. discriminate.
Defined.

End ExampleFacts.

(** ** Rounding to binary64 *)
Module Binary64Facts.
Import Binary64.

Local Open Scope Q_scope.

Lemma pow2_pos (e : Z) : 0 < pow2 e.
Proof. unfold pow2. apply Qpower_0_lt. reflexivity. Qed.

Lemma pow2_add (a b : Z) : pow2 (a + b) == pow2 a * pow2 b.
Proof. unfold pow2. apply Qpower_plus. discriminate. Qed.

Lemma pow2_sub (a b : Z) : pow2 (a - b) == pow2 a / pow2 b.
Proof. unfold pow2. apply Qpower_minus. discriminate. Qed.

Lemma pow2_lt (a b : Z) : (a < b)%Z -> pow2 a < pow2 b.
Proof. intros H. unfold pow2. apply Qpower_lt_compat_l; [exact H | reflexivity]. Qed.

Lemma pow2_le (a b : Z) : (a <= b)%Z -> pow2 a <= pow2 b.
Proof. intros H. unfold pow2. apply Qpower_le_compat_l; [exact H | discriminate]. Qed.

Lemma pow2_lt_inv (a b : Z) : pow2 a < pow2 b -> (a < b)%Z.
Proof. intros H. apply (Qpower_lt_compat_l_inv 2); [exact H | reflexivity]. Qed.

Lemma pow2_inject (n : Z) : (0 <= n)%Z -> inject_Z (2 ^ n) == pow2 n.
Proof. intros H. unfold pow2. apply (Zpower_Qpower 2 n H). Qed.

Lemma pow2_succ (a : Z) : pow2 (a + 1) == 2 * pow2 a.
Proof. rewrite pow2_add. change (pow2 1) with 2. ring. Qed.

(** A positive rational between the powers of two around it. *)
Lemma ilog2_guess (x : Q) :
  0 < x ->
  let k := (Z.log2 (Qnum x) - Z.log2 (Zpos (Qden x)))%Z in
  pow2 (k - 1) < x /\ x < pow2 (k + 1).
Proof.
  intros Hx k. destruct x as [n d]. cbn [Qnum Qden] in k.
  assert (Hn : (0 < n)%Z).
  { unfold Qlt in Hx. cbn in Hx. lia. }
  destruct (Z.log2_spec n Hn) as [Hn1 Hn2].
  destruct (Z.log2_spec (Zpos d) ltac:(lia)) as [Hd1 Hd2].
  set (a := Z.log2 n) in *. set (b := Z.log2 (Zpos d)) in *.
  assert (Ha : (0 <= a)%Z) by apply Z.log2_nonneg.
  assert (Hb : (0 <= b)%Z) by apply Z.log2_nonneg.
  assert (Ex : n # d == inject_Z n / inject_Z (Zpos d)) by apply Qmake_Qdiv.
  assert (Hdpos : 0 < inject_Z (Zpos d)) by reflexivity.
  assert (Q1 : pow2 a <= inject_Z n).
  { rewrite <- pow2_inject by exact Ha. rewrite <- Zle_Qle. exact Hn1. }
  assert (Q2 : inject_Z n < pow2 (a + 1)).
  { rewrite <- pow2_inject by lia. rewrite <- Zlt_Qlt.
    replace (a + 1)%Z with (Z.succ a) by lia. exact Hn2. }
  assert (Q3 : pow2 b <= inject_Z (Zpos d)).
  { rewrite <- pow2_inject by exact Hb. rewrite <- Zle_Qle. exact Hd1. }
  assert (Q4 : inject_Z (Zpos d) < pow2 (b + 1)).
  { rewrite <- pow2_inject by lia. rewrite <- Zlt_Qlt.
    replace (b + 1)%Z with (Z.succ b) by lia. exact Hd2. }
  assert (Pb := pow2_pos b). assert (Pb1 := pow2_pos (b + 1)).
  rewrite Ex. split.
  - apply Qlt_shift_div_l; [exact Hdpos|].
    replace (k - 1)%Z with (a - (b + 1))%Z by (unfold k; lia).
    rewrite pow2_sub.
    apply Qlt_le_trans with (pow2 a / pow2 (b + 1) * pow2 (b + 1)).
    + apply Qmult_lt_l; [|exact Q4].
      apply Qlt_shift_div_l; [exact Pb1|]. rewrite Qmult_0_l. apply pow2_pos.
    + field_simplify (pow2 a / pow2 (b + 1) * pow2 (b + 1)).
      * rewrite Qdiv_1_r || idtac. lra.
      * intros E. rewrite E in Pb1. discriminate.
  - apply Qlt_shift_div_r; [exact Hdpos|].
    replace (k + 1)%Z with ((a + 1) - b)%Z by (unfold k; lia).
    rewrite pow2_sub.
    apply Qlt_le_trans with (pow2 (a + 1)); [exact Q2|].
    apply Qle_trans with (pow2 (a + 1) / pow2 b * pow2 b).
    + field_simplify (pow2 (a + 1) / pow2 b * pow2 b).
      * rewrite Qdiv_1_r || idtac. lra.
      * intros E. rewrite E in Pb. discriminate.
    + apply Qmult_le_l; [|exact Q3].
      apply Qlt_shift_div_l; [exact Pb|]. rewrite Qmult_0_l. apply pow2_pos.
Qed.


Lemma ilog2_spec (x : Q) : 0 < x -> pow2 (ilog2 x) <= x /\ x < pow2 (ilog2 x + 1).
Proof.
  intros Hx. destruct (ilog2_guess x Hx) as [H1 H2]. unfold ilog2.
  set (k := (Z.log2 (Qnum x) - Z.log2 (Zpos (Qden x)))%Z) in *.
  destruct (Qle_bool (pow2 k) x) eqn:E.
  - apply Qle_bool_iff in E. split; assumption.
  - assert (Hlt : x < pow2 k).
    { apply Qnot_le_lt. intros H. apply Qle_bool_iff in H. congruence. }
    split; [apply Qlt_le_weak; exact H1|].
    replace (k - 1 + 1)%Z with k by lia. exact Hlt.
Qed.

Lemma ilog2_unique (x : Q) (e : Z) :
  pow2 e <= x -> x < pow2 (e + 1) -> ilog2 x = e.
Proof.
  intros H1 H2.
  assert (Hx : 0 < x) by (apply Qlt_le_trans with (pow2 e); [apply pow2_pos | exact H1]).
  destruct (ilog2_spec x Hx) as [S1 S2].
  assert (A : (ilog2 x < e + 1)%Z).
  { apply pow2_lt_inv. apply Qle_lt_trans with x; assumption. }
  assert (B : (e < ilog2 x + 1)%Z).
  { apply pow2_lt_inv. apply Qle_lt_trans with x; assumption. }
  lia.
Qed.

Lemma ilog2_comp (x y : Q) : 0 < x -> x == y -> ilog2 x = ilog2 y.
Proof.
  intros Hx E. symmetry. destruct (ilog2_spec x Hx) as [S1 S2].
  apply ilog2_unique; rewrite <- E; assumption.
Qed.

Lemma nearest_even_comp (m m' : Q) : m == m' -> nearest_even m = nearest_even m'.
Proof.
  intros E. unfold nearest_even. rewrite (Qfloor_comp _ _ E).
  assert (Ec : (m - inject_Z (Qfloor m') ?= 1 # 2)
               = (m' - inject_Z (Qfloor m') ?= 1 # 2)).
  { apply Qcompare_comp; [rewrite E; reflexivity | reflexivity]. }
  rewrite Ec. reflexivity.
Qed.

Lemma nearest_even_Z (z : Z) : nearest_even (inject_Z z) = z.
Proof.
  unfold nearest_even. rewrite Qfloor_Z.
  assert (E : (inject_Z z - inject_Z z ?= 1 # 2) = Lt).
  { apply (proj1 (Qlt_alt _ _)).
    setoid_replace (inject_Z z - inject_Z z) with 0 by ring. reflexivity. }
  rewrite E. reflexivity.
Qed.

Lemma nearest_even_floor (m : Q) :
  (Qfloor m <= nearest_even m <= Qfloor m + 1)%Z.
Proof.
  unfold nearest_even.
  destruct (m - inject_Z (Qfloor m) ?= 1 # 2); [destruct (Z.even (Qfloor m))| |]; lia.
Qed.

Lemma nearest_even_ge (m : Q) (a : Z) : inject_Z a <= m -> (a <= nearest_even m)%Z.
Proof.
  intros H. apply Z.le_trans with (Qfloor m); [|apply nearest_even_floor].
  rewrite <- (Qfloor_Z a). apply Qfloor_resp_le. exact H.
Qed.

Lemma nearest_even_le (m : Q) (b : Z) : m <= inject_Z b -> (nearest_even m <= b)%Z.
Proof.
  intros H.
  assert (Hf : (Qfloor m <= b)%Z).
  { rewrite <- (Qfloor_Z b). apply Qfloor_resp_le. exact H. }
  destruct (Z.eq_dec (Qfloor m) b) as [E|NE].
  - assert (Em : m == inject_Z b).
    { apply Qle_antisym; [exact H|]. rewrite <- E. apply Qfloor_le. }
    rewrite (nearest_even_comp _ _ Em), nearest_even_Z. lia.
  - pose proof (nearest_even_floor m). lia.
Qed.

Lemma nearest_even_err (m : Q) : Qabs (inject_Z (nearest_even m) - m) <= 1 # 2.
Proof.
  pose proof (Qfloor_le m) as H1. pose proof (Qlt_floor m) as H2.
  rewrite inject_Z_plus in H2. change (inject_Z 1) with 1 in H2.
  unfold nearest_even.
  destruct (m - inject_Z (Qfloor m) ?= 1 # 2) eqn:E.
  - apply (proj2 (Qeq_alt _ _)) in E.
    destruct (Z.even (Qfloor m)); [|rewrite inject_Z_plus; change (inject_Z 1) with 1];
      apply Qabs_Qle_condition; split; lra.
  - apply (proj2 (Qlt_alt _ _)) in E. apply Qabs_Qle_condition; split; lra.
  - apply (proj2 (Qgt_alt _ _)) in E. rewrite inject_Z_plus. change (inject_Z 1) with 1.
    apply Qabs_Qle_condition; split; lra.
Qed.


Lemma canonical_value (r t : Z) (y : Q) :
  canonical r t -> y == inject_Z r * pow2 t ->
  0 < y /\ (Z.max (ilog2 y) (-1022) - 52)%Z = t.
Proof.
  intros [Hr Hc] Ey.
  assert (Pt := pow2_pos t).
  assert (Hy : 0 < y).
  { rewrite Ey. apply Qmult_lt_0_compat; [|exact Pt].
    change 0 with (inject_Z 0). rewrite <- Zlt_Qlt. exact Hr. }
  split; [exact Hy|].
  destruct Hc as [[[H1 H2] Ht]|[H1 Ht]].
  - assert (E : ilog2 y = (t + 52)%Z).
    { apply ilog2_unique.
      - rewrite Ey, Z.add_comm, pow2_add. apply Qmult_le_compat_r; [|lra].
        rewrite <- pow2_inject by lia. rewrite <- Zle_Qle. exact H1.
      - rewrite Ey. replace (t + 52 + 1)%Z with (53 + t)%Z by lia.
        rewrite pow2_add. apply Qmult_lt_compat_r; [exact Pt|].
        rewrite <- pow2_inject by lia. rewrite <- Zlt_Qlt. exact H2. }
    rewrite E. lia.
  - subst t. destruct (ilog2_spec y Hy) as [S1 _].
    assert (A : (ilog2 y < -1022)%Z).
    { apply pow2_lt_inv. apply Qle_lt_trans with y; [exact S1|].
      rewrite Ey. replace (-1022)%Z with (52 + -1074)%Z by lia.
      rewrite pow2_add. apply Qmult_lt_compat_r; [exact Pt|].
      rewrite <- pow2_inject by lia. rewrite <- Zlt_Qlt. exact H1. }
    lia.
Qed.

Lemma round_pos_canonical (r t : Z) (y : Q) :
  canonical r t -> y == inject_Z r * pow2 t -> round_pos y == y.
Proof.
  intros Hc Ey. destruct (canonical_value r t y Hc Ey) as [Hy Et].
  unfold round_pos. rewrite Et.
  assert (Pt := pow2_pos t).
  assert (Em : y / pow2 t == inject_Z r).
  { rewrite Ey. field. intros E. rewrite E in Pt. discriminate. }
  rewrite (nearest_even_comp _ _ Em), nearest_even_Z. symmetry. exact Ey.
Qed.

Lemma round_pos_comp (x y : Q) : 0 < x -> x == y -> round_pos x == round_pos y.
Proof.
  intros Hx E. unfold round_pos. rewrite <- (ilog2_comp x y Hx E).
  set (u := pow2 (Z.max (ilog2 x) (-1022) - 52)).
  assert (Em : x / u == y / u) by (rewrite E; reflexivity).
  rewrite (nearest_even_comp _ _ Em). reflexivity.
Qed.

(** What [round_pos] returns is zero or a positive double. *)
Lemma round_pos_cases (x : Q) :
  0 < x ->
  round_pos x == 0 \/
  exists r t, canonical r t /\ round_pos x == inject_Z r * pow2 t.
Proof.
  intros Hx. destruct (ilog2_spec x Hx) as [S1 S2]. unfold round_pos.
  set (e := Z.max (ilog2 x) (-1022)).
  set (t := (e - 52)%Z). set (u := pow2 t).
  set (r := nearest_even (x / u)).
  assert (Pu : 0 < u) by apply pow2_pos.
  assert (Nu : ~ u == 0) by (intros E; rewrite E in Pu; discriminate).
  assert (Hm0 : 0 <= x / u).
  { apply Qlt_le_weak, Qlt_shift_div_l; [exact Pu | lra]. }
  assert (Hr0 : (0 <= r)%Z) by (apply nearest_even_ge; exact Hm0).
  destruct (Z.eq_dec r 0) as [Er|Nr].
  { left. rewrite Er. ring. }
  right.
  assert (Hupper : x / u < pow2 53 -> (r <= 2 ^ 53)%Z).
  { intros H. apply nearest_even_le. rewrite pow2_inject by lia. lra. }
  destruct (Z_le_gt_dec (-1022) (ilog2 x)) as [Hn|Hs].
  - assert (Ee : e = ilog2 x) by (unfold e; lia).
    assert (Hlo : pow2 52 <= x / u).
    { apply Qle_shift_div_l; [exact Pu|]. unfold u, t.
      rewrite <- pow2_add. replace (52 + (e - 52))%Z with e by lia.
      rewrite Ee. exact S1. }
    assert (Hhi : x / u < pow2 53).
    { apply Qlt_shift_div_r; [exact Pu|]. unfold u, t.
      rewrite <- pow2_add. replace (53 + (e - 52))%Z with (ilog2 x + 1)%Z by lia.
      exact S2. }
    assert (Hr1 : (2 ^ 52 <= r)%Z).
    { apply nearest_even_ge. rewrite pow2_inject by lia. exact Hlo. }
    assert (Hr2 : (r <= 2 ^ 53)%Z) by (apply Hupper; exact Hhi).
    destruct (Z.eq_dec r (2 ^ 53)) as [E53|N53].
    + exists (2 ^ 52)%Z, (t + 1)%Z. split.
      * split; [lia|]. left. split; [lia | unfold t; lia].
      * rewrite E53, pow2_succ. fold u.
        replace (2 ^ 53)%Z with (2 * 2 ^ 52)%Z by lia.
        rewrite inject_Z_mult. change (inject_Z 2) with 2. ring.
    + exists r, t. split; [|reflexivity].
      split; [lia|]. left. split; [lia | unfold t; lia].
  - assert (Ee : e = (-1022)%Z) by (unfold e; lia).
    assert (Et : t = (-1074)%Z) by (unfold t; lia).
    assert (Hhi : x / u < pow2 52).
    { apply Qlt_shift_div_r; [exact Pu|]. unfold u.
      rewrite <- pow2_add. rewrite Et. change (52 + -1074)%Z with (-1022)%Z.
      apply Qlt_le_trans with (pow2 (ilog2 x + 1)); [exact S2|].
      apply pow2_le. lia. }
    assert (Hr2 : (r <= 2 ^ 52)%Z).
    { apply nearest_even_le. rewrite pow2_inject by lia. lra. }
    exists r, t. split; [|reflexivity].
    split; [lia|].
    destruct (Z.eq_dec r (2 ^ 52)) as [E52|N52].
    + left. split; [lia | lia].
    + right. split; [lia | exact Et].
Qed.

Lemma round_comp (x y : Q) : x == y -> round x = round y.
Proof. intros E. unfold round. rewrite (Qred_complete _ _ E). reflexivity. Qed.

Lemma Qred_idem (x : Q) : Qred (Qred x) = Qred x.
Proof. apply Qred_complete, Qred_correct. Qed.

(** A positive value that [round_pos] leaves alone rounds to itself. *)
Lemma round_fixed_pos (y : Q) :
  0 < y -> round_pos y == y -> y <= DBL_MAX ->
  round y = Fin (Qred y) /\ round (- y) = Fin (- Qred y).
Proof.
  intros Hy Hfix Hmax.
  assert (Hr : 0 < Qred y) by (rewrite Qred_correct; exact Hy).
  assert (Efix : Qred (round_pos (Qred y)) = Qred y).
  { apply Qred_complete. rewrite <- Hfix at 2.
    apply round_pos_comp; [exact Hr | apply Qred_correct]. }
  assert (Hle : Qle_bool (Qred y) DBL_MAX = true).
  { apply Qle_bool_iff. rewrite Qred_correct. exact Hmax. }
  split.
  - unfold round. apply (proj1 (Qgt_alt _ _)) in Hr. rewrite Hr, Efix, Hle.
    reflexivity.
  - unfold round. rewrite Qred_opp.
    assert (Hn : (- Qred y ?= 0) = Lt).
    { apply (proj1 (Qlt_alt _ _)). clear - Hr. lra. }
    rewrite Hn.
    assert (Efix' : Qred (round_pos (- - Qred y)) = Qred y).
    { transitivity (Qred (round_pos (Qred y))); [|exact Efix].
      apply Qred_complete.
      apply round_pos_comp; [clear - Hr; lra | apply Qopp_opp]. }
    rewrite Efix', Hle. reflexivity.
Qed.

(** Rounding is idempotent: its result is a double. *)
Lemma round_idem (x y : Q) : round x = Fin y -> round y = Fin y.
Proof.
  unfold round at 1.
  destruct (Qred x ?= 0) eqn:Ec.
  - intros H. injection H as <-. reflexivity.
  - apply (proj2 (Qlt_alt _ _)) in Ec.
    assert (Hp : 0 < - Qred x) by lra.
    pose proof (round_pos_cases _ Hp) as Hcases.
    remember (round_pos (- Qred x)) as z eqn:Hzdef.
    destruct (Qle_bool (Qred z) DBL_MAX) eqn:Hle; [|discriminate].
    intros H. injection H as <-.
    apply Qle_bool_iff in Hle. rewrite Qred_correct in Hle.
    destruct Hcases as [E0|(r & t & Hc & Ez)].
    + assert (E : - Qred z == 0) by (rewrite Qred_correct, E0; reflexivity).
      rewrite (round_comp _ _ E).
      assert (Ez0 : Qred z = 0) by (apply (Qred_complete z 0), E0).
      rewrite Ez0. reflexivity.
    + destruct (canonical_value r t z Hc Ez) as [Hzpos _].
      destruct (round_fixed_pos z Hzpos (round_pos_canonical r t z Hc Ez) Hle) as [_ H2].
      assert (E : - Qred z == - z) by (rewrite Qred_correct; reflexivity).
      rewrite (round_comp _ _ E). exact H2.
  - apply (proj2 (Qgt_alt _ _)) in Ec.
    pose proof (round_pos_cases _ Ec) as Hcases.
    remember (round_pos (Qred x)) as z eqn:Hzdef.
    destruct (Qle_bool (Qred z) DBL_MAX) eqn:Hle; [|discriminate].
    intros H. injection H as <-.
    apply Qle_bool_iff in Hle. rewrite Qred_correct in Hle.
    destruct Hcases as [E0|(r & t & Hc & Ez)].
    + assert (Ez0 : Qred z = 0) by (apply (Qred_complete z 0), E0).
      rewrite Ez0. reflexivity.
    + destruct (canonical_value r t z Hc Ez) as [Hzpos _].
      destruct (round_fixed_pos z Hzpos (round_pos_canonical r t z Hc Ez) Hle) as [H1 _].
      assert (E : Qred z == z) by apply Qred_correct.
      rewrite (round_comp _ _ E). exact H1.
Qed.


Lemma rnd_output (x : xdouble) : is_output (rnd x).
Proof.
  destruct x as [q| | |]; cbn [rnd is_output]; try exact I.
  destruct (round q) as [y| | |] eqn:E; cbn [is_output]; try exact I.
  exact (round_idem q y E).
Qed.

Lemma is_double_spec (v : Q) :
  is_double v = true -> exists v', round v = Fin v' /\ v' == v /\ round v' = Fin v'.
Proof.
  unfold is_double. destruct (round v) as [y| | |] eqn:E; try discriminate.
  intros H. apply Qeq_bool_iff in H. exists y. split; [reflexivity|].
  split; [exact H | exact (round_idem v y E)].
Qed.

Lemma add_zero_r (x : xdouble) : is_output x -> add x (Fin 0) = x.
Proof.
  destruct x as [q| | |]; cbn [is_output]; intros H; try reflexivity.
  unfold add. cbn [X.add rnd].
  rewrite (round_comp (q + 0) q) by ring. exact H.
Qed.

Lemma add_zero_l (x : xdouble) : is_output x -> add (Fin 0) x = x.
Proof.
  destruct x as [q| | |]; cbn [is_output]; intros H; try reflexivity.
  unfold add. cbn [X.add rnd].
  rewrite (round_comp (0 + q) q) by ring. exact H.
Qed.

Lemma add_comm (x y : xdouble) : add x y = add y x.
Proof.
  unfold add. destruct x as [a| | |], y as [b| | |]; cbn [X.add rnd]; try reflexivity.
  apply round_comp. ring.
Qed.

Lemma mul_zero_l (v : Q) : mul (Fin 0) (Fin v) = Fin 0.
Proof.
  unfold mul. cbn [X.mul rnd]. rewrite (round_comp (0 * v) 0) by ring. reflexivity.
Qed.

Lemma mul_one_l (v : Q) : mul (Fin 1) (Fin v) = round v.
Proof. unfold mul. cbn [X.mul rnd]. apply round_comp. ring. Qed.

End Binary64Facts.

(** ** Order and error of rounding to binary64 *)
Module RoundingFacts.
Import Binary64 Binary64Facts.

Local Open Scope Q_scope.

Lemma nearest_even_mono (m m' : Q) :
  m <= m' -> (nearest_even m <= nearest_even m')%Z.
Proof.
  intros H. pose proof (Qfloor_resp_le _ _ H) as Hf.
  destruct (Z.eq_dec (Qfloor m) (Qfloor m')) as [E|NE].
  - unfold nearest_even. rewrite <- E.
    destruct (Qcompare (m - inject_Z (Qfloor m)) (1 # 2)) eqn:C1;
      destruct (Qcompare (m' - inject_Z (Qfloor m)) (1 # 2)) eqn:C2;
      try (apply (proj2 (Qeq_alt _ _)) in C1);
      try (apply (proj2 (Qlt_alt _ _)) in C1);
      try (apply (proj2 (Qgt_alt _ _)) in C1);
      try (apply (proj2 (Qeq_alt _ _)) in C2);
      try (apply (proj2 (Qlt_alt _ _)) in C2);
      try (apply (proj2 (Qgt_alt _ _)) in C2);
      try (destruct (Z.even (Qfloor m))); try lia; exfalso; lra.
  - pose proof (nearest_even_floor m). pose proof (nearest_even_floor m'). lia.
Qed.

Section Ulp.

Variable x : Q.
Hypothesis Hx : 0 < x.

Let e := Z.max (ilog2 x) (-1022).
Let u := pow2 (e - 52).

Lemma ulp_pos : 0 < u.
Proof. apply pow2_pos. Qed.

Lemma round_pos_ulp : round_pos x == inject_Z (nearest_even (x / u)) * u.
Proof. reflexivity. Qed.

Lemma round_pos_nonneg : 0 <= round_pos x.
Proof.
  rewrite round_pos_ulp. pose proof ulp_pos as Pu.
  assert (H0 : (0 <= nearest_even (x / u))%Z).
  { apply nearest_even_ge. change (inject_Z 0) with 0.
    apply Qlt_le_weak, Qlt_shift_div_l; [exact Pu | rewrite Qmult_0_l; exact Hx]. }
  apply Qmult_le_0_compat; [|lra].
  change 0 with (inject_Z 0). rewrite <- Zle_Qle. exact H0.
Qed.

Lemma round_pos_upper : round_pos x <= pow2 (e + 1).
Proof.
  rewrite round_pos_ulp. pose proof ulp_pos as Pu.
  destruct (ilog2_spec x Hx) as [_ S2].
  assert (Hm : x / u <= inject_Z (2 ^ 53)).
  { rewrite pow2_inject by lia. apply Qle_shift_div_r; [exact Pu|].
    unfold u. rewrite <- pow2_add. replace (53 + (e - 52))%Z with (e + 1)%Z by lia.
    apply Qlt_le_weak, Qlt_le_trans with (pow2 (ilog2 x + 1)); [exact S2|].
    apply pow2_le. unfold e. lia. }
  apply nearest_even_le in Hm. rewrite Zle_Qle in Hm.
  rewrite pow2_inject in Hm by lia.
  replace (e + 1)%Z with (53 + (e - 52))%Z by lia. rewrite pow2_add. fold u.
  apply Qmult_le_compat_r; [exact Hm | lra].
Qed.

Lemma round_pos_lower : (-1022 <= ilog2 x)%Z -> pow2 (ilog2 x) <= round_pos x.
Proof.
  intros Hn. rewrite round_pos_ulp. pose proof ulp_pos as Pu.
  destruct (ilog2_spec x Hx) as [S1 _].
  assert (Ee : e = ilog2 x) by (unfold e; lia).
  assert (Hm : inject_Z (2 ^ 52) <= x / u).
  { rewrite pow2_inject by lia. apply Qle_shift_div_l; [exact Pu|].
    unfold u. rewrite <- pow2_add. replace (52 + (e - 52))%Z with (ilog2 x) by lia.
    exact S1. }
  apply nearest_even_ge in Hm. rewrite Zle_Qle in Hm.
  rewrite pow2_inject in Hm by lia.
  replace (ilog2 x) with (52 + (e - 52))%Z at 1 by lia. rewrite pow2_add. fold u.
  apply Qmult_le_compat_r; [exact Hm | lra].
Qed.

(** The error of [round_pos] is at most half a unit in the last place. *)
Lemma round_pos_err : Qabs (round_pos x - x) <= pow2 (e - 53).
Proof.
  rewrite round_pos_ulp. pose proof ulp_pos as Pu.
  assert (Nu : ~ u == 0) by (intros E; rewrite E in Pu; discriminate).
  pose proof (nearest_even_err (x / u)) as He.
  apply Qabs_Qle_condition in He. destruct He as [H1 H2].
  assert (Eh : pow2 (e - 53) == (1 # 2) * u).
  { unfold u. replace (e - 53)%Z with (-1 + (e - 52))%Z by lia.
    rewrite pow2_add. reflexivity. }
  assert (Ex : x == x / u * u) by (field; exact Nu).
  set (n := inject_Z (nearest_even (x / u))) in *.
  set (m := x / u) in *.
  rewrite Eh. apply Qabs_Qle_condition. split.
  - setoid_replace (n * u - x) with ((n - m) * u) by (rewrite Ex at 1; ring).
    setoid_replace (- ((1 # 2) * u)) with ((- (1 # 2)) * u) by ring.
    apply Qmult_le_compat_r; lra.
  - setoid_replace (n * u - x) with ((n - m) * u) by (rewrite Ex at 1; ring).
    apply Qmult_le_compat_r; lra.
Qed.

End Ulp.

Lemma round_pos_mono (x y : Q) : 0 < x -> x <= y -> round_pos x <= round_pos y.
Proof.
  intros Hx Hxy.
  assert (Hy : 0 < y) by lra.
  destruct (ilog2_spec x Hx) as [X1 X2]. destruct (ilog2_spec y Hy) as [Y1 Y2].
  assert (Hle : (ilog2 x <= ilog2 y)%Z).
  { assert (H : (ilog2 x < ilog2 y + 1)%Z); [|lia].
    apply pow2_lt_inv. lra. }
  destruct (Z.eq_dec (Z.max (ilog2 x) (-1022)) (Z.max (ilog2 y) (-1022))) as [E|NE].
  - unfold round_pos. rewrite <- E.
    set (u := pow2 (Z.max (ilog2 x) (-1022) - 52)).
    assert (Pu : 0 < u) by apply pow2_pos.
    apply Qmult_le_compat_r; [|lra].
    rewrite <- Zle_Qle. apply nearest_even_mono.
    apply Qmult_le_compat_r; [exact Hxy|].
    apply Qlt_le_weak, Qinv_lt_0_compat, Pu.
  - assert (Hn : (-1022 <= ilog2 y)%Z) by lia.
    apply Qle_trans with (pow2 (Z.max (ilog2 x) (-1022) + 1));
      [apply round_pos_upper; exact Hx|].
    apply Qle_trans with (pow2 (ilog2 y)); [apply pow2_le; lia|].
    apply round_pos_lower; assumption.
Qed.

(** The value that [round] returns, by the sign of its argument. *)
Lemma round_value (x y : Q) :
  round x = Fin y ->
  (0 < x -> y == round_pos x /\ round_pos x <= DBL_MAX) /\
  (x == 0 -> y == 0) /\
  (x < 0 -> y == - round_pos (- x) /\ round_pos (- x) <= DBL_MAX).
Proof.
  unfold round. destruct (Qcompare (Qred x) 0) eqn:Ec.
  - apply (proj2 (Qeq_alt _ _)) in Ec. rewrite Qred_correct in Ec.
    intros H. assert (Ey : y = 0) by congruence. subst y.
    split; [intros; lra|]. split; [reflexivity | intros; lra].
  - apply (proj2 (Qlt_alt _ _)) in Ec. pose proof Ec as Ex. rewrite Qred_correct in Ex.
    remember (round_pos (- Qred x)) as z eqn:Hz.
    destruct (Qle_bool (Qred z) DBL_MAX) eqn:Hle; [|discriminate].
    intros H. assert (Ey : y = - Qred z) by congruence.
    apply Qle_bool_iff in Hle. rewrite Qred_correct in Hle.
    assert (Er : z == round_pos (- x)).
    { rewrite Hz. apply round_pos_comp; [lra | rewrite Qred_correct; reflexivity]. }
    split; [intros; lra|]. split; [intros; lra|].
    intros _. rewrite Er in Hle. split; [|exact Hle].
    rewrite Ey, Qred_correct, Er. reflexivity.
  - apply (proj2 (Qgt_alt _ _)) in Ec. pose proof Ec as Ex. rewrite Qred_correct in Ex.
    remember (round_pos (Qred x)) as z eqn:Hz.
    destruct (Qle_bool (Qred z) DBL_MAX) eqn:Hle; [|discriminate].
    intros H. assert (Ey : y = Qred z) by congruence.
    apply Qle_bool_iff in Hle. rewrite Qred_correct in Hle.
    assert (Er : z == round_pos x).
    { rewrite Hz. apply round_pos_comp; [exact Ec | apply Qred_correct]. }
    split; [|split; intros; lra].
    intros _. rewrite Er in Hle. split; [|exact Hle].
    rewrite Ey, Qred_correct, Er. reflexivity.
Qed.

(** Below the overflow threshold [round] is finite. *)
Lemma round_finite (x : Q) :
  (0 < x -> round_pos x <= DBL_MAX) ->
  (x < 0 -> round_pos (- x) <= DBL_MAX) ->
  exists y, round x = Fin y.
Proof.
  intros Hp Hn. unfold round. destruct (Qcompare (Qred x) 0) eqn:Ec.
  - eexists. reflexivity.
  - apply (proj2 (Qlt_alt _ _)) in Ec. pose proof Ec as Ex. rewrite Qred_correct in Ex.
    assert (Er : round_pos (- Qred x) == round_pos (- x)).
    { apply round_pos_comp; [lra | rewrite Qred_correct; reflexivity]. }
    assert (Hle : Qle_bool (Qred (round_pos (- Qred x))) DBL_MAX = true).
    { apply Qle_bool_iff. rewrite Qred_correct, Er. apply Hn, Ex. }
    rewrite Hle. eexists. reflexivity.
  - apply (proj2 (Qgt_alt _ _)) in Ec. pose proof Ec as Ex. rewrite Qred_correct in Ex.
    assert (Er : round_pos (Qred x) == round_pos x).
    { apply round_pos_comp; [exact Ec | apply Qred_correct]. }
    assert (Hle : Qle_bool (Qred (round_pos (Qred x))) DBL_MAX = true).
    { apply Qle_bool_iff. rewrite Qred_correct, Er. apply Hp, Ex. }
    rewrite Hle. eexists. reflexivity.
Qed.

(** [round] is monotone. *)
Lemma round_mono (x y x' y' : Q) :
  x <= y -> round x = Fin x' -> round y = Fin y' -> x' <= y'.
Proof.
  intros Hxy Rx Ry.
  destruct (round_value x x' Rx) as (Xp & Xz & Xn).
  destruct (round_value y y' Ry) as (Yp & Yz & Yn).
  destruct (Q_dec x 0) as [[Hx|Hx]|Hx]; destruct (Q_dec y 0) as [[Hy|Hy]|Hy].
  - destruct (Xn Hx) as [Ex _]. destruct (Yn Hy) as [Ey _]. rewrite Ex, Ey.
    assert (H : round_pos (- y) <= round_pos (- x)) by (apply round_pos_mono; lra).
    lra.
  - destruct (Xn Hx) as [Ex _]. destruct (Yp Hy) as [Ey _]. rewrite Ex, Ey.
    pose proof (round_pos_nonneg (- x) ltac:(lra)).
    pose proof (round_pos_nonneg y Hy). lra.
  - destruct (Xn Hx) as [Ex _]. rewrite Ex, (Yz Hy).
    pose proof (round_pos_nonneg (- x) ltac:(lra)). lra.
  - lra.
  - destruct (Xp Hx) as [Ex _]. destruct (Yp Hy) as [Ey _]. rewrite Ex, Ey.
    apply round_pos_mono; assumption.
  - lra.
  - lra.
  - destruct (Yp Hy) as [Ey _]. rewrite (Xz Hx), Ey.
    apply round_pos_nonneg, Hy.
  - rewrite (Xz Hx), (Yz Hy). lra.
Qed.

(** What [round] returns is in lowest terms. *)
Lemma round_reduced (x y : Q) : round x = Fin y -> Qred y = y.
Proof.
  unfold round. destruct (Qcompare (Qred x) 0).
  - intros H. assert (Ey : y = 0) by congruence. subst y. reflexivity.
  - remember (round_pos (- Qred x)) as z eqn:Hz.
    destruct (Qle_bool (Qred z) DBL_MAX); [|discriminate].
    intros H. assert (Ey : y = - Qred z) by congruence.
    rewrite Ey, Qred_opp, Qred_idem. reflexivity.
  - remember (round_pos (Qred x)) as z eqn:Hz.
    destruct (Qle_bool (Qred z) DBL_MAX); [|discriminate].
    intros H. assert (Ey : y = Qred z) by congruence.
    rewrite Ey. apply Qred_idem.
Qed.

Lemma round_to (x y c : Q) : round x = Fin y -> y == c -> Qred c = c -> round x = Fin c.
Proof.
  intros R E Hc. rewrite R. f_equal.
  rewrite <- (round_reduced x y R), <- Hc. apply Qred_complete, E.
Qed.

Lemma DBL_MAX_canonical : DBL_MAX == inject_Z (2 ^ 53 - 1) * pow2 971.
Proof.
  rewrite <- pow2_inject by lia. rewrite <- inject_Z_mult. unfold DBL_MAX.
  apply inject_Z_injective. reflexivity.
Qed.

Lemma round_pos_DBL_MAX : round_pos DBL_MAX == DBL_MAX.
Proof.
  apply (round_pos_canonical (2 ^ 53 - 1) 971); [|exact DBL_MAX_canonical].
  split; [lia|]. left. split; lia.
Qed.

Lemma DBL_MAX_pos : 0 < DBL_MAX.
Proof. reflexivity. Qed.

(** Every value of magnitude up to [DBL_MAX] rounds to a double. *)
Lemma round_fin (x : Q) : Qabs x <= DBL_MAX -> exists y, round x = Fin y.
Proof.
  intros H. apply Qabs_Qle_condition in H. destruct H as [H1 H2].
  apply round_finite; intros Hs; rewrite <- round_pos_DBL_MAX;
    apply round_pos_mono; lra.
Qed.

Lemma is_double_bound (d : Q) : is_double d = true -> Qabs d <= DBL_MAX.
Proof.
  intros Hd. destruct (is_double_spec d Hd) as (d' & R & E & _).
  destruct (round_value d d' R) as (Dp & Dz & Dn).
  apply Qabs_Qle_condition. pose proof DBL_MAX_pos as PM.
  destruct (Q_dec d 0) as [[H|H]|H].
  - destruct (Dn H) as [E1 E2]. lra.
  - destruct (Dp H) as [E1 E2]. lra.
  - lra.
Qed.

(** Rounding keeps a value between two doubles that enclose it. *)
Lemma round_between (lo hi x : Q) :
  is_double lo = true -> is_double hi = true -> lo <= x <= hi ->
  exists y, round x = Fin y /\ lo <= y <= hi.
Proof.
  intros Hlo Hhi [H1 H2].
  pose proof (is_double_bound lo Hlo) as Blo. pose proof (is_double_bound hi Hhi) as Bhi.
  apply Qabs_Qle_condition in Blo. apply Qabs_Qle_condition in Bhi.
  destruct (round_fin x) as [y R].
  { apply Qabs_Qle_condition. split; lra. }
  exists y. split; [exact R|].
  destruct (is_double_spec lo Hlo) as (lo' & Rlo & Elo & _).
  destruct (is_double_spec hi Hhi) as (hi' & Rhi & Ehi & _).
  pose proof (round_mono lo x lo' y H1 Rlo R).
  pose proof (round_mono x hi y hi' H2 R Rhi). lra.
Qed.

(** Doubles are multiples of the smallest positive one. *)
Lemma round_pos_grid (x : Q) :
  0 < x -> exists k : Z, round_pos x == inject_Z k * pow2 (-1074).
Proof.
  intros Hx. destruct (round_pos_cases x Hx) as [E0|(r & t & [Hr Hc] & E)].
  - exists 0%Z. rewrite E0. ring.
  - assert (Ht : (-1074 <= t)%Z) by (destruct Hc as [[_ H]|[_ H]]; lia).
    exists (r * 2 ^ (t + 1074))%Z. rewrite E, inject_Z_mult.
    rewrite pow2_inject by lia.
    replace t with ((t + 1074) + -1074)%Z at 1 by lia. rewrite pow2_add. ring.
Qed.

Lemma double_grid (d : Q) :
  is_double d = true -> exists k : Z, d == inject_Z k * pow2 (-1074).
Proof.
  intros Hd. destruct (is_double_spec d Hd) as (d' & R & E & _).
  destruct (round_value d d' R) as (Dp & Dz & Dn).
  destruct (Q_dec d 0) as [[H|H]|H].
  - destruct (Dn H) as [E1 _]. destruct (round_pos_grid (- d) ltac:(lra)) as [k Ek].
    exists (- k)%Z. rewrite <- E, E1, Ek, inject_Z_opp. ring.
  - destruct (Dp H) as [E1 _]. destruct (round_pos_grid d H) as [k Ek].
    exists k. rewrite <- E, E1, Ek. reflexivity.
  - exists 0%Z. rewrite H. ring.
Qed.

(** Two different doubles are at least the smallest positive double
    apart. *)
Lemma double_gap (a b : Q) :
  is_double a = true -> is_double b = true -> a < b -> pow2 (-1074) <= b - a.
Proof.
  intros Ha Hb Hlt.
  destruct (double_grid a Ha) as [ka Ea]. destruct (double_grid b Hb) as [kb Eb].
  pose proof (pow2_pos (-1074)) as Pt.
  assert (Hk : (ka < kb)%Z).
  { destruct (Z_lt_le_dec ka kb) as [H|H]; [exact H|]. exfalso.
    rewrite Zle_Qle in H.
    assert (inject_Z kb * pow2 (-1074) <= inject_Z ka * pow2 (-1074))
      by (apply Qmult_le_compat_r; lra).
    lra. }
  assert (Hk1 : (1 <= kb - ka)%Z) by lia.
  rewrite Zle_Qle in Hk1. unfold Zminus in Hk1.
  rewrite inject_Z_plus, inject_Z_opp in Hk1. change (inject_Z 1) with 1 in Hk1.
  rewrite Ea, Eb.
  setoid_replace (inject_Z kb * pow2 (-1074) - inject_Z ka * pow2 (-1074))
    with ((inject_Z kb + - inject_Z ka) * pow2 (-1074)) by ring.
  setoid_replace (pow2 (-1074)) with (1 * pow2 (-1074)) at 1 by ring.
  apply Qmult_le_compat_r; lra.
Qed.

Lemma is_double_of_round (x y : Q) : round x = Fin y -> is_double y = true.
Proof.
  intros R. unfold is_double. rewrite (round_idem x y R). apply Qeq_bool_iff. reflexivity.
Qed.

(** Within half a unit in the last place of [1], rounding gives [1]. *)
Lemma round_near_one (s : Q) :
  1 - pow2 (-54) <= s <= 1 + pow2 (-53) -> round s = Fin 1.
Proof.
  intros [H1 H2].
  assert (Rlo : round (1 - pow2 (-54)) = Fin 1) by (vm_compute; reflexivity).
  assert (Rhi : round (1 + pow2 (-53)) = Fin 1) by (vm_compute; reflexivity).
  destruct (round_fin s) as [y R].
  { apply Qabs_Qle_condition.
    assert (0 < pow2 (-54)) by apply pow2_pos.
    assert (pow2 (-54) <= 1) by (vm_compute; discriminate).
    assert (pow2 (-53) <= 1) by (vm_compute; discriminate).
    assert (2 <= DBL_MAX) by (vm_compute; discriminate).
    split; lra. }
  pose proof (round_mono _ _ _ _ H1 Rlo R).
  pose proof (round_mono _ _ _ _ H2 R Rhi).
  apply (round_to s y 1 R); [lra | reflexivity].
Qed.

(** The error of rounding a value between [0] and [1]. *)
Lemma round_unit_err (x y : Q) :
  0 <= x <= 1 -> round x = Fin y -> Qabs (y - x) <= pow2 (-54).
Proof.
  intros [H0 H1] R. destruct (round_value x y R) as (Xp & Xz & _).
  pose proof (pow2_pos (-54)) as P54.
  destruct (Q_dec x 0) as [[H|H]|H]; [lra| |].
  - destruct (Q_dec x 1) as [[Hl|Hl]|He]; [|lra|].
    + destruct (Xp H) as [E _].
      pose proof (round_pos_err x) as Herr.
      apply Qle_trans with (pow2 (Z.max (ilog2 x) (-1022) - 53)).
      * rewrite E. exact Herr.
      * apply pow2_le.
        assert (Hl2 : (ilog2 x < 0)%Z).
        { apply pow2_lt_inv. destruct (ilog2_spec x H) as [S1 _].
          change (pow2 0) with 1. lra. }
        lia.
    + assert (R1 : round x = Fin 1).
      { rewrite (round_comp x 1 He). vm_compute. reflexivity. }
      rewrite R in R1. injection R1 as ->.
      setoid_replace (1 - x) with 0 by lra. cbn. lra.
  - rewrite (Xz H). setoid_replace (0 - x) with 0 by lra. cbn. lra.
Qed.

(** The error of rounding, relative to the value, with the absolute part
    that is left below the smallest normal double. *)
Lemma round_err (x y : Q) :
  round x = Fin y -> Qabs (y - x) <= pow2 (-53) * Qabs x + pow2 (-1075).
Proof.
  intros R. destruct (round_value x y R) as (Xp & Xz & Xn).
  pose proof (pow2_pos (-53)) as P53. pose proof (pow2_pos (-1075)) as Pt.
  assert (Hpos : forall z, 0 < z ->
            pow2 (Z.max (ilog2 z) (-1022) - 53) <= pow2 (-53) * z + pow2 (-1075)).
  { intros z Hz. destruct (ilog2_spec z Hz) as [S1 _].
    destruct (Z_le_gt_dec (-1022) (ilog2 z)) as [Hn|Hs].
    - replace (Z.max (ilog2 z) (-1022) - 53)%Z with (-53 + ilog2 z)%Z by lia.
      rewrite pow2_add.
      assert (pow2 (-53) * pow2 (ilog2 z) <= pow2 (-53) * z)
        by (apply Qmult_le_l; assumption).
      lra.
    - replace (Z.max (ilog2 z) (-1022) - 53)%Z with (-1075)%Z by lia.
      assert (0 <= pow2 (-53) * z) by (apply Qmult_le_0_compat; lra).
      lra. }
  destruct (Q_dec x 0) as [[H|H]|H].
  - destruct (Xn H) as [E _]. pose proof (round_pos_err (- x)) as Herr.
    rewrite (Qabs_neg x) by lra.
    apply Qle_trans with (pow2 (Z.max (ilog2 (- x)) (-1022) - 53)); [|apply Hpos; lra].
    rewrite <- Qabs_opp.
    setoid_replace (- (y - x)) with (round_pos (- x) - - x) by (rewrite E; ring).
    exact Herr.
  - destruct (Xp H) as [E _]. pose proof (round_pos_err x) as Herr.
    rewrite (Qabs_pos x) by lra.
    apply Qle_trans with (pow2 (Z.max (ilog2 x) (-1022) - 53)); [|apply Hpos; exact H].
    rewrite E. exact Herr.
  - rewrite (Xz H). setoid_replace (0 - x) with 0 by lra.
    assert (0 <= pow2 (-53) * Qabs x).
    { apply Qmult_le_0_compat; [lra | apply Qabs_nonneg]. }
    cbn [Qabs Qnum Z.abs]. change (Qabs 0) with 0. lra.
Qed.

Lemma sub_fin (a b : Q) : sub (Fin a) (Fin b) = round (a - b).
Proof. reflexivity. Qed.

Lemma add_fin (a b : Q) : add (Fin a) (Fin b) = round (a + b).
Proof. reflexivity. Qed.

Lemma mul_fin (a b : Q) : mul (Fin a) (Fin b) = round (a * b).
Proof. reflexivity. Qed.

Lemma div_fin (a b : Q) : ~ b == 0 -> div (Fin a) (Fin b) = round (a / b).
Proof.
  intros Hb. unfold div, X.div_fin.
  destruct (Qeq_bool b 0) eqn:E; [|reflexivity].
  apply Qeq_bool_iff in E. contradiction.
Qed.

Lemma div_output (x y : xdouble) : is_output (div x y).
Proof.
  destruct x as [a| | |], y as [b| | |]; cbn [div is_output]; try exact I;
    try reflexivity; try apply rnd_output.
  - destruct (Qlt_le_dec b 0); exact I.
  - destruct (Qlt_le_dec b 0); exact I.
Qed.

(** The probability of the maximizing action as the machine computes it,
    and the rest to one: [lo], [c] and [hi] are the smallest cost value,
    the constraint and the largest cost value. *)
Lemma mixing_rounded (c lo hi : Q) :
  is_double c = true -> is_double lo = true -> is_double hi = true ->
  lo < c < hi -> hi - lo <= DBL_MAX ->
  exists a b p q,
    sub (Fin c) (Fin lo) = Fin a /\
    sub (Fin hi) (Fin lo) = Fin b /\
    div (Fin a) (Fin b) = Fin p /\
    sub (Fin 1) (Fin p) = Fin q /\
    0 < a <= b /\
    0 <= p <= 1 /\ 0 <= q <= 1 /\
    Qabs (q - (1 - p)) <= pow2 (-54) /\
    add (Fin p) (Fin q) = Fin 1.
Proof.
  intros Hc Hlo Hhi [H1 H2] HD.
  assert (Dt : is_double (pow2 (-1074)) = true) by (vm_compute; reflexivity).
  assert (Dm : is_double DBL_MAX = true) by (vm_compute; reflexivity).
  assert (D0 : is_double 0 = true) by reflexivity.
  assert (D1 : is_double 1 = true) by (vm_compute; reflexivity).
  pose proof (pow2_pos (-1074)) as Pt.
  pose proof (double_gap lo c Hlo Hc H1) as G1.
  pose proof (double_gap lo hi Hlo Hhi ltac:(lra)) as G2.
  destruct (round_between (pow2 (-1074)) DBL_MAX (c - lo) Dt Dm ltac:(lra))
    as (a & Ra & A1 & A2).
  destruct (round_between (pow2 (-1074)) DBL_MAX (hi - lo) Dt Dm ltac:(lra))
    as (b & Rb & B1 & B2).
  assert (Hab : a <= b) by (apply (round_mono (c - lo) (hi - lo)); [lra | assumption..]).
  assert (Nb : ~ b == 0) by lra.
  assert (Hq : 0 <= a / b <= 1).
  { split.
    - apply Qle_shift_div_l; lra.
    - apply Qle_shift_div_r; lra. }
  destruct (round_between 0 1 (a / b) D0 D1 Hq) as (p & Rp & P1 & P2).
  destruct (round_between 0 1 (1 - p) D0 D1 ltac:(lra)) as (q & Rq & Q1 & Q2).
  pose proof (round_unit_err (1 - p) q ltac:(lra) Rq) as Eq.
  exists a, b, p, q.
  split; [rewrite sub_fin; exact Ra|].
  split; [rewrite sub_fin; exact Rb|].
  split; [rewrite (div_fin a b Nb); exact Rp|].
  split; [rewrite sub_fin; exact Rq|].
  split; [lra|]. split; [lra|]. split; [lra|]. split; [exact Eq|].
  rewrite add_fin. apply round_near_one.
  apply Qabs_Qle_condition in Eq. destruct Eq as [E1 E2].
  assert (pow2 (-54) <= pow2 (-53)) by (apply pow2_le; lia).
  lra.
Qed.

Lemma Qabs_mult_bound (x y X Y : Q) :
  Qabs x <= X -> Qabs y <= Y -> Qabs (x * y) <= X * Y.
Proof.
  intros Hx Hy. rewrite Qabs_Qmult.
  apply Qmult_le_compat_nonneg; split; try apply Qabs_nonneg; assumption.
Qed.

(** The expected cost of the mixed policy as the machine computes it, for
    cost values of magnitude up to [m]: it misses the constraint [c] by a
    few units in the last place of [m] at most. *)
Lemma mixed_cost_error (c lo hi m : Q) :
  is_double c = true -> is_double lo = true -> is_double hi = true ->
  lo < c < hi ->
  Qabs lo <= m -> Qabs hi <= m -> m <= pow2 1022 ->
  exists e,
    add (mul (div (sub (Fin c) (Fin lo)) (sub (Fin hi) (Fin lo))) (Fin hi))
        (mul (sub (Fin 1) (div (sub (Fin c) (Fin lo)) (sub (Fin hi) (Fin lo))))
             (Fin lo))
    = Fin e /\
    Qabs (e - c) <= pow2 (-49) * m + pow2 (-1072).
Proof.
  intros Hc Hlo Hhi [H1 H2] Blo Bhi Hm.
  assert (K1 : 2 * pow2 1022 <= DBL_MAX) by (vm_compute; discriminate).
  assert (K2 : 2 * pow2 1022 * (1 + (1 # 9007199254740992)) + 2 * pow2 (-1075)
               <= DBL_MAX) by (vm_compute; discriminate).
  assert (Eu : pow2 (-53) == 1 # 9007199254740992) by reflexivity.
  assert (Eh : pow2 (-54) == 1 # 18014398509481984) by reflexivity.
  assert (Eg : pow2 (-49) == 1 # 562949953421312) by reflexivity.
  assert (Et : pow2 (-1072) == 8 * pow2 (-1075)).
  { change (-1072)%Z with (3 + -1075)%Z. rewrite pow2_add. reflexivity. }
  assert (Peta : 0 < pow2 (-1075)) by apply pow2_pos.
  assert (Heta : pow2 (-1075) <= 1 # 9223372036854775808) by (vm_compute; discriminate).
  remember (pow2 (-1075)) as eta eqn:Deta.
  remember (pow2 1022) as K eqn:DK.
  apply Qabs_Qle_condition in Blo. apply Qabs_Qle_condition in Bhi.
  assert (HD : hi - lo <= DBL_MAX) by lra.
  destruct (mixing_rounded c lo hi Hc Hlo Hhi (conj H1 H2) HD)
    as (a & b & p & q & Ea & Eb & Ep & Eq & [Ha Hab] & [P0 P1] & [Q0 Q1] & E4 & _).
  assert (Nb : ~ b == 0) by lra.
  rewrite Ea, Eb, Ep, Eq, !mul_fin.
  rewrite sub_fin in Ea, Eb. rewrite (div_fin a b Nb) in Ep.
  (* the two products *)
  assert (Aph : Qabs (p * hi) <= m).
  { setoid_replace m with (1 * m) by ring. apply Qabs_mult_bound.
    - apply Qabs_Qle_condition. lra.
    - apply Qabs_Qle_condition. lra. }
  assert (Aql : Qabs (q * lo) <= m).
  { setoid_replace m with (1 * m) by ring. apply Qabs_mult_bound.
    - apply Qabs_Qle_condition. lra.
    - apply Qabs_Qle_condition. lra. }
  destruct (round_fin (p * hi)) as [t1 R1]; [lra|].
  destruct (round_fin (q * lo)) as [t2 R2]; [lra|].
  rewrite R1, R2, add_fin.
  pose proof (round_err _ _ R1) as E5. pose proof (round_err _ _ R2) as E6.
  rewrite Eu, <- Deta in E5, E6.
  assert (B5 : Qabs (t1 - p * hi) <= (1 # 9007199254740992) * m + eta) by lra.
  assert (B6 : Qabs (t2 - q * lo) <= (1 # 9007199254740992) * m + eta) by lra.
  clear E5 E6.
  apply Qabs_Qle_condition in B5. apply Qabs_Qle_condition in B6.
  apply Qabs_Qle_condition in Aph. apply Qabs_Qle_condition in Aql.
  assert (At : Qabs (t1 + t2)
               <= 2 * m * (1 + (1 # 9007199254740992)) + 2 * eta).
  { apply Qabs_Qle_condition. lra. }
  destruct (round_fin (t1 + t2)) as [e R7]; [lra|].
  exists e. split; [exact R7|].
  pose proof (round_err _ _ R7) as E7. rewrite Eu, <- Deta in E7.
  assert (B7 : Qabs (e - (t1 + t2))
               <= (1 # 9007199254740992)
                  * (2 * m * (1 + (1 # 9007199254740992)) + 2 * eta) + eta) by lra.
  clear E7 At. apply Qabs_Qle_condition in B7.
  (* the errors of the difference, the quotient and the rest to one *)
  pose proof (round_err _ _ Ea) as E1. pose proof (round_err _ _ Eb) as E2.
  pose proof (round_err _ _ Ep) as E3.
  rewrite Eu, <- Deta in E1, E2, E3.
  rewrite (Qabs_pos (c - lo)) in E1 by lra.
  rewrite (Qabs_pos (hi - lo)) in E2 by lra.
  assert (Hr : 0 <= a / b <= 1).
  { split; [apply Qle_shift_div_l | apply Qle_shift_div_r]; lra. }
  rewrite (Qabs_pos (a / b)) in E3 by lra.
  assert (B3 : Qabs (p - a / b)
               <= (1 # 9007199254740992) + (1 # 9223372036854775808)) by lra.
  clear E3. rewrite Eh in E4.
  assert (X2 : Qabs (a / b * (b - (hi - lo)))
               <= 1 * ((1 # 9007199254740992) * (hi - lo) + eta)).
  { apply Qabs_mult_bound; [apply Qabs_Qle_condition; lra | exact E2]. }
  assert (X3 : Qabs ((p - a / b) * (hi - lo))
               <= ((1 # 9007199254740992) + (1 # 9223372036854775808)) * (hi - lo)).
  { apply Qabs_mult_bound; [exact B3 | apply Qabs_Qle_condition; lra]. }
  assert (X4 : Qabs ((q - (1 - p)) * lo) <= (1 # 18014398509481984) * m).
  { apply Qabs_mult_bound; [exact E4 | apply Qabs_Qle_condition; lra]. }
  assert (Id : p * hi + q * lo - c
               == (a - (c - lo)) - a / b * (b - (hi - lo))
                  + (p - a / b) * (hi - lo) + (q - (1 - p)) * lo).
  { field. exact Nb. }
  apply Qabs_Qle_condition in E1. apply Qabs_Qle_condition in X2.
  apply Qabs_Qle_condition in X3. apply Qabs_Qle_condition in X4.
  set (x2 := a / b * (b - (hi - lo))) in *.
  set (x3 := (p - a / b) * (hi - lo)) in *.
  set (x4 := (q - (1 - p)) * lo) in *.
  rewrite Eg, Et. apply Qabs_Qle_condition.
  split; lra.
Qed.

End RoundingFacts.

(** ** The LP step in binary64 *)
Module RoundedLpFacts.
Import Uct Ccs StdMapFacts LpFacts Binary64 Binary64Facts RoundingFacts.

Local Open Scope Q_scope.

Lemma const_policy_fold {V} (z : V) (cs : UcbStatistics) (acc : StdMap.t V) :
  StdMap.ascending (StdMap.keys acc ++ StdMap.keys cs) = true ->
  fold_left (fun policy action => StdMap.assign (fst action) z policy) cs acc
  = acc ++ map (fun kp => (fst kp, z)) cs.
Proof.
  revert acc. induction cs as [|[k p] cs IH]; intros acc Hasc; cbn [fold_left map].
  - rewrite app_nil_r. reflexivity.
  - cbn [fst]. rewrite assign_append.
    + rewrite IH.
      * rewrite <- app_assoc. reflexivity.
      * unfold StdMap.keys in *. rewrite map_app, <- app_assoc. exact Hasc.
    + eapply ascending_app_before. exact Hasc.
Qed.

Lemma rounded_zero_policy_find (cs : UcbStatistics) (k : ActionIdx) :
  StdMap.ok cs = true -> In k (StdMap.keys cs) ->
  StdMap.find k (Ccs64.zero_policy cs) = Some (Fin 0).
Proof.
  intros Hok Hin. unfold Ccs64.zero_policy.
  rewrite const_policy_fold by exact Hok. cbn [app].
  apply find_In.
  - unfold StdMap.ok, StdMap.keys. rewrite map_map. exact Hok.
  - apply in_map_iff in Hin as [[k' p] [<- Hin]].
    apply in_map_iff. exists (k', p). split; [reflexivity | exact Hin].
Qed.

Lemma ascending_not_in (k : ActionIdx) (l : list ActionIdx) :
  StdMap.ascending (k :: l) = true -> ~ In k l.
Proof.
  intros H Hin. apply ascending_cons in H as [Hall _].
  rewrite Forall_forall in Hall. apply Hall in Hin. lia.
Qed.

Lemma ascending_tail (l1 l2 : list ActionIdx) :
  StdMap.ascending (l1 ++ l2) = true -> StdMap.ascending l2 = true.
Proof.
  induction l1 as [|k l1 IH]; cbn [app]; intros H; [exact H|].
  apply ascending_cons in H as [_ H]. apply IH, H.
Qed.

(** Where [k] sits in a map with ascending keys, and that it sits nowhere
    else. *)
Lemma find_split {V} (cs : StdMap.t V) (k : ActionIdx) (p : V) :
  StdMap.ok cs = true ->
  StdMap.find k cs = Some p ->
  exists c1 c2,
    cs = c1 ++ (k, p) :: c2 /\
    ~ In k (StdMap.keys c1) /\ ~ In k (StdMap.keys c2).
Proof.
  intros Hok Hf. apply find_In in Hf; [|exact Hok].
  destruct (in_split _ _ Hf) as (c1 & c2 & E). exists c1, c2.
  split; [exact E|]. subst cs. unfold StdMap.ok, StdMap.keys in Hok.
  rewrite map_app in Hok. cbn [map fst] in Hok. split.
  - intros Hin. apply ascending_app_before in Hok.
    rewrite Forall_forall in Hok. apply Hok in Hin. lia.
  - apply ascending_tail in Hok. apply ascending_not_in in Hok. exact Hok.
Qed.

(** The loop of [expected_policy_cost] over entries of probability zero. *)
Lemma expected_fold_zeros (policy : Ccs64.Policy) (c : UcbStatistics) (acc : xdouble) :
  is_output acc ->
  (forall k, In k (StdMap.keys c) -> StdMap.find k policy = Some (Fin 0)) ->
  fold_left
    (fun acc cost_stat =>
       do expected_cost <- acc;
       do pr <- StdMap.find (fst cost_stat) policy;
       Some (add expected_cost (mul pr (Fin (action_value_ (snd cost_stat))))))
    c (Some acc) = Some acc.
Proof.
  intros Hacc. induction c as [|[k p] c IH]; intros Hz; [reflexivity|].
  cbn [fold_left bind fst snd]. rewrite (Hz k) by (left; reflexivity).
  cbn [bind]. rewrite mul_zero_l, add_zero_r by exact Hacc.
  apply IH. intros k' Hk'. apply Hz. right. exact Hk'.
Qed.

(** The loop over a policy with one entry that is not zero. *)
Lemma expected_fold_one (policy : Ccs64.Policy) (cs : UcbStatistics)
    (a : ActionIdx) (pa : UcbPair) (x : xdouble) :
  StdMap.ok cs = true ->
  StdMap.find a cs = Some pa ->
  StdMap.find a policy = Some x ->
  (forall k, In k (StdMap.keys cs) -> k <> a -> StdMap.find k policy = Some (Fin 0)) ->
  fold_left
    (fun acc cost_stat =>
       do expected_cost <- acc;
       do pr <- StdMap.find (fst cost_stat) policy;
       Some (add expected_cost (mul pr (Fin (action_value_ (snd cost_stat))))))
    cs (Some (Fin 0)) = Some (mul x (Fin (action_value_ pa))).
Proof.
  intros Hok Hfa Hx Hz.
  destruct (find_split cs a pa Hok Hfa) as (c1 & c2 & E & N1 & N2).
  assert (Hk : forall k, In k (StdMap.keys c1) \/ In k (StdMap.keys c2) ->
                         StdMap.find k policy = Some (Fin 0)).
  { intros k Hk. apply Hz.
    - rewrite E. unfold StdMap.keys in *. rewrite map_app. cbn [map fst].
      apply in_or_app. destruct Hk; [left | right; right]; assumption.
    - intros ->. destruct Hk; contradiction. }
  rewrite E, fold_left_app.
  rewrite expected_fold_zeros; [|reflexivity | intros k H; apply Hk; left; exact H].
  cbn [fold_left bind fst snd]. rewrite Hx. cbn [bind].
  assert (Ho : is_output (mul x (Fin (action_value_ pa)))) by apply rnd_output.
  rewrite add_zero_l by exact Ho.
  apply expected_fold_zeros; [exact Ho | intros k H; apply Hk; right; exact H].
Qed.

(** The loop over a policy with two entries that are not zero. *)
Lemma expected_fold_two (policy : Ccs64.Policy) (cs : UcbStatistics)
    (a b : ActionIdx) (pa pb : UcbPair) (x y : xdouble) :
  StdMap.ok cs = true ->
  a <> b ->
  StdMap.find a cs = Some pa ->
  StdMap.find b cs = Some pb ->
  StdMap.find a policy = Some x ->
  StdMap.find b policy = Some y ->
  (forall k, In k (StdMap.keys cs) -> k <> a -> k <> b ->
             StdMap.find k policy = Some (Fin 0)) ->
  fold_left
    (fun acc cost_stat =>
       do expected_cost <- acc;
       do pr <- StdMap.find (fst cost_stat) policy;
       Some (add expected_cost (mul pr (Fin (action_value_ (snd cost_stat))))))
    cs (Some (Fin 0))
  = Some (add (mul x (Fin (action_value_ pa))) (mul y (Fin (action_value_ pb)))).
Proof.
  revert a b pa pb x y.
  assert (Hord : forall a b pa pb x y,
             StdMap.ok cs = true -> (a < b)%nat ->
             StdMap.find a cs = Some pa -> StdMap.find b cs = Some pb ->
             StdMap.find a policy = Some x -> StdMap.find b policy = Some y ->
             (forall k, In k (StdMap.keys cs) -> k <> a -> k <> b ->
                        StdMap.find k policy = Some (Fin 0)) ->
             fold_left
               (fun acc cost_stat =>
                  do expected_cost <- acc;
                  do pr <- StdMap.find (fst cost_stat) policy;
                  Some (add expected_cost
                            (mul pr (Fin (action_value_ (snd cost_stat))))))
               cs (Some (Fin 0))
             = Some (add (mul x (Fin (action_value_ pa)))
                         (mul y (Fin (action_value_ pb))))).
  { intros a b pa pb x y Hok Hlt Hfa Hfb Hx Hy Hz.
    destruct (find_split cs a pa Hok Hfa) as (c1 & c2 & E & N1 & N2).
    assert (Hok2 : StdMap.ok c2 = true /\ Forall (fun k' => (a < k')%nat) (StdMap.keys c2)).
    { rewrite E in Hok. unfold StdMap.ok, StdMap.keys in Hok.
      rewrite map_app in Hok. cbn [map fst] in Hok.
      apply ascending_tail in Hok. apply ascending_cons in Hok as [H1 H2].
      split; assumption. }
    destruct Hok2 as [Hok2 Hgt].
    assert (Hb1 : ~ In b (StdMap.keys c1)).
    { intros Hin. rewrite E in Hok. unfold StdMap.ok, StdMap.keys in Hok.
      rewrite map_app in Hok. cbn [map fst] in Hok.
      apply ascending_app_before in Hok. rewrite Forall_forall in Hok.
      apply Hok in Hin. lia. }
    assert (Hfb2 : StdMap.find b c2 = Some pb).
    { apply find_In; [exact Hok2|]. apply find_In in Hfb; [|exact Hok].
      rewrite E in Hfb. apply in_app_or in Hfb as [Hin|[Heq|Hin]].
      - exfalso. apply Hb1. apply (in_map fst) in Hin. exact Hin.
      - injection Heq as Heq _. lia.
      - exact Hin. }
    destruct (find_split c2 b pb Hok2 Hfb2) as (d1 & d2 & E2 & M1 & M2).
    assert (Hk : forall k, In k (StdMap.keys c1) \/ In k (StdMap.keys d1)
                           \/ In k (StdMap.keys d2) ->
                           StdMap.find k policy = Some (Fin 0)).
    { intros k Hk.
      assert (Hkc2 : In k (StdMap.keys d1) \/ In k (StdMap.keys d2) ->
                     In k (StdMap.keys c2)).
      { intros H. rewrite E2. unfold StdMap.keys in *. rewrite map_app. cbn [map fst].
        apply in_or_app. destruct H; [left | right; right]; assumption. }
      apply Hz.
      - rewrite E. unfold StdMap.keys in *. rewrite map_app. cbn [map fst].
        apply in_or_app. destruct Hk as [H|H]; [left; exact H|].
        right. right. apply Hkc2, H.
      - intros ->. destruct Hk as [H|H]; [contradiction|].
        apply N2, Hkc2, H.
      - intros ->. destruct Hk as [H|[H|H]]; contradiction. }
    rewrite E, fold_left_app.
    rewrite expected_fold_zeros; [|reflexivity | intros k H; apply Hk; left; exact H].
    cbn [fold_left bind fst snd]. rewrite Hx. cbn [bind].
    assert (Ho : is_output (mul x (Fin (action_value_ pa)))) by apply rnd_output.
    rewrite add_zero_l by exact Ho.
    rewrite E2, fold_left_app.
    rewrite expected_fold_zeros;
      [|exact Ho | intros k H; apply Hk; right; left; exact H].
    cbn [fold_left bind fst snd]. rewrite Hy. cbn [bind].
    apply expected_fold_zeros;
      [apply rnd_output | intros k H; apply Hk; right; right; exact H]. }
  intros a b pa pb x y Hok Hne Hfa Hfb Hx Hy Hz.
  destruct (Nat.lt_total a b) as [Hlt|[Heq|Hgt]]; [|contradiction|].
  - apply (Hord a b); assumption.
  - rewrite add_comm. apply (Hord b a); try assumption.
    intros k Hk H1 H2. apply Hz; assumption.
Qed.

Lemma rounded_lp_step_cases (s : CostConstrainedStatistic)
    (feasible : list ActionIdx) (g : RandomGenerator)
    (a_max a_min : ActionIdx) (pmax pmin : UcbPair) :
  let cs := ucb_statistics_ (cost_statistic_ s) in
  let p := div (sub (Fin (cost_constraint s)) (Fin (action_value_ pmin)))
               (sub (Fin (action_value_ pmax)) (Fin (action_value_ pmin))) in
  extreme_actions cs feasible = Some (a_max, a_min) ->
  StdMap.find a_max cs = Some pmax ->
  StdMap.find a_min cs = Some pmin ->
  (a_max = a_min /\
   Ccs64.solve_LP_and_sample s feasible g
   = Some ((a_min, StdMap.assign a_min (Fin 1) (Ccs64.zero_policy cs)), g))
  \/
  (a_max <> a_min /\ cost_constraint s <= action_value_ pmin /\
   Ccs64.solve_LP_and_sample s feasible g
   = Some ((a_min, StdMap.assign a_min (Fin 1) (Ccs64.zero_policy cs)), g))
  \/
  (a_max <> a_min /\ action_value_ pmin < cost_constraint s /\
   action_value_ pmax <= cost_constraint s /\
   Ccs64.solve_LP_and_sample s feasible g
   = Some ((a_max, StdMap.assign a_max (Fin 1) (Ccs64.zero_policy cs)), g))
  \/
  (a_max <> a_min /\ action_value_ pmin < cost_constraint s /\
   cost_constraint s < action_value_ pmax /\
   Ccs64.solve_LP_and_sample s feasible g
   = Some ((if X.leb (Fin (fst (unif g))) p then a_max else a_min,
            StdMap.assign a_min (sub (Fin 1) p)
              (StdMap.assign a_max p (Ccs64.zero_policy cs))),
           snd (unif g))).
Proof.
  intros cs p Hext Hfmx Hfmn. unfold Ccs64.solve_LP_and_sample.
  fold cs. rewrite Hext. cbn [bind fst snd].
  destruct (Nat.eqb_spec a_min a_max) as [->|Hne].
  - left. split; reflexivity.
  - right. rewrite Hfmx, Hfmn. cbn [bind].
    destruct (Qle_bool (cost_constraint s) (action_value_ pmin)) eqn:E1.
    + left. apply Qle_bool_iff in E1. split; [congruence|]. split; [exact E1 | reflexivity].
    + right.
      assert (Hlt1 : action_value_ pmin < cost_constraint s).
      { apply Qnot_le_lt. intros H. apply Qle_bool_iff in H. congruence. }
      destruct (Qle_bool (action_value_ pmax) (cost_constraint s)) eqn:E2.
      * left. apply Qle_bool_iff in E2. split; [congruence|].
        split; [exact Hlt1|]. split; [exact E2 | reflexivity].
      * right.
        assert (Hlt2 : cost_constraint s < action_value_ pmax).
        { apply Qnot_le_lt. intros H. apply Qle_bool_iff in H. congruence. }
        split; [congruence|]. split; [exact Hlt1|]. split; [exact Hlt2|].
        unfold unif. cbn [fst snd]. fold p.
        destruct (X.leb (Fin (g 0%nat)) p); reflexivity.
Qed.

Lemma rounded_zero_policy_map (cs : UcbStatistics) :
  StdMap.ok cs = true ->
  Ccs64.zero_policy cs = map (fun kp => (fst kp, Fin 0)) cs.
Proof.
  intros Hok. unfold Ccs64.zero_policy. rewrite const_policy_fold by exact Hok.
  reflexivity.
Qed.

Lemma rounded_zero_policy_keys (cs : UcbStatistics) :
  StdMap.ok cs = true -> StdMap.keys (Ccs64.zero_policy cs) = StdMap.keys cs.
Proof.
  intros Hok. rewrite rounded_zero_policy_map by exact Hok.
  unfold StdMap.keys. rewrite map_map. reflexivity.
Qed.

Lemma rounded_zero_policy_ok (cs : UcbStatistics) :
  StdMap.ok cs = true -> StdMap.ok (Ccs64.zero_policy cs) = true.
Proof.
  intros Hok. unfold StdMap.ok. rewrite rounded_zero_policy_keys by exact Hok. exact Hok.
Qed.

(** The loop of the sum over entries that are zero. *)
Lemma sum_fold_zeros (c : Ccs64.Policy) (acc : xdouble) :
  is_output acc ->
  (forall k v, In (k, v) c -> v = Fin 0) ->
  fold_left (fun acc kp => add acc (snd kp)) c acc = acc.
Proof.
  intros Hacc. induction c as [|[k v] c IH]; intros Hz; [reflexivity|].
  cbn [fold_left snd]. rewrite (Hz k v) by (left; reflexivity).
  rewrite add_zero_r by exact Hacc.
  apply IH. intros k' v' H. apply (Hz k' v'). right. exact H.
Qed.

Lemma entries_zero (policy c : Ccs64.Policy) (a b : ActionIdx) :
  StdMap.ok policy = true ->
  (forall k, In k (StdMap.keys policy) -> k <> a -> k <> b ->
             StdMap.find k policy = Some (Fin 0)) ->
  (forall k v, In (k, v) c -> In (k, v) policy) ->
  ~ In a (StdMap.keys c) -> ~ In b (StdMap.keys c) ->
  forall k v, In (k, v) c -> v = Fin 0.
Proof.
  intros Hok Hz Hsub Na Nb k v Hin.
  assert (Hk : In k (StdMap.keys c)) by (apply (in_map fst) in Hin; exact Hin).
  assert (Hp : In (k, v) policy) by (apply Hsub; exact Hin).
  assert (Hf : StdMap.find k policy = Some v) by (apply find_In; assumption).
  assert (Hkp : In k (StdMap.keys policy)) by (apply (in_map fst) in Hp; exact Hp).
  rewrite (Hz k Hkp) in Hf.
  - congruence.
  - intros ->. contradiction.
  - intros ->. contradiction.
Qed.

(** The sum of a policy with one entry that is not zero. *)
Lemma sum_fold_one (policy : Ccs64.Policy) (a : ActionIdx) (x : xdouble) :
  StdMap.ok policy = true ->
  StdMap.find a policy = Some x ->
  is_output x ->
  (forall k, In k (StdMap.keys policy) -> k <> a ->
             StdMap.find k policy = Some (Fin 0)) ->
  rounded_policy_sum policy = x.
Proof.
  intros Hok Hfa Hx Hz.
  destruct (find_split policy a x Hok Hfa) as (c1 & c2 & E & N1 & N2).
  assert (Hz' : forall k, In k (StdMap.keys policy) -> k <> a -> k <> a ->
                          StdMap.find k policy = Some (Fin 0)) by auto.
  assert (Z1 : forall k v, In (k, v) c1 -> v = Fin 0).
  { apply (entries_zero policy c1 a a Hok Hz'); try assumption.
    intros k v H. rewrite E. apply in_or_app. left. exact H. }
  assert (Z2 : forall k v, In (k, v) c2 -> v = Fin 0).
  { apply (entries_zero policy c2 a a Hok Hz'); try assumption.
    intros k v H. rewrite E. apply in_or_app. right. right. exact H. }
  unfold rounded_policy_sum. rewrite E, fold_left_app.
  rewrite (sum_fold_zeros c1 (Fin 0)); [|reflexivity | exact Z1].
  cbn [fold_left snd]. rewrite add_zero_l by exact Hx.
  apply sum_fold_zeros; assumption.
Qed.

(** The sum of a policy with two entries that are not zero. *)
Lemma sum_fold_two (policy : Ccs64.Policy) (a b : ActionIdx) (x y : xdouble) :
  StdMap.ok policy = true ->
  a <> b ->
  StdMap.find a policy = Some x ->
  StdMap.find b policy = Some y ->
  is_output x -> is_output y ->
  (forall k, In k (StdMap.keys policy) -> k <> a -> k <> b ->
             StdMap.find k policy = Some (Fin 0)) ->
  rounded_policy_sum policy = add x y.
Proof.
  revert a b x y.
  assert (Hord : forall a b x y,
             StdMap.ok policy = true -> (a < b)%nat ->
             StdMap.find a policy = Some x -> StdMap.find b policy = Some y ->
             is_output x ->
             (forall k, In k (StdMap.keys policy) -> k <> a -> k <> b ->
                        StdMap.find k policy = Some (Fin 0)) ->
             rounded_policy_sum policy = add x y).
  { intros a b x y Hok Hlt Hfa Hfb Hx Hz.
    destruct (find_split policy a x Hok Hfa) as (c1 & c2 & E & N1 & N2).
    assert (Hok2 : StdMap.ok c2 = true).
    { rewrite E in Hok. unfold StdMap.ok, StdMap.keys in Hok.
      rewrite map_app in Hok. cbn [map fst] in Hok.
      apply ascending_tail in Hok. apply ascending_cons in Hok as [_ H2]. exact H2. }
    assert (Hb1 : ~ In b (StdMap.keys c1)).
    { intros Hin. rewrite E in Hok. unfold StdMap.ok, StdMap.keys in Hok.
      rewrite map_app in Hok. cbn [map fst] in Hok.
      apply ascending_app_before in Hok. rewrite Forall_forall in Hok.
      apply Hok in Hin. lia. }
    assert (Hfb2 : StdMap.find b c2 = Some y).
    { apply find_In; [exact Hok2|]. apply find_In in Hfb; [|exact Hok].
      rewrite E in Hfb. apply in_app_or in Hfb as [Hin|[Heq|Hin]].
      - exfalso. apply Hb1. apply (in_map fst) in Hin. exact Hin.
      - injection Heq as Heq _. lia.
      - exact Hin. }
    destruct (find_split c2 b y Hok2 Hfb2) as (d1 & d2 & E2 & M1 & M2).
    assert (Hc2 : forall k, In k (StdMap.keys d1) \/ In k (StdMap.keys d2) ->
                            In k (StdMap.keys c2)).
    { intros k H. rewrite E2. unfold StdMap.keys in *. rewrite map_app. cbn [map fst].
      apply in_or_app. destruct H; [left | right; right]; assumption. }
    assert (Z1 : forall k v, In (k, v) c1 -> v = Fin 0).
    { apply (entries_zero policy c1 a b Hok Hz); try assumption.
      intros k v H. rewrite E. apply in_or_app. left. exact H. }
    assert (Z2 : forall k v, In (k, v) d1 -> v = Fin 0).
    { apply (entries_zero policy d1 a b Hok Hz); try assumption.
      - intros k v H. rewrite E, E2. apply in_or_app. right. right.
        apply in_or_app. left. exact H.
      - intros H. apply N2, Hc2. left. exact H. }
    assert (Z3 : forall k v, In (k, v) d2 -> v = Fin 0).
    { apply (entries_zero policy d2 a b Hok Hz); try assumption.
      - intros k v H. rewrite E, E2. apply in_or_app. right. right.
        apply in_or_app. right. right. exact H.
      - intros H. apply N2, Hc2. right. exact H. }
    unfold rounded_policy_sum. rewrite E, fold_left_app.
    rewrite (sum_fold_zeros c1 (Fin 0)); [|reflexivity | exact Z1].
    cbn [fold_left snd]. rewrite add_zero_l by exact Hx.
    rewrite E2, fold_left_app.
    rewrite (sum_fold_zeros d1 x); [|exact Hx | exact Z2].
    cbn [fold_left snd].
    apply sum_fold_zeros; [|exact Z3].
    unfold add. apply rnd_output. }
  intros a b x y Hok Hne Hfa Hfb Hx Hy Hz.
  destruct (Nat.lt_total a b) as [Hlt|[Heq|Hgt]]; [|contradiction|].
  - apply (Hord a b); assumption.
  - rewrite add_comm. apply (Hord b a); try assumption.
    intros k Hk H1 H2. apply Hz; assumption.
Qed.

(** The expected cost of a policy that puts everything on one action whose
    cost value is a double: that value. *)
Lemma expected_cost_of_point_policy (s : CostConstrainedStatistic)
    (a : ActionIdx) (pa : UcbPair) :
  let cs := ucb_statistics_ (cost_statistic_ s) in
  StdMap.ok cs = true ->
  StdMap.find a cs = Some pa ->
  is_double (action_value_ pa) = true ->
  exists c,
    Ccs64.expected_policy_cost s (StdMap.assign a (Fin 1) (Ccs64.zero_policy cs))
    = Some (Fin c) /\
    c == action_value_ pa.
Proof.
  intros cs Hok Hfa Hd.
  destruct (is_double_spec _ Hd) as (c & Hr & Hc & _).
  exists c. split; [|exact Hc].
  unfold Ccs64.expected_policy_cost. fold cs.
  rewrite (expected_fold_one _ cs a pa (Fin 1) Hok Hfa).
  - rewrite mul_one_l, Hr. reflexivity.
  - apply find_assign_eq.
  - intros k Hk Hne. rewrite find_assign_neq by congruence.
    apply rounded_zero_policy_find; assumption.
Qed.

Lemma rounded_point_policy (cs : UcbStatistics) (a : ActionIdx) (pa : UcbPair) :
  StdMap.ok cs = true ->
  StdMap.find a cs = Some pa ->
  let policy := StdMap.assign a (Fin 1) (Ccs64.zero_policy cs) in
  StdMap.keys policy = StdMap.keys cs /\
  StdMap.find a policy = Some (Fin 1) /\
  (forall k, In k (StdMap.keys cs) -> k <> a -> StdMap.find k policy = Some (Fin 0)) /\
  rounded_policy_sum policy = Fin 1 /\
  (forall k x, StdMap.find k policy = Some x -> exists q, x = Fin q /\ 0 <= q <= 1).
Proof.
  intros Hok Hfa policy.
  assert (Hin : In a (StdMap.keys cs)) by (apply find_keys; eauto).
  pose proof (rounded_zero_policy_find cs a Hok Hin) as Hz.
  assert (Hk : StdMap.keys policy = StdMap.keys cs).
  { unfold policy. rewrite (keys_assign_found _ _ _ _ Hz).
    apply rounded_zero_policy_keys, Hok. }
  assert (Hpok : StdMap.ok policy = true).
  { apply assign_ok, rounded_zero_policy_ok, Hok. }
  assert (H1 : StdMap.find a policy = Some (Fin 1)) by apply find_assign_eq.
  assert (H0 : forall k, In k (StdMap.keys cs) -> k <> a ->
                         StdMap.find k policy = Some (Fin 0)).
  { intros k Hkin Hne. unfold policy. rewrite find_assign_neq by congruence.
    apply rounded_zero_policy_find; assumption. }
  split; [exact Hk|]. split; [exact H1|]. split; [exact H0|]. split.
  - apply (sum_fold_one policy a (Fin 1) Hpok H1).
    + vm_compute. reflexivity.
    + intros k Hkin Hne. apply H0; [rewrite <- Hk; exact Hkin | exact Hne].
  - intros k x Hf.
    assert (Hkin : In k (StdMap.keys cs)).
    { rewrite <- Hk. apply find_keys; [exact Hpok | eauto]. }
    destruct (Nat.eq_dec k a) as [->|Hne].
    + rewrite H1 in Hf. injection Hf as <-. exists 1. split; [reflexivity | lra].
    + rewrite (H0 k Hkin Hne) in Hf. injection Hf as <-.
      exists 0. split; [reflexivity | lra].
Qed.

Lemma rounded_two_point_policy (cs : UcbStatistics) (a b : ActionIdx)
    (pa pb : UcbPair) (x y : xdouble) :
  StdMap.ok cs = true ->
  a <> b ->
  StdMap.find a cs = Some pa ->
  StdMap.find b cs = Some pb ->
  let policy := StdMap.assign b y (StdMap.assign a x (Ccs64.zero_policy cs)) in
  StdMap.keys policy = StdMap.keys cs /\
  StdMap.find a policy = Some x /\
  StdMap.find b policy = Some y /\
  (forall k, In k (StdMap.keys cs) -> k <> a -> k <> b ->
             StdMap.find k policy = Some (Fin 0)) /\
  (is_output x -> is_output y -> rounded_policy_sum policy = add x y) /\
  (forall k v, StdMap.find k policy = Some v -> v = x \/ v = y \/ v = Fin 0).
Proof.
  intros Hok Hne Hfa Hfb policy.
  assert (Hina : In a (StdMap.keys cs)) by (apply find_keys; eauto).
  assert (Hinb : In b (StdMap.keys cs)) by (apply find_keys; eauto).
  pose proof (rounded_zero_policy_find cs a Hok Hina) as Hza.
  pose proof (rounded_zero_policy_find cs b Hok Hinb) as Hzb.
  assert (Hb1 : StdMap.find b (StdMap.assign a x (Ccs64.zero_policy cs)) = Some (Fin 0)).
  { rewrite find_assign_neq by congruence. exact Hzb. }
  assert (Hk : StdMap.keys policy = StdMap.keys cs).
  { unfold policy. rewrite (keys_assign_found _ _ _ _ Hb1).
    rewrite (keys_assign_found _ _ _ _ Hza). apply rounded_zero_policy_keys, Hok. }
  assert (Hpok : StdMap.ok policy = true).
  { apply assign_ok, assign_ok, rounded_zero_policy_ok, Hok. }
  assert (Hx : StdMap.find a policy = Some x).
  { unfold policy. rewrite find_assign_neq by congruence. apply find_assign_eq. }
  assert (Hy : StdMap.find b policy = Some y) by apply find_assign_eq.
  assert (H0 : forall k, In k (StdMap.keys cs) -> k <> a -> k <> b ->
                         StdMap.find k policy = Some (Fin 0)).
  { intros k Hkin H1 H2. unfold policy. rewrite !find_assign_neq by congruence.
    apply rounded_zero_policy_find; assumption. }
  split; [exact Hk|]. split; [exact Hx|]. split; [exact Hy|]. split; [exact H0|].
  split.
  - intros Ox Oy. apply (sum_fold_two policy a b x y Hpok Hne Hx Hy Ox Oy).
    intros k Hkin. apply H0. rewrite <- Hk. exact Hkin.
  - intros k v Hf.
    assert (Hkin : In k (StdMap.keys cs)).
    { rewrite <- Hk. apply find_keys; [exact Hpok | eauto]. }
    destruct (Nat.eq_dec k a) as [->|Na]; [left; congruence|].
    destruct (Nat.eq_dec k b) as [->|Nb]; [right; left; congruence|].
    right. right. rewrite (H0 k Hkin Na Nb) in Hf. congruence.
Qed.

Ltac rounded_common_part :=
  split; [eassumption|]; split; [assumption|]; split; [assumption|];
  split; [assumption|]; split; [assumption|]; split; [assumption|];
  split; [eassumption|].

(** C1: on a non-empty list of feasible, expanded actions the LP step,
    computed in binary64, returns a policy over the expanded actions that
    is zero outside [{a_max, a_min}], the feasible actions of largest and
    smallest cost value, and follows the three cases: everything on one
    action where there is one extreme action only or the constraint is
    not inside the range of the cost values, else the rounded quotient
    [p] on [a_max] and the rounded [1 - p] on [a_min].  Where the
    difference of the two extreme cost values does not overflow, every
    entry is a number between [0] and [1] and the entries add up to [1]:
    [p] and the rounded [1 - p] differ from a sum of [1] by no more than
    [2^-54], and the machine's sum of them is [1]. *)
Theorem lp_policy_three_cases_rounded (s : CostConstrainedStatistic)
    (feasible : list ActionIdx) (g : RandomGenerator) :
  let cs := ucb_statistics_ (cost_statistic_ s) in
  StdMap.ok cs = true ->
  feasible <> [] ->
  Forall (fun a => In a (StdMap.keys cs)) feasible ->
  is_double (cost_constraint s) = true ->
  (forall f pf, In f feasible -> StdMap.find f cs = Some pf ->
                is_double (action_value_ pf) = true) ->
  exists a_max a_min pmax pmin a policy g',
    extreme_actions cs feasible = Some (a_max, a_min) /\
    In a_max feasible /\ In a_min feasible /\
    StdMap.find a_max cs = Some pmax /\
    StdMap.find a_min cs = Some pmin /\
    (forall f pf, In f feasible -> StdMap.find f cs = Some pf ->
                  action_value_ pmin <= action_value_ pf <= action_value_ pmax) /\
    Ccs64.solve_LP_and_sample s feasible g = Some ((a, policy), g') /\
    StdMap.keys policy = StdMap.keys cs /\
    (forall k, In k (StdMap.keys cs) -> k <> a_max -> k <> a_min ->
               StdMap.find k policy = Some (Fin 0)) /\
    (a_max = a_min -> StdMap.find a_max policy = Some (Fin 1)) /\
    (cost_constraint s <= action_value_ pmin ->
     StdMap.find a_min policy = Some (Fin 1) /\
     (a_max <> a_min -> StdMap.find a_max policy = Some (Fin 0))) /\
    (action_value_ pmax <= cost_constraint s ->
     StdMap.find a_max policy = Some (Fin 1) /\
     (a_max <> a_min -> StdMap.find a_min policy = Some (Fin 0))) /\
    (a_max <> a_min ->
     action_value_ pmin < cost_constraint s < action_value_ pmax ->
     let p := div (sub (Fin (cost_constraint s)) (Fin (action_value_ pmin)))
                  (sub (Fin (action_value_ pmax)) (Fin (action_value_ pmin))) in
     StdMap.find a_max policy = Some p /\
     StdMap.find a_min policy = Some (sub (Fin 1) p) /\
     (action_value_ pmax - action_value_ pmin <= DBL_MAX ->
      exists p' q',
        p = Fin p' /\ sub (Fin 1) p = Fin q' /\
        Qabs (p' + q' - 1) <= pow2 (-54) /\
        add (Fin p') (Fin q') = Fin 1)) /\
    (action_value_ pmax - action_value_ pmin <= DBL_MAX ->
     rounded_policy_sum policy = Fin 1 /\
     forall k x, StdMap.find k policy = Some x -> exists q, x = Fin q /\ 0 <= q <= 1).
Proof.
  intros cs Hok Hne Hall Hdc Hdv.
  pose proof (feasible_found cs feasible Hok Hall) as Hfound.
  destruct (extreme_actions_spec cs feasible Hne Hfound)
    as (a_max & a_min & pmax & pmin & Hext & Hinmx & Hinmn & Hfmx & Hfmn & Hb & Hs).
  exists a_max, a_min, pmax, pmin.
  destruct (rounded_lp_step_cases s feasible g a_max a_min pmax pmin
              Hext Hfmx Hfmn)
    as [[Heq Hsol]|[(Hneq & Hc & Hsol)|[(Hneq & Hc1 & Hc2 & Hsol)|(Hneq & Hc1 & Hc2 & Hsol)]]];
    fold cs in Hsol.
  - (* a_max = a_min *)
    subst a_max.
    destruct (rounded_point_policy cs a_min pmin Hok Hfmn)
      as (Hk & Hf1 & Hf0 & Hsum & Hrange).
    do 3 eexists. rounded_common_part.
    split; [exact Hk|]. split; [intros; apply Hf0; assumption|].
    split; [intros; exact Hf1|].
    split; [intros; split; [exact Hf1 | congruence]|].
    split; [intros; split; [exact Hf1 | congruence]|].
    split; [congruence|].
    intros _. split; [exact Hsum | exact Hrange].
  - (* the constraint is not above the smallest cost value *)
    destruct (rounded_point_policy cs a_min pmin Hok Hfmn)
      as (Hk & Hf1 & Hf0 & Hsum & Hrange).
    pose proof (Hs Hneq) as Hlt.
    assert (Hkmx : In a_max (StdMap.keys cs)) by (apply find_keys; eauto).
    do 3 eexists. rounded_common_part.
    split; [exact Hk|]. split; [intros; apply Hf0; assumption|].
    split; [congruence|].
    split; [intros; split; [exact Hf1 | intros; apply Hf0; assumption]|].
    split; [intros; exfalso; lra|].
    split; [intros _ [? ?]; exfalso; lra|].
    intros _. split; [exact Hsum | exact Hrange].
  - (* the constraint is not below the largest cost value *)
    destruct (rounded_point_policy cs a_max pmax Hok Hfmx)
      as (Hk & Hf1 & Hf0 & Hsum & Hrange).
    assert (Hkmn : In a_min (StdMap.keys cs)) by (apply find_keys; eauto).
    do 3 eexists. rounded_common_part.
    split; [exact Hk|]. split; [intros; apply Hf0; assumption|].
    split; [congruence|].
    split; [intros; exfalso; lra|].
    split; [intros; split; [exact Hf1 | intros; apply Hf0; congruence]|].
    split; [intros _ [? ?]; exfalso; lra|].
    intros _. split; [exact Hsum | exact Hrange].
  - (* the constraint lies strictly between *)
    set (p := div (sub (Fin (cost_constraint s)) (Fin (action_value_ pmin)))
                  (sub (Fin (action_value_ pmax)) (Fin (action_value_ pmin)))) in *.
    destruct (rounded_two_point_policy cs a_max a_min pmax pmin p (sub (Fin 1) p)
                Hok Hneq Hfmx Hfmn)
      as (Hk & Hfa & Hfb & Hf0 & Hsum & Hvals).
    assert (Hmix : action_value_ pmax - action_value_ pmin <= DBL_MAX ->
              exists p' q',
                p = Fin p' /\ sub (Fin 1) p = Fin q' /\
                0 <= p' <= 1 /\ 0 <= q' <= 1 /\
                Qabs (p' + q' - 1) <= pow2 (-54) /\
                add (Fin p') (Fin q') = Fin 1).
    { intros HD.
      destruct (mixing_rounded (cost_constraint s) (action_value_ pmin)
                  (action_value_ pmax) Hdc (Hdv _ _ Hinmn Hfmn) (Hdv _ _ Hinmx Hfmx)
                  (conj Hc1 Hc2) HD)
        as (a' & b' & p' & q' & Ea & Eb & Ep & Eq & _ & Rp & Rq & Herr & Hadd).
      assert (Epp : p = Fin p') by (unfold p; rewrite Ea, Eb; exact Ep).
      exists p', q'. split; [exact Epp|]. split; [rewrite Epp; exact Eq|].
      split; [exact Rp|]. split; [exact Rq|]. split; [|exact Hadd].
      setoid_replace (p' + q' - 1) with (q' - (1 - p')) by ring. exact Herr. }
    do 3 eexists. rounded_common_part.
    split; [exact Hk|]. split; [intros; apply Hf0; assumption|].
    split; [congruence|].
    split; [intros; exfalso; lra|].
    split; [intros; exfalso; lra|].
    split.
    + intros _ _. split; [exact Hfa|]. split; [exact Hfb|].
      intros HD. destruct (Hmix HD) as (p' & q' & E1 & E2 & _ & _ & E3 & E4).
      exists p', q'. repeat split; assumption.
    + intros HD. destruct (Hmix HD) as (p' & q' & E1 & E2 & Rp & Rq & _ & E4).
      split.
      * rewrite Hsum.
        -- rewrite E2, E1. exact E4.
        -- apply div_output.
        -- unfold sub. apply rnd_output.
      * intros k x Hf. destruct (Hvals k x Hf) as [-> | [-> | ->]].
        -- exists p'. split; [exact E1 | exact Rp].
        -- exists q'. split; [exact E2 | exact Rq].
        -- exists 0. split; [reflexivity | lra].
Qed.

(** C6: where the smallest and the largest cost value of the feasible
    actions bracket the constraint, what [expected_policy_cost] returns
    for the policy of the LP step, every operation rounded to binary64.
    If the constraint equals one of the two cost values, or there is one
    extreme action only, the policy puts everything on one action and the
    expected cost is the constraint exactly.  If it lies strictly between
    them, the policy holds the rounded quotient [p] and the rounded
    [1 - p], and the expected cost is the rounded sum of the two rounded
    products; that is the constraint in real arithmetic, but not always in
    binary64.  In every case it misses the constraint by no more than
    [2^-49 * m + 2^-1072], where [m <= 2^1022] bounds the magnitude of the
    two cost values. *)
Theorem lp_expected_cost_is_rounded (s : CostConstrainedStatistic)
    (feasible : list ActionIdx) (g : RandomGenerator)
    (a_max a_min : ActionIdx) (pmax pmin : UcbPair) :
  let cs := ucb_statistics_ (cost_statistic_ s) in
  let p := div (sub (Fin (cost_constraint s)) (Fin (action_value_ pmin)))
               (sub (Fin (action_value_ pmax)) (Fin (action_value_ pmin))) in
  StdMap.ok cs = true ->
  feasible <> [] ->
  Forall (fun a => In a (StdMap.keys cs)) feasible ->
  extreme_actions cs feasible = Some (a_max, a_min) ->
  StdMap.find a_max cs = Some pmax ->
  StdMap.find a_min cs = Some pmin ->
  is_double (action_value_ pmax) = true ->
  is_double (action_value_ pmin) = true ->
  is_double (cost_constraint s) = true ->
  action_value_ pmin <= cost_constraint s <= action_value_ pmax ->
  exists a policy g' e,
    Ccs64.solve_LP_and_sample s feasible g = Some ((a, policy), g') /\
    Ccs64.expected_policy_cost s policy = Some e /\
    (a_max = a_min \/ cost_constraint s == action_value_ pmin
     \/ cost_constraint s == action_value_ pmax ->
     exists c, e = Fin c /\ c == cost_constraint s) /\
    (a_max <> a_min ->
     action_value_ pmin < cost_constraint s < action_value_ pmax ->
     StdMap.find a_max policy = Some p /\
     StdMap.find a_min policy = Some (sub (Fin 1) p) /\
     (forall k, In k (StdMap.keys cs) -> k <> a_max -> k <> a_min ->
                StdMap.find k policy = Some (Fin 0)) /\
     e = add (mul p (Fin (action_value_ pmax)))
             (mul (sub (Fin 1) p) (Fin (action_value_ pmin)))) /\
    (forall m,
        Qabs (action_value_ pmin) <= m -> Qabs (action_value_ pmax) <= m ->
        m <= pow2 1022 ->
        exists c,
          e = Fin c /\
          Qabs (c - cost_constraint s) <= pow2 (-49) * m + pow2 (-1072)).
Proof.
  intros cs p Hok Hne Hall Hext Hfmx Hfmn Hdmax Hdmin Hdc [Hlo Hhi].
  assert (Hexact : forall c m,
             c == cost_constraint s -> Qabs (action_value_ pmin) <= m ->
             Qabs (c - cost_constraint s) <= pow2 (-49) * m + pow2 (-1072)).
  { intros c m Ec Hm.
    setoid_replace (c - cost_constraint s) with 0 by (rewrite Ec; ring).
    change (Qabs 0) with 0.
    pose proof (Qabs_nonneg (action_value_ pmin)).
    pose proof (pow2_pos (-49)). pose proof (pow2_pos (-1072)).
    assert (0 <= pow2 (-49) * m) by (apply Qmult_le_0_compat; lra).
    lra. }
  destruct (rounded_lp_step_cases s feasible g a_max a_min pmax pmin
              Hext Hfmx Hfmn)
    as [[Heq Hsol]|[(Hneq & Hc & Hsol)|[(Hneq & Hc1 & Hc2 & Hsol)|(Hneq & Hc1 & Hc2 & Hsol)]]];
    fold cs in Hsol; fold p in Hsol.
  - subst a_max. rewrite Hfmx in Hfmn. injection Hfmn as <-.
    destruct (expected_cost_of_point_policy s a_min pmax Hok Hfmx Hdmax)
      as (c & He & Hc).
    assert (Ec : c == cost_constraint s) by (rewrite Hc; lra).
    do 3 eexists. exists (Fin c). split; [exact Hsol|]. split; [exact He|].
    split; [|split; [intros H; congruence|]].
    + intros _. exists c. split; [reflexivity | exact Ec].
    + intros m Hm _ _. exists c. split; [reflexivity | apply Hexact; assumption].
  - destruct (expected_cost_of_point_policy s a_min pmin Hok Hfmn Hdmin)
      as (c & He & Hcv).
    assert (Ec : c == cost_constraint s) by (rewrite Hcv; lra).
    do 3 eexists. exists (Fin c). split; [exact Hsol|]. split; [exact He|].
    split; [|split; [intros _ [H _]; lra|]].
    + intros _. exists c. split; [reflexivity | exact Ec].
    + intros m Hm _ _. exists c. split; [reflexivity | apply Hexact; assumption].
  - destruct (expected_cost_of_point_policy s a_max pmax Hok Hfmx Hdmax)
      as (c & He & Hcv).
    assert (Ec : c == cost_constraint s) by (rewrite Hcv; lra).
    do 3 eexists. exists (Fin c). split; [exact Hsol|]. split; [exact He|].
    split; [|split; [intros _ [_ H]; lra|]].
    + intros _. exists c. split; [reflexivity | exact Ec].
    + intros m Hm _ _. exists c. split; [reflexivity | apply Hexact; assumption].
  - assert (Hina : In a_max (StdMap.keys cs)) by (apply find_keys; eauto).
    assert (Hinb : In a_min (StdMap.keys cs)) by (apply find_keys; eauto).
    set (policy := StdMap.assign a_min (sub (Fin 1) p)
                     (StdMap.assign a_max p (Ccs64.zero_policy cs))) in *.
    assert (Hpa : StdMap.find a_max policy = Some p).
    { unfold policy. rewrite find_assign_neq by congruence. apply find_assign_eq. }
    assert (Hpb : StdMap.find a_min policy = Some (sub (Fin 1) p)).
    { unfold policy. apply find_assign_eq. }
    assert (Hp0 : forall k, In k (StdMap.keys cs) -> k <> a_max -> k <> a_min ->
                            StdMap.find k policy = Some (Fin 0)).
    { intros k Hk H1 H2. unfold policy.
      rewrite !find_assign_neq by congruence. apply rounded_zero_policy_find; assumption. }
    do 3 eexists. eexists. split; [exact Hsol|]. split.
    + unfold Ccs64.expected_policy_cost. fold cs.
      exact (expected_fold_two policy cs a_max a_min pmax pmin _ _ Hok Hneq Hfmx Hfmn
               Hpa Hpb Hp0).
    + split; [intros [H|[H|H]]; [congruence | lra | lra]|].
      split; [intros _ _; repeat split; assumption|].
      intros m Hm1 Hm2 Hm3.
      exact (mixed_cost_error (cost_constraint s) (action_value_ pmin)
               (action_value_ pmax) m Hdc Hdmin Hdmax (conj Hc1 Hc2) Hm1 Hm2 Hm3).
Qed.

End RoundedLpFacts.

(** ** Running means (uct_statistic.h, cost_constrained_statistic.h) *)
Module MeanFacts.
Import Uct Ccs StdMapFacts.

Local Open Scope Q_scope.

Lemma index_assign {V} (d : V) (m : StdMap.t V) (k k' : ActionIdx) (v : V) :
  StdMap.index d k' (StdMap.assign k v m)
  = if (k' =? k)%nat then v else StdMap.index d k' m.
Proof.
  unfold StdMap.index. destruct (Nat.eqb_spec k' k) as [->|Hne].
  - rewrite find_assign_eq. reflexivity.
  - rewrite find_assign_neq by congruence. reflexivity.
Qed.


Lemma incr_no_wrap (z : Z) :
  (0 <= z < Unsigned.modulus - 1)%Z -> Unsigned.incr z = (z + 1)%Z.
Proof.
  intros H. unfold Unsigned.incr, Unsigned.wrap. apply Z.mod_small. lia.
Qed.





(** *** The two statistics of a node under a run of updates *)





Lemma mean_of_product (v s : Q) (n : nat) :
  n <> 0%nat -> v * inject_Z (Z.of_nat n) == s -> v == s / inject_Z (Z.of_nat n).
Proof.
  intros Hn H. rewrite <- H. field.
  intros H0. unfold Qeq in H0. cbn [Qnum Qden inject_Z] in H0. lia.
Qed.

(** *** Values within their returns *)





End MeanFacts.

(** ** Step costs, normalised values and the two maps side by side *)
Module BackupFacts.
Import Uct Ccs StdMapFacts MeanFacts.

Local Open Scope Q_scope.







(** *** Values within the bounds *)



End BackupFacts.

(** ** The reward map and the cost map side by side *)
Module LockstepFacts.
Import Uct Ccs StdMapFacts MeanFacts.

Lemma counts_of_assign (m : UcbStatistics) (k : ActionIdx) (p : UcbPair) :
  counts_of (StdMap.assign k p m) = StdMap.assign k (action_count_ p) (counts_of m).
Proof.
  induction m as [|[k' p'] m IH]; [reflexivity|].
  cbn [StdMap.assign counts_of map fst snd].
  destruct (Nat.compare k k'); cbn [counts_of map fst snd]; [reflexivity..|].
  f_equal. exact IH.
Qed.

Lemma counts_of_index (m : UcbStatistics) (a : ActionIdx) :
  action_count_ (StdMap.index UcbPair_init a m) = StdMap.index 0%Z a (counts_of m).
Proof.
  unfold StdMap.index.
  induction m as [|[k' p'] m IH]; [reflexivity|].
  cbn [StdMap.find counts_of map fst snd].
  destruct (Nat.compare a k'); [reflexivity | reflexivity | exact IH].
Qed.

Lemma counts_of_keys (m : UcbStatistics) :
  StdMap.keys (counts_of m) = StdMap.keys m.
Proof.
  unfold StdMap.keys, counts_of. rewrite map_map. reflexivity.
Qed.

Lemma backprop_counts (s : UctStatistic) (b : Reward) :
  counts_of (ucb_statistics_ (update_statistics_from_backpropagated s b))
  = StdMap.assign (fst (Uct.collected_reward_ s))
      (Unsigned.incr
         (StdMap.index 0%Z (fst (Uct.collected_reward_ s))
                       (counts_of (ucb_statistics_ s))))
      (counts_of (ucb_statistics_ s)).
Proof.
  unfold update_statistics_from_backpropagated. cbn [ucb_statistics_].
  rewrite counts_of_assign. cbn [action_count_]. rewrite counts_of_index.
  reflexivity.
Qed.

Lemma run_updates_lockstep (us : list BackpropUpdate) :
  forall s : CostConstrainedStatistic,
    Forall same_action us ->
    counts_of (ucb_statistics_ (reward_statistic_ s))
    = counts_of (ucb_statistics_ (cost_statistic_ s)) ->
    total_node_visits_ (reward_statistic_ s) = total_node_visits_ (cost_statistic_ s) ->
    counts_of (ucb_statistics_ (reward_statistic_ (run_updates s us)))
    = counts_of (ucb_statistics_ (cost_statistic_ (run_updates s us))) /\
    total_node_visits_ (reward_statistic_ (run_updates s us))
    = total_node_visits_ (cost_statistic_ (run_updates s us)).
Proof.
  unfold run_updates.
  induction us as [|u us IH]; intros s Hall Hc Ht; [split; assumption|].
  cbn [fold_left]. inversion Hall as [|u' us' Hu Hus]; subst.
  apply IH; [exact Hus| |].
  - destruct u as [h|r c child]; [exact Hc|].
    cbn [same_action] in Hu.
    cbn [apply_update update_statistic reward_statistic_ cost_statistic_
         set_collected collected_reward_ collected_cost_].
    rewrite !backprop_counts.
    cbn [set_collected_reward Uct.collected_reward_ ucb_statistics_].
    rewrite Hc, Hu. reflexivity.
  - destruct u as [h|r c child];
      cbn [apply_update update_statistic update_from_heuristic reward_statistic_
           cost_statistic_ set_collected update_statistics_from_backpropagated
           update_from_heuristic_from_backpropagated total_node_visits_
           set_collected_reward];
      rewrite Ht; reflexivity.
Qed.

(** X5: where every update stores one action with the reward and with the
    cost, the reward map and the cost map of a node have the same keys,
    hence the same size (what [calculate_ucb_values] expects), the same
    count for every action and the same number of node visits. *)
Theorem reward_and_cost_maps_in_lockstep (num_actions : nat) (p : MctsParameters)
    (us : list BackpropUpdate) :
  Forall same_action us ->
  let s := run_updates (Ccs.init num_actions p) us in
  StdMap.keys (ucb_statistics_ (reward_statistic_ s))
  = StdMap.keys (ucb_statistics_ (cost_statistic_ s)) /\
  StdMap.size (ucb_statistics_ (reward_statistic_ s))
  = StdMap.size (ucb_statistics_ (cost_statistic_ s)) /\
  (forall a,
      action_count_ (StdMap.index UcbPair_init a (ucb_statistics_ (reward_statistic_ s)))
      = action_count_ (StdMap.index UcbPair_init a (ucb_statistics_ (cost_statistic_ s)))) /\
  total_node_visits_ (reward_statistic_ s) = total_node_visits_ (cost_statistic_ s).
Proof.
  intros Hall s.
  destruct (run_updates_lockstep us (Ccs.init num_actions p) Hall eq_refl eq_refl)
    as [Hc Ht].
  fold s in Hc, Ht.
  assert (Hk : StdMap.keys (ucb_statistics_ (reward_statistic_ s))
               = StdMap.keys (ucb_statistics_ (cost_statistic_ s))).
  { rewrite <- (counts_of_keys (ucb_statistics_ (reward_statistic_ s))), Hc.
    apply counts_of_keys. }
  split; [exact Hk|]. split.
  - unfold StdMap.size. rewrite <- !(length_map fst).
    exact (f_equal (@length _) Hk).
  - split; [|exact Ht]. intros a. rewrite !counts_of_index, Hc. reflexivity.
Qed.

End LockstepFacts.

(** ** [UctStatistic::get_policy] *)
Module UctPolicyFacts.
Import Uct StdMapFacts BestActionFacts.

Local Open Scope Q_scope.

Lemma get_policy_fold (cs : UcbStatistics) (acc : Policy) :
  StdMap.ascending (StdMap.keys acc ++ StdMap.keys cs) = true ->
  fold_left (fun policy it => StdMap.assign (fst it) (action_value_ (snd it)) policy)
            cs acc
  = acc ++ map (fun it => (fst it, action_value_ (snd it))) cs.
Proof.
  revert acc. induction cs as [|[k p] cs IH]; intros acc Hasc; cbn [fold_left map].
  - rewrite app_nil_r. reflexivity.
  - cbn [fst snd]. rewrite LpFacts.assign_append.
    + rewrite IH.
      * rewrite <- app_assoc. reflexivity.
      * unfold StdMap.keys in *. rewrite map_app, <- app_assoc. exact Hasc.
    + eapply LpFacts.ascending_app_before. exact Hasc.
Qed.

Lemma find_map_value {V W} (h : V -> W) (m : StdMap.t V) (k : ActionIdx) :
  StdMap.find k (map (fun it => (fst it, h (snd it))) m)
  = option_map h (StdMap.find k m).
Proof.
  induction m as [|[k' v] m IH]; [reflexivity|].
  cbn [map StdMap.find fst snd].
  destruct (Nat.compare k k'); [reflexivity | reflexivity | exact IH].
Qed.

Lemma best_action_is_maximal (s : UctStatistic) :
  ucb_statistics_ s <> [] ->
  StdMap.ok (ucb_statistics_ s) = true ->
  exists best pb,
    get_best_action s = Some best /\
    StdMap.find best (ucb_statistics_ s) = Some pb /\
    forall k p, StdMap.find k (ucb_statistics_ s) = Some p ->
                action_value_ p <= action_value_ pb.
Proof.
  unfold get_best_action. intros Hne Hok.
  destruct (ucb_statistics_ s) as [|[k0 p0] rest] eqn:Em; [congruence|].
  cbn [fold_left].
  rewrite (best_step_ge (action_value_ p0) k0 k0 p0) by lra.
  destruct (best_fold rest (action_value_ p0) k0)
    as [[Heq Hall]|(l1 & k & p & l2 & Hrest & Heq & Hlt & H1 & H2)].
  - exists k0, p0. rewrite Heq. split; [reflexivity|].
    split; [apply find_In; [assumption | left; reflexivity]|].
    intros k p Hf. apply find_In in Hf; [|assumption].
    destruct Hf as [[= <- <-]|Hin]; [lra|].
    rewrite Forall_forall in Hall. exact (Hall _ Hin).
  - exists k, p. rewrite Heq. split; [reflexivity|]. split.
    { apply find_In; [assumption|]. right. rewrite Hrest.
      apply in_or_app. right. left. reflexivity. }
    intros k' p' Hf. apply find_In in Hf; [|assumption].
    destruct Hf as [[= <- <-]|Hin]; [lra|].
    rewrite Hrest in Hin. apply in_app_or in Hin as [Hin|[[= <- <-]|Hin]].
    + rewrite Forall_forall in H1. specialize (H1 _ Hin). cbn in H1. lra.
    + lra.
    + rewrite Forall_forall in H2. exact (H2 _ Hin).
Qed.

(** X6: the policy of a UCT statistic holds, for exactly the expanded
    actions, their action values; [get_best_action] returns an action whose
    entry in that policy no other entry exceeds. *)
Theorem uct_policy_is_the_action_values (s : UctStatistic) :
  StdMap.ok (ucb_statistics_ s) = true ->
  StdMap.keys (get_policy s) = StdMap.keys (ucb_statistics_ s) /\
  (forall k,
      StdMap.find k (get_policy s)
      = option_map action_value_ (StdMap.find k (ucb_statistics_ s))) /\
  (ucb_statistics_ s <> [] ->
   exists best vb,
     get_best_action s = Some best /\
     StdMap.find best (get_policy s) = Some vb /\
     forall k v, StdMap.find k (get_policy s) = Some v -> v <= vb).
Proof.
  intros Hok.
  assert (Hmap : get_policy s
                 = map (fun it => (fst it, action_value_ (snd it))) (ucb_statistics_ s)).
  { unfold get_policy. rewrite get_policy_fold; [reflexivity | exact Hok]. }
  assert (Hfind : forall k,
             StdMap.find k (get_policy s)
             = option_map action_value_ (StdMap.find k (ucb_statistics_ s))).
  { intros k. rewrite Hmap. apply find_map_value. }
  split.
  { rewrite Hmap. unfold StdMap.keys. rewrite map_map. reflexivity. }
  split; [exact Hfind|].
  intros Hne.
  destruct (best_action_is_maximal s Hne Hok) as (best & pb & Hb & Hf & Hmax).
  exists best, (action_value_ pb). split; [exact Hb|]. split.
  - rewrite Hfind, Hf. reflexivity.
  - intros k v Hk. rewrite Hfind in Hk.
    destruct (StdMap.find k (ucb_statistics_ s)) as [p|] eqn:Ep; [|discriminate].
    injection Hk as <-. exact (Hmax k p Ep).
Qed.

End UctPolicyFacts.

(** ** [UctStatistic::calculate_ucb_and_max_action] *)
Module UctMaxFacts.
Import Uct StdMapFacts.

Local Open Scope Q_scope.

Section WithLibm.

Context {L : LibmUct}.











End WithLibm.

End UctMaxFacts.

(** ** [UctStatistic::choose_next_action] and progressive widening *)
Module UctChooseFacts.
Import Uct StdMapFacts UctMaxFacts.

Local Open Scope Q_scope.

Lemma erase_perm {A} (l : list A) (i : nat) (x : A) :
  nth_error l i = Some x -> Permutation (x :: erase i l) l.
Proof.
  intros H. unfold erase.
  destruct (nth_error_split l i H) as (l1 & l2 & -> & <-).
  rewrite firstn_app, firstn_all, Nat.sub_diag, app_nil_r.
  replace (skipn (S (length l1)) (l1 ++ x :: l2)) with l2.
  - apply Permutation_middle.
  - rewrite skipn_app, skipn_all2 by lia.
    replace (S (length l1) - length l1)%nat with 1%nat by lia. reflexivity.
Qed.





(** A backup for an expanded action keeps the partition. *)
Lemma partitioned_backprop (s : UctStatistic) (b : Reward) :
  partitioned s ->
  In (fst (Uct.collected_reward_ s)) (StdMap.keys (ucb_statistics_ s)) ->
  partitioned (update_statistics_from_backpropagated s b).
Proof.
  intros (Hperm & Hok & Hn) Hin.
  apply find_keys in Hin as [v Hv]; [|exact Hok].
  unfold partitioned, update_statistics_from_backpropagated.
  cbn [ucb_statistics_ unexpanded_actions_ num_actions_].
  rewrite (keys_assign_found _ _ _ _ Hv).
  split; [exact Hperm|]. split; [|exact Hn]. apply assign_ok, Hok.
Qed.

Section WithOracles.

Context {P : LibmPow} {U : UniformInt} {L : LibmUct}.



(** X10: [require_progressive_widening_total] is false as soon as as many
    actions are expanded as there are; at a node without visits and
    without expanded actions it depends on the widening parameters alone:
    it holds for every positive [alpha], for [alpha = 0] when [k] is not
    negative, and for a negative [alpha] when [k] is positive. *)
Theorem progressive_widening_edge_cases (s : UctStatistic) :
  ((Z.of_nat (num_actions_ s) <= num_expanded_actions s)%Z ->
   require_progressive_widening_total s = false) /\
  (total_node_visits_ s = 0%Z ->
   ucb_statistics_ s = [] ->
   num_actions_ s <> 0%nat ->
   (require_progressive_widening_total s = true <->
    0 < progressive_widening_alpha s \/
    (progressive_widening_alpha s == 0 /\ 0 <= progressive_widening_k s) \/
    (progressive_widening_alpha s < 0 /\ 0 < progressive_widening_k s))).
Proof.
  unfold require_progressive_widening_total. split.
  - intros H. apply andb_false_iff. right. apply Z.ltb_ge. exact H.
  - intros HN Hm Hn. unfold num_expanded_actions, pow_unsigned.
    rewrite HN, Hm. cbn [StdMap.size length Z.of_nat Z.eqb].
    change (Unsigned.wrap 0) with 0%Z.
    replace (0 <? Z.of_nat (num_actions_ s))%Z with true
      by (symmetry; apply Z.ltb_lt; lia).
    rewrite andb_true_r.
    destruct (Qeq_bool (progressive_widening_alpha s) 0) eqn:Ez.
    + apply Qeq_bool_iff in Ez. cbn [X.mul X.leb].
      split.
      * intros H. apply Qle_bool_iff in H. right. left.
        split; [exact Ez|]. change (inject_Z 0) with 0 in H. lra.
      * intros [H|[[_ H]|[H _]]]; [lra| |lra].
        apply Qle_bool_iff. change (inject_Z 0) with 0. lra.
    + apply Qeq_bool_neq in Ez.
      destruct (Qlt_le_dec 0 (progressive_widening_alpha s)) as [Hpos|Hneg].
      * cbn [X.mul X.leb]. split; [intros _; left; exact Hpos|].
        intros _. apply Qle_bool_iff. change (inject_Z 0) with 0. lra.
      * cbn [X.mul]. unfold X.scale_inf.
        destruct (Qlt_le_dec 0 (progressive_widening_k s)) as [Hk|Hk].
        -- cbn [X.leb]. split; [|reflexivity].
           intros _. right. right. split; [|exact Hk].
           destruct (Qlt_le_dec (progressive_widening_alpha s) 0); [assumption|].
           exfalso. apply Ez. lra.
        -- destruct (Qlt_le_dec (progressive_widening_k s) 0); cbn [X.leb];
             (split; [discriminate|]); intros [H|[[H _]|[_ H]]]; lra.
Qed.

End WithOracles.

End UctChooseFacts.

(** ** [CostConstrainedStatistic::choose_next_action] *)
Module CcsChooseFacts.
Import Uct Ccs StdMapFacts UctChooseFacts.

Section WithOracles.

Context {L : Libm} {U : UniformInt}.

Lemma expand_action_erase (s : CostConstrainedStatistic) (array_idx : nat)
    (a : ActionIdx) (s' : CostConstrainedStatistic) :
  expand_action s array_idx = Some (a, s') ->
  nth_error (unexpanded_actions_ s) array_idx = Some a /\
  unexpanded_actions_ s' = Uct.erase array_idx (unexpanded_actions_ s) /\
  reward_statistic_ s' = reward_statistic_ s /\
  cost_statistic_ s' = cost_statistic_ s /\
  mean_step_costs_ s' = mean_step_costs_ s.
Proof.
  unfold expand_action. intros H.
  destruct (nth_error (unexpanded_actions_ s) array_idx) as [x|]; [|discriminate].
  cbn [bind] in H. injection H as <- <-. repeat split.
Qed.

Lemma choose_next_action_expand_step (params : MctsParameters)
    (s : CostConstrainedStatistic) (g : RandomGenerator) :
  unexpanded_actions_ s <> [] ->
  exists a s' g',
    choose_next_action params s g = Some (a, s', g') /\
    In a (unexpanded_actions_ s) /\
    Permutation (a :: unexpanded_actions_ s') (unexpanded_actions_ s) /\
    reward_statistic_ s' = reward_statistic_ s /\
    cost_statistic_ s' = cost_statistic_ s /\
    mean_step_costs_ s' = mean_step_costs_ s.
Proof.
  intros Hne. unfold choose_next_action.
  destruct (unexpanded_actions_ s) as [|u0 us] eqn:Eu; [congruence|].
  rewrite <- Eu in *.
  set (drawn := uniform_int g 0 (length (unexpanded_actions_ s) - 1)).
  assert (Hidx : (fst drawn < length (unexpanded_actions_ s))%nat).
  { pose proof (uniform_int_range g 0 (length (unexpanded_actions_ s) - 1)
                  ltac:(lia)) as Hr.
    fold drawn in Hr. rewrite Eu in *. cbn [length] in *. lia. }
  destruct (nth_error (unexpanded_actions_ s) (fst drawn)) as [a|] eqn:Ea.
  2:{ apply nth_error_None in Ea. lia. }
  unfold expand_action. rewrite Ea. cbn [bind fst snd].
  eexists a, _, (snd drawn). split; [reflexivity|].
  cbn [unexpanded_actions_ reward_statistic_ cost_statistic_ mean_step_costs_].
  split; [eapply nth_error_In; exact Ea|].
  split; [exact (erase_perm _ _ _ Ea)|]. repeat split.
Qed.

(** X11: while a node has unexpanded actions, [choose_next_action] returns
    one of them, drawn within the vector, and erases it there; it creates
    no entry for it and leaves both statistics and the step costs as they
    are.  Where the vector holds no action twice, the action returned is
    not handed out again. *)
Theorem ccs_choose_next_action_expands (params : MctsParameters)
    (s : CostConstrainedStatistic) (g : RandomGenerator) :
  unexpanded_actions_ s <> [] ->
  exists a s' g',
    choose_next_action params s g = Some (a, s', g') /\
    In a (unexpanded_actions_ s) /\
    Permutation (a :: unexpanded_actions_ s') (unexpanded_actions_ s) /\
    reward_statistic_ s' = reward_statistic_ s /\
    cost_statistic_ s' = cost_statistic_ s /\
    mean_step_costs_ s' = mean_step_costs_ s /\
    (NoDup (unexpanded_actions_ s) ->
     ~ In a (unexpanded_actions_ s') /\ NoDup (unexpanded_actions_ s')).
Proof.
  intros Hne.
  destruct (choose_next_action_expand_step params s g Hne)
    as (a & s' & g' & Hc & Hin & Hperm & Hr & Hcs & Hm).
  exists a, s', g'. repeat (split; [assumption|]).
  intros Hnd. apply (Permutation_NoDup (Permutation_sym Hperm)) in Hnd.
  inversion Hnd; subst. split; assumption.
Qed.

Lemma run_updates_unexpanded (us : list BackpropUpdate)
    (s : CostConstrainedStatistic) :
  unexpanded_actions_ (run_updates s us) = unexpanded_actions_ s.
Proof.
  unfold run_updates. revert s.
  induction us as [|u us IH]; intros s; [reflexivity|].
  cbn [fold_left]. rewrite IH. destruct u; reflexivity.
Qed.

Lemma select_rounds_spec (params : MctsParameters)
    (rounds : list (list BackpropUpdate)) :
  forall (s : CostConstrainedStatistic) (g : RandomGenerator),
    (length rounds <= length (unexpanded_actions_ s))%nat ->
    exists sel s' g',
      select_rounds params s g rounds = Some (sel, s', g') /\
      length sel = length rounds /\
      Permutation (sel ++ unexpanded_actions_ s') (unexpanded_actions_ s).
Proof.
  induction rounds as [|us rounds IH]; intros s g Hlen.
  - exists [], s, g. split; [reflexivity|]. split; reflexivity.
  - cbn [length] in Hlen.
    assert (Hne : unexpanded_actions_ s <> []).
    { destruct (unexpanded_actions_ s); [cbn in Hlen; lia | discriminate]. }
    destruct (choose_next_action_expand_step params s g Hne)
      as (a & s1 & g1 & Hc & Hin & Hperm & _).
    pose proof (Permutation_length Hperm) as Hl. cbn [length] in Hl.
    destruct (IH (run_updates s1 us) g1) as (sel & s' & g' & Hsel & Hlsel & Hp).
    { rewrite run_updates_unexpanded. lia. }
    exists (a :: sel), s', g'. cbn [select_rounds]. rewrite Hc. cbn [bind fst snd].
    rewrite Hsel. cbn [bind fst snd]. split; [reflexivity|].
    split; [cbn [length]; lia|].
    rewrite run_updates_unexpanded in Hp. cbn [app].
    rewrite <- Hperm. apply perm_skip. exact Hp.
Qed.

(** X12: from a fresh statistic over [n] actions, [k <= n] rounds of
    selection, with whatever updates in between, all return; the actions
    selected are pairwise different and, with those still unexpanded, make
    up [0 .. n-1]; the policy is ready exactly after the [n]-th round. *)
Theorem expansion_selects_every_action_once (params p : MctsParameters)
    (num_actions : nat) (g : RandomGenerator)
    (rounds : list (list BackpropUpdate)) :
  (length rounds <= num_actions)%nat ->
  exists sel s' g',
    select_rounds params (Ccs.init num_actions p) g rounds = Some (sel, s', g') /\
    length sel = length rounds /\
    NoDup sel /\
    Permutation (sel ++ unexpanded_actions_ s') (seq 0 num_actions) /\
    (policy_is_ready s' = true <-> length rounds = num_actions).
Proof.
  intros Hlen.
  destruct (select_rounds_spec params rounds (Ccs.init num_actions p) g)
    as (sel & s' & g' & Hsel & Hl & Hperm).
  { cbn [Ccs.init unexpanded_actions_]. rewrite length_seq. exact Hlen. }
  cbn [Ccs.init unexpanded_actions_] in Hperm.
  exists sel, s', g'. split; [exact Hsel|]. split; [exact Hl|].
  assert (Hnd : NoDup (sel ++ unexpanded_actions_ s')).
  { apply (Permutation_NoDup (Permutation_sym Hperm)), seq_NoDup. }
  split; [exact (NoDup_app_remove_r _ _ Hnd)|]. split; [exact Hperm|].
  pose proof (Permutation_length Hperm) as Hl2.
  rewrite length_app, length_seq in Hl2.
  unfold policy_is_ready. destruct (unexpanded_actions_ s') as [|x xs].
  - cbn [length] in Hl2. split; [intros _; lia | reflexivity].
  - cbn [length] in Hl2. split; [discriminate | lia].
Qed.

End WithOracles.

End CcsChooseFacts.

(** ** The policy of the LP step as a distribution *)
Module LpPolicyFacts.
Import Uct Ccs StdMapFacts LpFacts ExpectedCostFacts SelectionFacts.

Local Open Scope Q_scope.





(** The expected cost of the policy of the LP step, case by case. *)
Lemma lp_expected_cost_value (s : CostConstrainedStatistic)
    (feasible : list ActionIdx) (g : RandomGenerator)
    (a_max a_min : ActionIdx) (pmax pmin : UcbPair) :
  let cs := ucb_statistics_ (cost_statistic_ s) in
  StdMap.ok cs = true ->
  extreme_actions cs feasible = Some (a_max, a_min) ->
  StdMap.find a_max cs = Some pmax ->
  StdMap.find a_min cs = Some pmin ->
  (a_max <> a_min -> action_value_ pmin < action_value_ pmax) ->
  exists a policy g' e,
    solve_LP_and_sample s feasible g = Some ((a, policy), g') /\
    expected_policy_cost s policy = Some e /\
    ((a_max = a_min \/ cost_constraint s <= action_value_ pmin) /\
     e == action_value_ pmin
     \/
     (action_value_ pmin < cost_constraint s /\
      action_value_ pmax <= cost_constraint s /\ e == action_value_ pmax)
     \/
     (action_value_ pmin < cost_constraint s < action_value_ pmax /\
      e == cost_constraint s)).
Proof.
  intros cs Hok Hext Hfmx Hfmn Hs.
  unfold expected_policy_cost. fold cs.
  destruct (solve_LP_and_sample_cases s feasible g a_max a_min pmax pmin
              Hext Hfmx Hfmn)
    as [[Heq Hsol]|[(Hneq & Hc & Hsol)|[(Hneq & Hc1 & Hc2 & Hsol)|(Hneq & Hc1 & Hc2 & Hsol)]]];
    fold cs in Hsol.
  - destruct (point_policy cs a_min pmin Hok Hfmn) as (_ & Hf1 & Hf0 & _).
    destruct (expected_fold cs (StdMap.assign a_min 1 (zero_policy cs))
                (point_mass a_min 1) 0) as (e & He & Heq').
    { intros k Hk. unfold point_mass. destruct (Nat.eqb_spec k a_min) as [->|Hn].
      - exact Hf1.
      - apply Hf0; assumption. }
    do 3 eexists. exists e. split; [exact Hsol|]. split; [exact He|].
    left. split; [left; exact Heq|].
    rewrite Heq', (weighted_cost_point a_min 1 cs pmin Hok Hfmn). lra.
  - destruct (point_policy cs a_min pmin Hok Hfmn) as (_ & Hf1 & Hf0 & _).
    destruct (expected_fold cs (StdMap.assign a_min 1 (zero_policy cs))
                (point_mass a_min 1) 0) as (e & He & Heq').
    { intros k Hk. unfold point_mass. destruct (Nat.eqb_spec k a_min) as [->|Hn].
      - exact Hf1.
      - apply Hf0; assumption. }
    do 3 eexists. exists e. split; [exact Hsol|]. split; [exact He|].
    left. split; [right; exact Hc|].
    rewrite Heq', (weighted_cost_point a_min 1 cs pmin Hok Hfmn). lra.
  - destruct (point_policy cs a_max pmax Hok Hfmx) as (_ & Hf1 & Hf0 & _).
    destruct (expected_fold cs (StdMap.assign a_max 1 (zero_policy cs))
                (point_mass a_max 1) 0) as (e & He & Heq').
    { intros k Hk. unfold point_mass. destruct (Nat.eqb_spec k a_max) as [->|Hn].
      - exact Hf1.
      - apply Hf0; assumption. }
    do 3 eexists. exists e. split; [exact Hsol|]. split; [exact He|].
    right. left. split; [exact Hc1|]. split; [exact Hc2|].
    rewrite Heq', (weighted_cost_point a_max 1 cs pmax Hok Hfmx). lra.
  - set (p := (cost_constraint s - action_value_ pmin)
              / (action_value_ pmax - action_value_ pmin)) in *.
    destruct (two_point_policy cs a_max a_min pmax pmin p (1 - p) Hok Hneq Hfmx Hfmn)
      as (_ & Hfa & Hfb & Hf0 & _).
    destruct (expected_fold cs
                (StdMap.assign a_min (1 - p) (StdMap.assign a_max p (zero_policy cs)))
                (fun k => if (k =? a_min)%nat then 1 - p else point_mass a_max p k) 0)
      as (e & He & Heq').
    { intros k Hk. unfold point_mass.
      destruct (Nat.eqb_spec k a_min) as [E2|Hn2]; [subst k; exact Hfb|].
      destruct (Nat.eqb_spec k a_max) as [E1|Hn1]; [subst k; exact Hfa|].
      apply Hf0; assumption. }
    do 3 eexists. exists e. split; [exact Hsol|]. split; [exact He|].
    right. right. split; [split; assumption|].
    rewrite Heq'.
    rewrite (weighted_cost_ext _
               (fun k => point_mass a_max p k + point_mass a_min (1 - p) k)).
    + rewrite weighted_cost_plus,
        (weighted_cost_point a_max p cs pmax Hok Hfmx),
        (weighted_cost_point a_min (1 - p) cs pmin Hok Hfmn).
      unfold p. field. specialize (Hs Hneq). lra.
    + intros k _. unfold point_mass.
      destruct (Nat.eqb_spec k a_min) as [E2|Hn2];
        destruct (Nat.eqb_spec k a_max) as [E1|Hn1]; try ring.
      congruence.
Qed.

(** X14: where the cost constraint is not above the smallest cost value
    of the feasible actions, the expected cost of the policy of the LP
    step is that smallest value; where it is not below the largest, it is
    that largest value.  Outside the range of the feasible cost values the
    policy cannot meet the constraint, and takes the end of the range
    nearest to it. *)
Theorem lp_expected_cost_outside_the_range (s : CostConstrainedStatistic)
    (feasible : list ActionIdx) (g : RandomGenerator) :
  let cs := ucb_statistics_ (cost_statistic_ s) in
  StdMap.ok cs = true ->
  feasible <> [] ->
  Forall (fun a => In a (StdMap.keys cs)) feasible ->
  exists a policy g' e lo hi,
    solve_LP_and_sample s feasible g = Some ((a, policy), g') /\
    expected_policy_cost s policy = Some e /\
    (forall f pf, In f feasible -> StdMap.find f cs = Some pf ->
                  lo <= action_value_ pf <= hi) /\
    (exists f pf, In f feasible /\ StdMap.find f cs = Some pf /\
                  action_value_ pf == lo) /\
    (exists f pf, In f feasible /\ StdMap.find f cs = Some pf /\
                  action_value_ pf == hi) /\
    (cost_constraint s <= lo -> e == lo) /\
    (hi <= cost_constraint s -> e == hi).
Proof.
  intros cs Hok Hne Hall.
  pose proof (feasible_found cs feasible Hok Hall) as Hfound.
  destruct (extreme_actions_spec cs feasible Hne Hfound)
    as (a_max & a_min & pmax & pmin & Hext & Hinmx & Hinmn & Hfmx & Hfmn & Hb & Hs).
  assert (Hle : action_value_ pmin <= action_value_ pmax).
  { exact (proj2 (Hb a_min pmin Hinmn Hfmn)). }
  destruct (lp_expected_cost_value s feasible g a_max a_min pmax pmin
              Hok Hext Hfmx Hfmn Hs) as (a & policy & g' & e & Hsol & He & Hcases).
  exists a, policy, g', e, (action_value_ pmin), (action_value_ pmax).
  split; [exact Hsol|]. split; [exact He|]. split; [exact Hb|].
  split; [exists a_min, pmin; repeat split; try assumption; reflexivity|].
  split; [exists a_max, pmax; repeat split; try assumption; reflexivity|].
  assert (Hsame : a_max = a_min -> action_value_ pmax == action_value_ pmin).
  { intros ->. rewrite Hfmx in Hfmn. injection Hfmn as ->. reflexivity. }
  destruct Hcases as [[[Heq|Hc] Hv]|[(Hc1 & Hc2 & Hv)|([Hc1 Hc2] & Hv)]].
  - specialize (Hsame Heq). repeat split; intros; lra.
  - repeat split; intros; lra.
  - repeat split; intros; lra.
  - repeat split; intros; lra.
Qed.

End LpPolicyFacts.

(** ** The feasibility filter as a function of its factor *)
Module FilterFacts.
Import Uct Ccs StdMapFacts GreedyFacts.

Local Open Scope Q_scope.

Section WithLibm.

Context {L : Libm}.

Lemma zero_distance (q m rr : Q) : Qabs (q + - m) <= 0 * rr <-> q == m.
Proof.
  rewrite Qabs_Qle_condition. split.
  - intros [H1 H2]. lra.
  - intros H. split; lra.
Qed.

Lemma filter_all_false {A} (l : list (A * bool)) :
  (forall x, In x l -> snd x = false) -> filter snd l = [].
Proof.
  induction l as [|x l IH]; intros H; [reflexivity|].
  cbn [filter]. rewrite (H x) by (left; reflexivity).
  apply IH. intros y Hy. apply H. right. exact Hy.
Qed.

(** With the factor [0] no action is within the bound of a largest value
    of [+inf]. *)
Lemma filter_with_infinite_maximum (s : CostConstrainedStatistic)
    (values : list xdouble) (n : nat) :
  StdMap.keys (ucb_statistics_ (reward_statistic_ s)) = seq 0 n ->
  length values = n ->
  nth_error values (max_element values) = Some PInf ->
  filter_feasible_actions s values 0 = Some [].
Proof.
  intros Hk Hlen Hmax.
  set (r := max_element values) in *.
  assert (Hr : (r < n)%nat).
  { rewrite <- Hlen. apply nth_error_Some. congruence. }
  destruct (dense_find _ n r Hk) as (_ & _ & Hfr).
  destruct (Hfr Hr) as [entry Hentry].
  destruct (node_count_term_fin (action_count_ entry)) as (r0 & Hr0 & _).
  assert (Htest : forall idx, In idx (seq 0 n) ->
            feasible_test s values PInf (Fin r0) 0 idx = Some false).
  { intros idx Hin. apply in_seq in Hin. unfold feasible_test.
    destruct (nth_error values idx) as [v|] eqn:Ev.
    2:{ apply nth_error_None in Ev. lia. }
    cbn [bind].
    destruct (dense_find _ n idx Hk) as (_ & _ & Hf).
    destruct Hf as [e He]; [lia|]. rewrite He. cbn [bind].
    destruct (node_count_relations_fin (action_count_ e) r0) as (rr & Hrr & _).
    rewrite Hrr. destruct v; reflexivity. }
  destruct (traverse_defined (feasible_test s values PInf (Fin r0) 0) (seq 0 n))
    as [tests Htests].
  { intros idx Hin. eexists. apply Htest, Hin. }
  destruct (traverse_combine _ _ _ Htests) as [_ Hc2].
  unfold filter_feasible_actions. fold r. rewrite Hmax. cbn [bind].
  rewrite Hentry. cbn [bind]. rewrite Hr0, Hlen, Htests. cbn [bind].
  rewrite filter_all_false; [reflexivity|].
  intros [idx b] Hin. cbn [snd]. pose proof (Hc2 _ _ Hin) as Hb.
  rewrite Htest in Hb by (apply in_combine_l in Hin; exact Hin).
  congruence.
Qed.

(** X15: the filter factor [0], the one that the lambda adapter passes, on
    a statistic whose expanded actions are [0 .. n-1]: for [n] finite
    values the feasible actions are exactly the actions whose value equals
    the largest value; for [n] values of which the largest is [+inf], as
    for an action without a visit under an exploration term, no action is
    feasible. *)
Theorem filter_with_zero_factor_keeps_the_maximizers (s : CostConstrainedStatistic)
    (n : nat) :
  StdMap.keys (ucb_statistics_ (reward_statistic_ s)) = seq 0 n ->
  (forall qs : list Q,
      length qs = n ->
      qs <> [] ->
      exists feasible m,
        nth_error qs (max_element (map Fin qs)) = Some m /\
        (forall q, In q qs -> q <= m) /\
        filter_feasible_actions s (map Fin qs) 0 = Some feasible /\
        forall idx, In idx feasible <-> exists q, nth_error qs idx = Some q /\ q == m) /\
  (forall values : list xdouble,
      length values = n ->
      nth_error values (max_element values) = Some PInf ->
      filter_feasible_actions s values 0 = Some []).
Proof.
  intros Hk. split; [|intros values; apply filter_with_infinite_maximum; exact Hk].
  intros qs Hlen Hne.
  destruct (filter_feasible_actions_spec s qs 0 n Hk Hlen Hne)
    as (feasible & m & entry & r0 & Hm & Hmax & _ & _ & _ & Hf & Hbound & Hiff).
  exists feasible, m. split; [exact Hm|]. split; [exact Hmax|]. split; [exact Hf|].
  assert (Hat : forall idx, (idx < n)%nat ->
             exists q,
               nth_error qs idx = Some q /\
               (In idx feasible <-> q == m)).
  { intros idx Hidx.
    destruct (nth_error qs idx) as [q|] eqn:Eq.
    2:{ apply nth_error_None in Eq. lia. }
    destruct (dense_find _ n idx Hk) as (_ & _ & Hfe).
    destruct (Hfe Hidx) as [e He].
    destruct (node_count_relations_fin (action_count_ e) r0) as (rr & Hrr & _).
    exists q. split; [reflexivity|].
    rewrite (Hiff idx q e rr Eq He Hrr). apply zero_distance. }
  intros idx. split.
  - intros Hin. destruct (Hat idx (Hbound _ Hin)) as (q & Hq & Hi).
    exists q. split; [exact Hq | apply Hi, Hin].
  - intros (q & Hq & Hqm).
    assert (Hidx : (idx < n)%nat).
    { rewrite <- Hlen. apply nth_error_Some. congruence. }
    destruct (Hat idx Hidx) as (q' & Hq' & Hi).
    rewrite Hq in Hq'. injection Hq' as <-. apply Hi, Hqm.
Qed.

(** X16: the filter grows with its factor: where the square roots are not
    negative, every action that is feasible for a factor is feasible for
    every larger one. *)
Theorem filter_grows_with_the_factor (s : CostConstrainedStatistic)
    (qs : list Q) (n : nat) (ff1 ff2 : Q) :
  StdMap.keys (ucb_statistics_ (reward_statistic_ s)) = seq 0 n ->
  length qs = n ->
  qs <> [] ->
  (forall N c, 0 <= sqrt_log N c) ->
  ff1 <= ff2 ->
  exists feasible1 feasible2,
    filter_feasible_actions s (map Fin qs) ff1 = Some feasible1 /\
    filter_feasible_actions s (map Fin qs) ff2 = Some feasible2 /\
    forall idx, In idx feasible1 -> In idx feasible2.
Proof.
  intros Hk Hlen Hne Hsqrt Hff.
  destruct (filter_feasible_actions_spec s qs ff1 n Hk Hlen Hne)
    as (f1 & m & entry & r0 & Hm & _ & He & Hr0 & Hr0pos & Hf1 & Hbound & Hiff1).
  destruct (filter_feasible_actions_spec s qs ff2 n Hk Hlen Hne)
    as (f2 & m' & entry' & r0' & Hm' & _ & He' & Hr0' & _ & Hf2 & _ & Hiff2).
  rewrite Hm in Hm'. injection Hm' as <-.
  rewrite He in He'. injection He' as <-.
  rewrite Hr0 in Hr0'. injection Hr0' as <-.
  exists f1, f2. split; [exact Hf1|]. split; [exact Hf2|].
  intros idx Hin. pose proof (Hbound _ Hin) as Hidx.
  destruct (nth_error qs idx) as [q|] eqn:Eq.
  2:{ apply nth_error_None in Eq. lia. }
  destruct (dense_find _ n idx Hk) as (_ & _ & Hfe).
  destruct (Hfe Hidx) as [e Hfind].
  destruct (node_count_relations_fin (action_count_ e) r0) as (rr & Hrr & Hrrpos).
  specialize (Hrrpos Hsqrt (Hr0pos Hsqrt)).
  apply (Hiff2 idx q e rr Eq Hfind Hrr).
  apply (Hiff1 idx q e rr Eq Hfind Hrr) in Hin.
  nra.
Qed.

End WithLibm.

End FilterFacts.

(** ** The constraint handed down to the child, and the first backup *)
Module ConstraintFacts.
Import Uct Ccs StdMapFacts MeanFacts.

Local Open Scope Q_scope.

Lemma other_fold_none (s : CostConstrainedStatistic) (a : ActionIdx)
    (l : list (ActionIdx * Probability)) :
  fold_left
    (fun acc action_pair =>
       do other <- acc;
       if (fst action_pair =? a)%nat then Some other
       else
         do p <- StdMap.find (fst action_pair) (ucb_statistics_ (cost_statistic_ s));
         Some (other + snd action_pair * action_value_ p))
    l None = None.
Proof. induction l as [|kp l IH]; [reflexivity | exact IH]. Qed.

Lemma other_fold_some (s : CostConstrainedStatistic) (a : ActionIdx)
    (l : list (ActionIdx * Probability)) :
  (forall k, In k (StdMap.keys l) -> k <> a ->
             StdMap.find k (ucb_statistics_ (cost_statistic_ s)) <> None) ->
  forall acc : Q,
    exists other,
      fold_left
        (fun acc action_pair =>
           do other <- acc;
           if (fst action_pair =? a)%nat then Some other
           else
             do p <- StdMap.find (fst action_pair)
                                 (ucb_statistics_ (cost_statistic_ s));
             Some (other + snd action_pair * action_value_ p))
        l (Some acc) = Some other /\
      other == acc + policy_cost_except (ucb_statistics_ (cost_statistic_ s)) a l.
Proof.
  induction l as [|[k v] l IH]; intros Hall acc.
  - exists acc. split; [reflexivity|]. cbn. ring.
  - cbn [fold_left bind fst snd].
    assert (Hall' : forall k', In k' (StdMap.keys l) -> k' <> a ->
              StdMap.find k' (ucb_statistics_ (cost_statistic_ s)) <> None).
    { intros k' Hin. apply Hall. right. exact Hin. }
    change (policy_cost_except (ucb_statistics_ (cost_statistic_ s)) a ((k, v) :: l))
      with ((if (k =? a)%nat then 0
             else v * action_value_
                        (StdMap.index UcbPair_init k
                           (ucb_statistics_ (cost_statistic_ s))))
            + policy_cost_except (ucb_statistics_ (cost_statistic_ s)) a l).
    destruct (Nat.eqb_spec k a) as [->|Hne].
    + destruct (IH Hall' acc) as (other & Ho & Heq).
      exists other. split; [exact Ho|]. rewrite Heq. ring.
    + unfold StdMap.index.
      destruct (StdMap.find k (ucb_statistics_ (cost_statistic_ s))) as [p|] eqn:Ep.
      2:{ exfalso. apply (Hall k); [left; reflexivity | exact Hne | exact Ep]. }
      cbn [bind].
      destruct (IH Hall' (acc + v * action_value_ p)) as (other & Ho & Heq).
      exists other. split; [exact Ho|]. rewrite Heq. ring.
Qed.

Lemma other_fold_missing (s : CostConstrainedStatistic) (a k : ActionIdx)
    (l : list (ActionIdx * Probability)) :
  In k (StdMap.keys l) -> k <> a ->
  StdMap.find k (ucb_statistics_ (cost_statistic_ s)) = None ->
  forall acc : option Q,
    fold_left
      (fun acc action_pair =>
         do other <- acc;
         if (fst action_pair =? a)%nat then Some other
         else
           do p <- StdMap.find (fst action_pair)
                               (ucb_statistics_ (cost_statistic_ s));
           Some (other + snd action_pair * action_value_ p))
      l acc = None.
Proof.
  induction l as [|[k' v] l IH]; intros Hin Hne Hf acc; [contradiction|].
  cbn [fold_left fst snd]. destruct Hin as [Hk|Hin].
  - cbn [fst] in Hk. subst k'. destruct acc as [x|]; cbn [bind].
    + destruct (Nat.eqb_spec k a); [contradiction|]. rewrite Hf. cbn [bind].
      apply other_fold_none.
    + apply other_fold_none.
  - apply IH; assumption.
Qed.

Lemma policy_cost_except_zero (cs : UcbStatistics) (a : ActionIdx) (policy : Policy) :
  (forall k v, In (k, v) policy -> k <> a -> v == 0) ->
  policy_cost_except cs a policy == 0.
Proof.
  induction policy as [|[k v] policy IH]; intros Hz; [reflexivity|].
  change (policy_cost_except cs a ((k, v) :: policy))
    with ((if (k =? a)%nat then 0
           else v * action_value_ (StdMap.index UcbPair_init k cs))
          + policy_cost_except cs a policy).
  rewrite IH by (intros k' v' Hin; apply Hz; right; exact Hin).
  destruct (Nat.eqb_spec k a) as [_|Hne]; [ring|].
  assert (Hv : v == 0) by (apply (Hz k v); [left; reflexivity | exact Hne]).
  rewrite Hv. ring.
Qed.

(** X17: [calc_updated_constraint_based_on_policy] throws when the sampled
    action has no entry in the policy or in the step costs, or another
    action of the policy has no cost value.  For a policy that puts the
    probability [1] on the sampled action and [0] on every other one, as
    the LP step returns it in its cases without mixing, and under the
    discount factor [1] that the cost statistic is built with, it returns
    the current constraint less the mean step cost of the sampled
    action. *)
Theorem updated_constraint_of_a_point_policy (s : CostConstrainedStatistic)
    (a : ActionIdx) (policy : Policy) (current_constraint : Cost) :
  let cs := ucb_statistics_ (cost_statistic_ s) in
  (StdMap.find a policy = None ->
   calc_updated_constraint_based_on_policy s (a, policy) current_constraint = None) /\
  (StdMap.find a (mean_step_costs_ s) = None ->
   calc_updated_constraint_based_on_policy s (a, policy) current_constraint = None) /\
  (forall k, In k (StdMap.keys policy) -> k <> a -> StdMap.find k cs = None ->
   calc_updated_constraint_based_on_policy s (a, policy) current_constraint = None) /\
  (forall mean_step_cost,
      StdMap.find a policy = Some 1 ->
      (forall k v, In (k, v) policy -> k <> a -> v == 0) ->
      StdMap.find a (mean_step_costs_ s) = Some mean_step_cost ->
      (forall k, In k (StdMap.keys policy) -> k <> a -> StdMap.find k cs <> None) ->
      k_discount_factor (cost_statistic_ s) == 1 ->
      exists c',
        calc_updated_constraint_based_on_policy s (a, policy) current_constraint
        = Some (Fin c') /\
        c' == current_constraint - mean_step_cost).
Proof.
  intros cs. unfold calc_updated_constraint_based_on_policy, other_actions_costs.
  cbn [fst snd]. repeat split.
  - intros Hf. destruct (fold_left _ policy (Some 0)); [|reflexivity].
    cbn [bind]. rewrite Hf. reflexivity.
  - intros Hf. destruct (fold_left _ policy (Some 0)); [|reflexivity].
    cbn [bind]. destruct (StdMap.find a policy); [|reflexivity].
    cbn [bind]. rewrite Hf. reflexivity.
  - intros k Hin Hne Hf.
    rewrite (other_fold_missing s a k policy Hin Hne Hf). reflexivity.
  - intros mean_step_cost Hp Hz Hm Hall Hgamma.
    destruct (other_fold_some s a policy Hall 0) as (other & Ho & Heq).
    rewrite Ho. cbn [bind]. rewrite Hp. cbn [bind]. rewrite Hm. cbn [bind].
    assert (Hnz : ~ k_discount_factor (cost_statistic_ s) * 1 == 0).
    { rewrite Hgamma. discriminate. }
    rewrite GreedyFacts.div_fin_nonzero by exact Hnz.
    eexists. split; [reflexivity|].
    fold cs in Heq. rewrite Heq, (policy_cost_except_zero cs a policy Hz), Hgamma.
    field.
Qed.

Lemma first_mean (old x : Q) : old + (x - old) / inject_Z 1 == x.
Proof. change (inject_Z 1) with 1. field. Qed.

(** X18: the first backup over an edge whose child was seeded by the
    heuristic: the leaf takes the estimates of the rollout as its values
    and latest returns, and the parent's entry for the action, so far
    without a visit, becomes the edge's reward plus the discounted reward
    estimate, and likewise for the cost; the mean step cost becomes the
    edge's cost. *)
Theorem first_backup_takes_the_heuristic_estimate
    (s leaf heuristic : CostConstrainedStatistic) (a : ActionIdx)
    (r : Reward) (c : Cost) (accum_rewards : Reward) (accum_ego_cost : Cost) :
  action_count_ (StdMap.index UcbPair_init a (ucb_statistics_ (reward_statistic_ s)))
  = 0%Z ->
  action_count_ (StdMap.index UcbPair_init a (ucb_statistics_ (cost_statistic_ s)))
  = 0%Z ->
  let leaf' :=
    update_from_heuristic leaf
      (set_heuristic_estimate heuristic accum_rewards accum_ego_cost) in
  let s' := apply_update s (ChildUpdate (a, r) (a, c) leaf') in
  latest_return_ (reward_statistic_ leaf') = accum_rewards /\
  latest_return_ (cost_statistic_ leaf') = accum_ego_cost /\
  exists pr pc,
    StdMap.find a (ucb_statistics_ (reward_statistic_ s')) = Some pr /\
    action_count_ pr = 1%Z /\
    action_value_ pr
    == r + k_discount_factor (reward_statistic_ s) * accum_rewards /\
    StdMap.find a (ucb_statistics_ (cost_statistic_ s')) = Some pc /\
    action_count_ pc = 1%Z /\
    action_value_ pc
    == c + k_discount_factor (cost_statistic_ s) * accum_ego_cost /\
    StdMap.index 0 a (mean_step_costs_ s') == c.
Proof.
  intros Hr Hc leaf' s'. split; [reflexivity|]. split; [reflexivity|].
  unfold s', apply_update, update_statistic, update_statistics_from_backpropagated.
  cbn [reward_statistic_ cost_statistic_ mean_step_costs_ set_collected
       collected_reward_ collected_cost_ ucb_statistics_ set_collected_reward
       Uct.collected_reward_ k_discount_factor fst snd].
  do 2 eexists.
  split; [apply find_assign_eq|]. cbn [action_count_ action_value_].
  rewrite Hr. split; [reflexivity|]. split.
  { change (Unsigned.incr 0) with 1%Z. apply first_mean. }
  split; [apply find_assign_eq|]. cbn [action_count_ action_value_].
  rewrite Hc. split; [reflexivity|]. split.
  { change (Unsigned.incr 0) with 1%Z. apply first_mean. }
  rewrite !index_assign, Nat.eqb_refl. cbn [action_count_].
  change (Unsigned.incr 0) with 1%Z. apply first_mean.
Qed.

End ConstraintFacts.

(** ** Probabilities and actions of a crossing-state hypothesis *)
Module CrossingProbabilityFacts.
Import Crossing CrossingFacts.

Local Open Scope Q_scope.

Lemma count_fold (test : Z -> bool) (l : list Z) :
  forall n0 : Z,
    (0 <= n0)%Z ->
    (n0 + Z.of_nat (length l) < Unsigned.modulus)%Z ->
    fold_left (fun n gap => if test gap then Unsigned.incr n else n) l n0
    = (n0 + Z.of_nat (length (filter test l)))%Z.
Proof.
  induction l as [|gap l IH]; intros n0 H0 Hlt.
  - cbn. lia.
  - cbn [fold_left filter length] in *. destruct (test gap).
    + rewrite IH.
      * rewrite MeanFacts.incr_no_wrap by lia. cbn [length]. lia.
      * rewrite MeanFacts.incr_no_wrap by lia. lia.
      * rewrite MeanFacts.incr_no_wrap by lia. lia.
    + apply IH; lia.
Qed.

Lemma gap_length_small (p : AgentPolicyCrossingState) :
  (Z.of_nat (length (gap_distances p)) < Unsigned.modulus)%Z.
Proof.
  unfold gap_distances. rewrite length_map, length_seq.
  pose proof (Z.mod_pos_bound
                (Unsigned.sub (snd (desired_gap_range_ p))
                              (fst (desired_gap_range_ p)) + 1)
                Unsigned.modulus ltac:(reflexivity)) as H.
  unfold Unsigned.wrap. rewrite Z2Nat.id; lia.
Qed.

Lemma action_selected_count (p : AgentPolicyCrossingState) (ego_distance action : Z) :
  action_selected p ego_distance action
  = Z.of_nat (length (filter (fun gap => (calculate_action ego_distance gap =? action)%Z)
                             (gap_distances p))).
Proof.
  unfold action_selected.
  rewrite (count_fold (fun gap => (calculate_action ego_distance gap =? action)%Z));
    [reflexivity | lia|].
  pose proof (gap_length_small p). lia.
Qed.

Lemma wait_or_forward (ego_distance : Z) (l : list Z) :
  (length (filter (fun gap => (calculate_action ego_distance gap =? WAIT)%Z) l)
   + length (filter (fun gap => (calculate_action ego_distance gap =? FORWARD)%Z) l)
   = length l)%nat.
Proof.
  induction l as [|gap l IH]; [reflexivity|].
  cbn [filter length].
  destruct (calculate_action_cases ego_distance gap) as [Hf Hw].
  destruct (Z.eq_dec (Unsigned.sub ego_distance gap) 0) as [E|E].
  - rewrite (Hw E). change (WAIT =? WAIT)%Z with true.
    change (WAIT =? FORWARD)%Z with false. cbn [length]. lia.
  - rewrite (Hf E). change (FORWARD =? WAIT)%Z with false.
    change (FORWARD =? FORWARD)%Z with true. cbn [length]. lia.
Qed.

Lemma length_nonzero (p : AgentPolicyCrossingState) :
  gap_distances p <> [] ->
  ~ inject_Z (Z.of_nat (length (gap_distances p))) == 0.
Proof.
  intros Hne H. unfold Qeq in H. cbn [Qnum Qden inject_Z] in H.
  destruct (gap_distances p); [congruence | cbn [length] in H; lia].
Qed.

Lemma count_eq_seq (first d : Z) (n : nat) :
  length (filter (fun i => (first + Z.of_nat i =? d)%Z) (seq 0 n))
  = if ((first <=? d) && (d <? first + Z.of_nat n))%Z then 1%nat else 0%nat.
Proof.
  induction n as [|n IH].
  - cbn [seq filter length].
    destruct (Z.leb_spec first d); destruct (Z.ltb_spec d (first + Z.of_nat 0));
      cbn [andb]; lia || reflexivity.
  - rewrite seq_S, filter_app, length_app, IH. cbn [filter Nat.add].
    destruct (Z.eqb_spec (first + Z.of_nat n) d);
      destruct (Z.leb_spec first d);
      destruct (Z.ltb_spec d (first + Z.of_nat n));
      destruct (Z.ltb_spec d (first + Z.of_nat (S n)));
      cbn [andb length]; lia.
Qed.

(** The gaps of a range in order that is not all of [unsigned int]. *)
Lemma gap_distances_in_order (p : AgentPolicyCrossingState) :
  let first := fst (desired_gap_range_ p) in
  let second := snd (desired_gap_range_ p) in
  (0 <= first <= second)%Z ->
  (second < Unsigned.modulus)%Z ->
  (second - first + 1 < Unsigned.modulus)%Z ->
  gap_distances p
  = map (fun i => (first + Z.of_nat i)%Z) (seq 0 (Z.to_nat (second - first + 1))).
Proof.
  intros first second Hr Hs2 Hl. unfold gap_distances. fold first. fold second.
  unfold Unsigned.modulus in *.
  assert (Hs : Unsigned.wrap (Unsigned.sub second first + 1) = (second - first + 1)%Z).
  { unfold Unsigned.sub, Unsigned.wrap, Unsigned.modulus.
    rewrite (Z.mod_small (second - first)) by lia. apply Z.mod_small. lia. }
  rewrite Hs. apply map_ext_in. intros i Hi. apply in_seq in Hi.
  unfold Unsigned.wrap, Unsigned.modulus. apply Z.mod_small. lia.
Qed.

Lemma wait_iff_equal (ego_distance gap : Z) :
  (0 <= ego_distance < Unsigned.modulus)%Z ->
  (0 <= gap < Unsigned.modulus)%Z ->
  (calculate_action ego_distance gap =? WAIT)%Z = (gap =? ego_distance)%Z.
Proof.
  intros Hd Hg. destruct (calculate_action_cases ego_distance gap) as [Hf Hw].
  assert (Hsub : Unsigned.sub ego_distance gap = 0%Z <-> gap = ego_distance).
  { unfold Unsigned.sub, Unsigned.wrap, Unsigned.modulus in *. split.
    - intros H. destruct (Z.le_gt_cases gap ego_distance).
      + rewrite Z.mod_small in H by lia. lia.
      + replace (ego_distance - gap)%Z
          with ((ego_distance - gap + 2 ^ 32) + (-1) * 2 ^ 32)%Z in H by ring.
        rewrite Z.mod_add in H by lia. rewrite Z.mod_small in H by lia. lia.
    - intros ->. rewrite Z.sub_diag. reflexivity. }
  destruct (Z.eqb_spec gap ego_distance) as [E|E].
  - rewrite (Hw (proj2 Hsub E)). reflexivity.
  - rewrite Hf; [reflexivity|]. intros H. apply E, Hsub, H.
Qed.

(** X19: on a range [first <= second] of [unsigned int] values that is
    not all of them, the probabilities of [WAIT] and [FORWARD] are numbers
    between [0] and [1].  [WAIT] has a positive probability exactly when
    the ego distance lies in the range, and the probability [1] exactly
    when the range is the one gap equal to the ego distance; [FORWARD] has
    a positive probability unless the range is that one gap. *)
Theorem wait_and_forward_support (p : AgentPolicyCrossingState)
    (ego_distance : Z) :
  let first := fst (desired_gap_range_ p) in
  let second := snd (desired_gap_range_ p) in
  (0 <= first <= second)%Z ->
  (second < Unsigned.modulus)%Z ->
  (second - first + 1 < Unsigned.modulus)%Z ->
  (0 <= ego_distance < Unsigned.modulus)%Z ->
  exists w f,
    get_probability p ego_distance WAIT = Fin w /\
    get_probability p ego_distance FORWARD = Fin f /\
    0 <= w <= 1 /\ 0 <= f <= 1 /\
    (0 < w <-> (first <= ego_distance <= second)%Z) /\
    (w == 1 <-> first = ego_distance /\ second = ego_distance) /\
    (0 < f <-> ~ (first = ego_distance /\ second = ego_distance)).
Proof.
  intros first second Hr Hs2 Hl Hd.
  pose proof (gap_distances_in_order p Hr Hs2 Hl) as Hgaps.
  fold first in Hgaps. fold second in Hgaps.
  assert (Hlen' : Z.of_nat (length (gap_distances p)) = (second - first + 1)%Z).
  { rewrite Hgaps, length_map, length_seq. apply Z2Nat.id. lia. }
  assert (Hne : gap_distances p <> []).
  { intros E. rewrite E in Hlen'. cbn [length] in Hlen'. lia. }
  pose proof (length_nonzero p Hne) as Hnz.
  unfold get_probability. rewrite !action_selected_count.
  rewrite !GreedyFacts.div_fin_nonzero by exact Hnz.
  do 2 eexists. split; [reflexivity|]. split; [reflexivity|].
  pose proof (wait_or_forward ego_distance (gap_distances p)) as Hsum.
  set (cw := length (filter (fun gap => (calculate_action ego_distance gap =? WAIT)%Z)
                            (gap_distances p))) in *.
  set (cf := length (filter (fun gap => (calculate_action ego_distance gap =? FORWARD)%Z)
                            (gap_distances p))) in *.
  assert (Hcount : cw = if ((first <=? ego_distance) && (ego_distance <=? second))%Z
                        then 1%nat else 0%nat).
  { unfold cw. rewrite Hgaps.
    rewrite (filter_ext_in _ (fun gap => (gap =? ego_distance)%Z)).
    - assert (Hfm : forall l,
                 filter (fun gap => (gap =? ego_distance)%Z)
                        (map (fun i => (first + Z.of_nat i)%Z) l)
                 = map (fun i => (first + Z.of_nat i)%Z)
                       (filter (fun i => (first + Z.of_nat i =? ego_distance)%Z) l)).
      { induction l as [|i l IH]; [reflexivity|]. cbn [map filter].
        destruct (first + Z.of_nat i =? ego_distance)%Z; cbn [map]; rewrite IH;
          reflexivity. }
      rewrite Hfm, length_map, count_eq_seq.
      rewrite Z2Nat.id by lia.
      destruct (Z.leb_spec first ego_distance);
        destruct (Z.leb_spec ego_distance second);
        destruct (Z.ltb_spec ego_distance (first + (second - first + 1)));
        cbn [andb]; lia || reflexivity.
    - intros gap Hin. apply in_map_iff in Hin as (i & <- & Hi). apply in_seq in Hi.
      apply wait_iff_equal; [exact Hd|].
      unfold Unsigned.modulus in *. lia. }
  set (len := length (gap_distances p)) in *.
  assert (Hcf : Z.of_nat cf = (Z.of_nat len - Z.of_nat cw)%Z) by lia.
  set (L := inject_Z (Z.of_nat len)) in *.
  assert (HL : 1 <= L).
  { unfold L. rewrite Hlen'. change 1 with (inject_Z 1). rewrite <- Zle_Qle. lia. }
  assert (Ecf : inject_Z (Z.of_nat cf) == L - inject_Z (Z.of_nat cw)).
  { rewrite Hcf. unfold Zminus. rewrite inject_Z_plus, inject_Z_opp. reflexivity. }
  assert (Hcw01 : inject_Z (Z.of_nat cw) == 0 /\ ~ (first <= ego_distance <= second)%Z
                  \/ inject_Z (Z.of_nat cw) == 1 /\ (first <= ego_distance <= second)%Z).
  { rewrite Hcount.
    destruct (Z.leb_spec first ego_distance); destruct (Z.leb_spec ego_distance second);
      cbn [andb]; [right | left | left | left]; (split; [reflexivity | lia]). }
  assert (HLone : L == 1 <-> first = second).
  { unfold L. rewrite Hlen'. change 1 with (inject_Z 1). rewrite inject_Z_injective. lia. }
  assert (Hdiv : forall x, x / L == 1 <-> x == L).
  { intros x. split; intros H.
    - rewrite <- (Qmult_1_l L), <- H. field. lra.
    - rewrite H. field. lra. }
  assert (Hpos : forall x, 0 < x / L <-> 0 < x).
  { intros x. split; intros H.
    - apply Qlt_shift_div_l in H || idtac.
      destruct (Qlt_le_dec 0 x) as [Hx|Hx]; [exact Hx|].
      exfalso. assert (x / L <= 0).
      { apply Qle_shift_div_r; lra. }
      lra.
    - apply Qlt_shift_div_l; lra. }
  assert (Hle1 : forall x, 0 <= x <= L -> 0 <= x / L <= 1).
  { intros x [H1 H2]. split.
    - apply Qle_shift_div_l; lra.
    - apply Qle_shift_div_r; lra. }
  rewrite Ecf.
  destruct Hcw01 as [[E Hout]|[E Hin]]; rewrite E.
  - split; [apply Hle1; lra|]. split; [apply Hle1; lra|].
    split; [rewrite Hpos; split; [intros H; lra | intros H; contradiction]|].
    split.
    + rewrite Hdiv. split; [intros H; lra | intros [H1 H2]; lia].
    + rewrite Hpos. split; [intros _ [H1 H2]; lia | intros _; lra].
  - split; [apply Hle1; lra|]. split; [apply Hle1; lra|].
    split; [rewrite Hpos; split; [intros _; exact Hin | intros _; lra]|].
    split.
    + rewrite Hdiv. split.
      * intros H. assert (E1 : L == 1) by lra. apply HLone in E1. lia.
      * intros [H1 H2]. assert (E1 : L == 1) by (apply HLone; lia). lra.
    + rewrite Hpos. split.
      * intros H [H1 H2]. assert (E1 : L == 1) by (apply HLone; lia). lra.
      * intros H. destruct (Z.eq_dec first second) as [Efs|Nfs].
        -- exfalso. apply H. lia.
        -- assert (~ L == 1) by (rewrite HLone; exact Nfs). lra.
Qed.

Section WithDraw.

Context {D : GapDraw}.

Lemma filter_has (test : Z -> bool) (l : list Z) (x : Z) :
  In x l -> test x = true -> (1 <= length (filter test l))%nat.
Proof.
  intros Hin Ht.
  assert (H : In x (filter test l)) by (apply filter_In; split; assumption).
  destruct (filter test l); [contradiction | cbn [length]; lia].
Qed.

(** X20: [act] and [get_probability] agree: on a range [first <= second]
    that is not all of [unsigned int], [act] returns an action, never
    [BACKWARD], to which [get_probability] gives a positive probability;
    on a range with [first > second] the distribution that [act] draws
    from is not defined. *)
Theorem act_has_positive_probability (p : AgentPolicyCrossingState)
    (ego_distance : Z) :
  let first := fst (desired_gap_range_ p) in
  let second := snd (desired_gap_range_ p) in
  ((second < first)%Z -> act p ego_distance = None) /\
  ((0 <= first <= second)%Z ->
   (second < Unsigned.modulus)%Z ->
   (second - first + 1 < Unsigned.modulus)%Z ->
   exists action q,
     act p ego_distance = Some action /\
     action <> BACKWARD /\
     get_probability p ego_distance action = Fin q /\
     0 < q).
Proof.
  intros first second. unfold act. fold first. fold second. split.
  - intros H. destruct (Z.leb_spec first second); [lia | reflexivity].
  - intros Hr Hs2 Hl. destruct (Z.leb_spec first second); [|lia].
    pose proof (gap_draw_range first second ltac:(lia)) as Hdraw.
    set (gap := gap_draw first second) in *.
    exists (calculate_action ego_distance gap).
    pose proof (gap_distances_in_order p Hr Hs2 Hl) as Hgaps.
    fold first in Hgaps. fold second in Hgaps.
    assert (Hin : In gap (gap_distances p)).
    { rewrite Hgaps. apply in_map_iff. exists (Z.to_nat (gap - first)).
      split; [lia|]. apply in_seq. lia. }
    assert (Hne : gap_distances p <> []).
    { intros E. rewrite E in Hin. exact Hin. }
    unfold get_probability. rewrite action_selected_count.
    rewrite GreedyFacts.div_fin_nonzero by exact (length_nonzero p Hne).
    eexists. split; [reflexivity|].
    split; [apply calculate_action_not_backward|]. split; [reflexivity|].
    pose proof (filter_has
                  (fun g => (calculate_action ego_distance g
                             =? calculate_action ego_distance gap)%Z)
                  (gap_distances p) gap Hin (Z.eqb_refl _)) as Hc.
    apply Qlt_shift_div_l.
    + unfold Qlt. cbn [Qnum Qden inject_Z].
      destruct (gap_distances p); [congruence | cbn [length]; lia].
    + rewrite Qmult_0_l. unfold Qlt. cbn [Qnum Qden inject_Z]. lia.
Qed.

End WithDraw.

End CrossingProbabilityFacts.

(** ** [HypothesisCrossingState::execute] *)
Module ExecuteFacts.
Import Crossing GreedyFacts.

Local Open Scope Q_scope.

Lemma existsb_and_const {A} (b : bool) (f : A -> bool) (l : list A) :
  existsb (fun x => b && f x) l = b && existsb f l.
Proof.
  induction l as [|x l IH]; cbn [existsb]; [rewrite andb_false_r; reflexivity|].
  rewrite IH. destruct b; reflexivity.
Qed.

Lemma cast_to_Actions_some (a action : Z) :
  cast_to_Actions a = Some action -> action = a /\ (-4 <= a <= 3)%Z.
Proof.
  unfold cast_to_Actions. intros H.
  destruct (Z.leb_spec (-4) a); destruct (Z.leb_spec a 3); cbn [andb] in H;
    try discriminate.
  injection H as <-. split; [reflexivity | lia].
Qed.

Lemma execute_parts (ego_agent_idx : nat) (s : HypothesisCrossingState)
    (joint_action : list Z) (rewards : list Reward)
    (s' : HypothesisCrossingState) (rewards' : list Reward) (ego_cost : Cost) :
  execute ego_agent_idx s joint_action rewards = Some (s', rewards', ego_cost) ->
  exists a_ego others,
    nth_error joint_action ego_agent_idx = Some a_ego /\
    traverse (next_other_agent_state s joint_action)
             (seq 0 (length (other_agent_states_ s))) = Some others /\
    let next_ego_state :=
      mkAgentState (Unsigned.wrap (x_pos (ego_state_ s) + a_ego)) a_ego in
    let goal_reached := (ego_goal_reached_position <=? x_pos (ego_state_ s))%Z in
    let collision :=
      (x_pos next_ego_state =? crossing_point)%Z
      && existsb (fun state => (x_pos state =? crossing_point)%Z) others in
    s' = mkHypothesisCrossingState [] others next_ego_state (goal_reached || collision) /\
    rewards' = (float_of_bool goal_reached * 100 - 1000 * float_of_bool collision)
               :: tl (resize 2 rewards) /\
    ego_cost = float_of_bool collision * 1.
Proof.
  unfold execute. intros H.
  destruct (nth_error joint_action ego_agent_idx) as [a_ego|]; [|discriminate].
  cbn [bind] in H.
  destruct (cast_to_Actions a_ego) as [action_ego|] eqn:Ec; [|discriminate].
  apply cast_to_Actions_some in Ec as [-> _].
  cbn [bind] in H.
  destruct (traverse _ _) as [others|]; [|discriminate].
  cbn [bind] in H. rewrite existsb_and_const in H. injection H as <- <- <-.
  exists a_ego, others. repeat split.
Qed.

Lemma resize_length (n : nat) (rewards : list Reward) : length (resize n rewards) = n.
Proof.
  unfold resize. rewrite length_app, length_firstn, repeat_length. lia.
Qed.

(** X21: what [execute] reports.  The goal is judged on the ego position
    before the move, a collision on the positions after it: the ego and
    another agent both on the crossing point [21].  The successor is
    terminal exactly when one of the two holds; the ego reward is [100]
    for the goal minus [1000] for a collision, the cost [1] for a collision
    and [0] otherwise, and [rewards] has two entries afterwards.  A
    successor that is not terminal comes with reward and cost [0]. *)
Theorem execute_outcome (ego_agent_idx : nat) (s : HypothesisCrossingState)
    (joint_action : list Z) (rewards : list Reward)
    (s' : HypothesisCrossingState) (rewards' : list Reward) (ego_cost : Cost) :
  execute ego_agent_idx s joint_action rewards = Some (s', rewards', ego_cost) ->
  let goal_reached := (35 <=? x_pos (ego_state_ s))%Z in
  let collision :=
    (x_pos (ego_state_ s') =? 21)%Z
    && existsb (fun state => (x_pos state =? 21)%Z) (other_agent_states_ s') in
  is_terminal s' = goal_reached || collision /\
  length rewards' = 2%nat /\
  (exists reward,
      nth_error rewards' 0 = Some reward /\
      reward == (if goal_reached then 100 else 0) - (if collision then 1000 else 0) /\
      (is_terminal s' = false -> reward == 0)) /\
  ego_cost == (if collision then 1 else 0) /\
  (is_terminal s' = false -> ego_cost == 0).
Proof.
  intros H.
  destruct (execute_parts _ _ _ _ _ _ _ H)
    as (a_ego & others & _ & _ & -> & -> & ->).
  cbv zeta. cbn [is_terminal terminal_ ego_state_ other_agent_states_ x_pos].
  change crossing_point with 21%Z. change ego_goal_reached_position with 35%Z.
  set (goal_reached := (35 <=? x_pos (ego_state_ s))%Z).
  set (collision :=
         (Unsigned.wrap (x_pos (ego_state_ s) + a_ego) =? 21)%Z
         && existsb (fun state => (x_pos state =? 21)%Z) others).
  split; [reflexivity|]. split.
  { cbn [length]. pose proof (resize_length 2 rewards) as Hl.
    destruct (resize 2 rewards); cbn [length tl] in *; lia. }
  split.
  { eexists. split; [reflexivity|].
    destruct goal_reached, collision; cbn [float_of_bool orb];
      (split; [ring | intros E; try discriminate; ring]). }
  destruct goal_reached, collision; cbn [float_of_bool orb];
    (split; [ring | intros E; try discriminate; ring]).
Qed.

(** X22: the successor that [execute] returns.  Every agent has moved by
    its entry of the joint action, modulo [2^32], and [get_last_action]
    returns that entry, a value of the enumeration.  The successor holds no hypothesis: until
    [add_hypothesis] is called on it, [get_probability] throws for every
    hypothesis and agent; after [add_hypothesis], hypothesis [0] is the one
    added. *)
Theorem execute_successor (ego_agent_idx : nat) (s : HypothesisCrossingState)
    (joint_action : list Z) (rewards : list Reward)
    (s' : HypothesisCrossingState) (rewards' : list Reward) (ego_cost : Cost) :
  execute ego_agent_idx s joint_action rewards = Some (s', rewards', ego_cost) ->
  (exists a_ego,
      nth_error joint_action ego_agent_idx = Some a_ego /\
      x_pos (ego_state_ s') = Unsigned.wrap (x_pos (ego_state_ s) + a_ego)) /\
  length (other_agent_states_ s') = length (other_agent_states_ s) /\
  (forall i old_state,
      nth_error (other_agent_states_ s) i = Some old_state ->
      exists a new_state,
        nth_error joint_action (i + 1) = Some a /\
        nth_error (other_agent_states_ s') i = Some new_state /\
        x_pos new_state = Unsigned.wrap (x_pos old_state + a)) /\
  (forall agent_idx,
      agent_idx = ego_agent_idx
      \/ (1 <= agent_idx <= length (other_agent_states_ s))%nat ->
      get_last_action ego_agent_idx s' agent_idx = nth_error joint_action agent_idx) /\
  get_num_hypothesis s' = 0%nat /\
  (forall hypothesis agent_idx action,
      state_get_probability s' hypothesis agent_idx action = None) /\
  (forall hypothesis other_agent_idx action d,
      dst_to_ego s' other_agent_idx = Some d ->
      state_get_probability (add_hypothesis s' hypothesis) 0 (S other_agent_idx) action
      = Some (get_probability hypothesis d action)).
Proof.
  intros H.
  destruct (execute_parts _ _ _ _ _ _ _ H)
    as (a_ego & others & Hego & Hothers & -> & _ & _).
  cbn [ego_state_ other_agent_states_ x_pos hypothesis_].
  destruct (traverse_nth _ _ _ Hothers) as [Hlen Hnth].
  rewrite length_seq in Hlen.
  assert (Hother : forall i old_state,
             nth_error (other_agent_states_ s) i = Some old_state ->
             exists a,
               nth_error joint_action (i + 1) = Some a /\
               nth_error others i
               = Some (mkAgentState (Unsigned.wrap (x_pos old_state + a)) a)).
  { intros i old_state Hold.
    assert (Hi : (i < length (other_agent_states_ s))%nat).
    { apply nth_error_Some. congruence. }
    destruct (Hnth i i) as (new_state & Hnew & Hf).
    { rewrite nth_error_seq. destruct (Nat.ltb_spec i (length (other_agent_states_ s)));
        [reflexivity | lia]. }
    unfold next_other_agent_state in Hf. rewrite Hold in Hf. cbn [bind] in Hf.
    destruct (nth_error joint_action (i + 1)) as [a|]; [|discriminate].
    cbn [bind] in Hf.
    destruct (cast_to_Actions a) as [action|] eqn:Ec; [|discriminate].
    apply cast_to_Actions_some in Ec as [-> _].
    cbn [bind] in Hf. injection Hf as <-. exists a. split; [reflexivity | exact Hnew]. }
  split; [exists a_ego; split; [exact Hego | reflexivity]|].
  split; [exact Hlen|]. split.
  { intros i old_state Hold. destruct (Hother i old_state Hold) as (a & Ha & Hn).
    exists a. eexists. split; [exact Ha|]. split; [exact Hn | reflexivity]. }
  split.
  { intros agent_idx Hagent. unfold get_last_action.
    cbn [ego_state_ other_agent_states_ last_action].
    destruct (Nat.eqb_spec agent_idx ego_agent_idx) as [->|Hne];
      [symmetry; exact Hego|].
    destruct Hagent as [E|Hr]; [contradiction|].
    destruct agent_idx as [|i]; [lia|].
    destruct (nth_error (other_agent_states_ s) i) as [old_state|] eqn:Eo.
    2:{ apply nth_error_None in Eo. lia. }
    destruct (Hother i old_state Eo) as (a & Ha & Hn).
    rewrite Hn. cbn [bind last_action].
    replace (S i) with (i + 1)%nat by lia. symmetry. exact Ha. }
  split; [reflexivity|]. split.
  { intros hypothesis agent_idx action. unfold state_get_probability.
    cbn [hypothesis_]. destruct agent_idx; [reflexivity|].
    destruct hypothesis; reflexivity. }
  intros hypothesis i action d Hd.
  unfold state_get_probability, add_hypothesis. cbn [hypothesis_ app nth_error bind].
  unfold dst_to_ego in *. cbn [other_agent_states_ ego_state_] in *.
  destruct (nth_error others i); [|discriminate].
  cbn [bind] in *. injection Hd as <-. reflexivity.
Qed.

End ExecuteFacts.

(** ** The episode loop (crossing_state_episode_runner.h) *)
Module RunnerFacts.
Import Runner.

Section Episode.

Variable World : Type.

Variable Belief : Type.

Variable EgoCosts : Type.

Variable EgoCosts_init : EgoCosts.

Variable is_terminal : World -> bool.

Variable advance : World -> World * (Q * EgoCosts * bool * bool).

Variable get_beliefs : World -> Belief.

Lemma run_loop_spec (max_steps_ : Z) (save : bool) (fuel : nat) :
  forall (w : World) (current_step : Z) (belief_results : list Belief),
    (0 <= max_steps_ < Unsigned.modulus - 1)%Z ->
    (0 <= current_step <= max_steps_ + 1)%Z ->
    (Z.to_nat (max_steps_ + 2 - current_step) <= fuel)%nat ->
    exists w' r,
      run_loop EgoCosts_init is_terminal advance get_beliefs max_steps_ save fuel
               w current_step belief_results = Some (w', r) /\
      (current_step <= NumSteps r <= max_steps_ + 1)%Z /\
      (MaxSteps r = 1%Z /\ NumSteps r = (max_steps_ + 1)%Z
       \/ MaxSteps r = 0%Z /\ (NumSteps r <= max_steps_)%Z
          /\ Terminal (last_step r) = true) /\
      length (BeliefResults r)
      = if save
        then (length belief_results + Z.to_nat (NumSteps r - current_step) + 1)%nat
        else length belief_results.
Proof.
  induction fuel as [|fuel IH]; intros w current_step belief_results Hmax Hcs Hfuel.
  - exfalso. lia.
  - cbn [run_loop].
    set (stepped := step EgoCosts_init is_terminal advance w).
    set (br' := if save then belief_results ++ [get_beliefs (fst stepped)]
                else belief_results).
    assert (Hbr : length br'
                  = if save then (length belief_results + 1)%nat
                    else length belief_results).
    { unfold br'. destruct save; [rewrite length_app; reflexivity | reflexivity]. }
    destruct (Z.ltb_spec max_steps_ current_step) as [Hreached|Hnot].
    + rewrite orb_true_r. do 2 eexists. split; [reflexivity|].
      cbn [NumSteps MaxSteps last_step BeliefResults].
      split; [lia|]. split; [left; split; [reflexivity | lia]|].
      rewrite Hbr, Z.sub_diag. destruct save; cbn; lia.
    + rewrite orb_false_r. destruct (Terminal (snd stepped)) eqn:Et.
      * do 2 eexists. split; [reflexivity|].
        cbn [NumSteps MaxSteps last_step BeliefResults].
        split; [lia|]. split; [right; split; [reflexivity | split; [lia | exact Et]]|].
        rewrite Hbr, Z.sub_diag. destruct save; cbn; lia.
      * assert (Hincr : Unsigned.incr current_step = (current_step + 1)%Z).
        { apply MeanFacts.incr_no_wrap. lia. }
        rewrite Hincr.
        destruct (IH (fst stepped) (current_step + 1)%Z br' Hmax ltac:(lia) ltac:(lia))
          as (w' & r & Hrun & Hn & Hflag & Hlen).
        exists w', r. split; [exact Hrun|]. split; [lia|]. split; [exact Hflag|].
        rewrite Hlen, Hbr. destruct save; lia.
Qed.

(** With [max_steps_] the largest [unsigned int], no step number exceeds
    it: the loop returns only from a step whose result is terminal. *)
Lemma run_loop_without_limit (save : bool) (fuel : nat) :
  forall (w : World) (current_step : Z) (belief_results : list Belief)
         (w' : World) (r : RunResult Belief EgoCosts),
    (0 <= current_step < Unsigned.modulus)%Z ->
    run_loop EgoCosts_init is_terminal advance get_beliefs (Unsigned.modulus - 1)
             save fuel w current_step belief_results = Some (w', r) ->
    MaxSteps r = 0%Z /\ Terminal (last_step r) = true /\
    (0 <= NumSteps r < Unsigned.modulus)%Z.
Proof.
  induction fuel as [|fuel IH]; intros w current_step belief_results w' r Hcs Hrun.
  - discriminate.
  - cbn [run_loop] in Hrun.
    destruct (Z.ltb_spec (Unsigned.modulus - 1) current_step) as [Hreached|Hnot];
      [lia|].
    rewrite orb_false_r in Hrun.
    destruct (Terminal (snd (step EgoCosts_init is_terminal advance w))) eqn:Et.
    + injection Hrun as _ <-. cbn [MaxSteps last_step NumSteps].
      split; [reflexivity|]. split; [exact Et | exact Hcs].
    + apply IH in Hrun; [exact Hrun|].
      unfold Unsigned.incr, Unsigned.wrap. apply Z.mod_pos_bound. reflexivity.
Qed.

(** X23: for [max_steps_] below the largest [unsigned int], [run] takes at
    most [max_steps_ + 2] steps.  It returns the number of the last step,
    counted from [0], which is at most [max_steps_ + 1]; the flag
    [MaxSteps] is set exactly when that number is reached, and a run that
    returns earlier has ended in a terminal state.  With
    [save_belief_results] one entry is recorded per step.  For
    [max_steps_] the largest [unsigned int] the step number never exceeds
    it: a run that returns has [MaxSteps] unset and ended in a terminal
    state. *)
Theorem run_stops_within_max_steps (max_steps_ : Z) (save_belief_results : bool)
    (fuel : nat) (w : World) :
  ((0 <= max_steps_ < Unsigned.modulus - 1)%Z ->
   (Z.to_nat max_steps_ + 2 <= fuel)%nat ->
   exists w' r,
     run EgoCosts_init is_terminal advance get_beliefs max_steps_ save_belief_results
         fuel w = Some (w', r) /\
     (0 <= NumSteps r <= max_steps_ + 1)%Z /\
     (MaxSteps r = 1%Z <-> NumSteps r = (max_steps_ + 1)%Z) /\
     (MaxSteps r = 0%Z \/ MaxSteps r = 1%Z) /\
     (MaxSteps r = 0%Z -> Terminal (last_step r) = true) /\
     length (BeliefResults r)
     = if save_belief_results then S (Z.to_nat (NumSteps r)) else 0%nat) /\
  (max_steps_ = (Unsigned.modulus - 1)%Z ->
   forall w' r,
     run EgoCosts_init is_terminal advance get_beliefs max_steps_ save_belief_results
         fuel w = Some (w', r) ->
     MaxSteps r = 0%Z /\ Terminal (last_step r) = true /\
     (0 <= NumSteps r < Unsigned.modulus)%Z).
Proof.
  split.
  - intros Hmax Hfuel. unfold run.
    destruct (run_loop_spec max_steps_ save_belief_results fuel w 0%Z [] Hmax
                ltac:(lia) ltac:(lia)) as (w' & r & Hrun & Hn & Hflag & Hlen).
    exists w', r. split; [exact Hrun|]. split; [exact Hn|].
    split; [destruct Hflag as [[H1 H2]|(H1 & H2 & _)]; rewrite H1; split; lia|].
    split; [destruct Hflag as [[H1 _]|(H1 & _)]; auto|].
    split; [destruct Hflag as [[H1 _]|(H1 & _ & H3)]; [rewrite H1; discriminate | auto]|].
    rewrite Hlen, Z.sub_0_r. destruct save_belief_results; cbn [length]; lia.
  - intros -> w' r Hrun. unfold run in Hrun.
    apply (run_loop_without_limit save_belief_results fuel w 0%Z [] w' r);
      [split; [lia | reflexivity] | exact Hrun].
Qed.

Lemma step_on_terminal (w : World) :
  is_terminal w = true ->
  step EgoCosts_init is_terminal advance w = (w, mkStepResult 0 EgoCosts_init false false false).
Proof. intros H. unfold step. rewrite H. reflexivity. Qed.

Lemma run_loop_on_terminal (max_steps_ : Z) (save : bool) (fuel : nat) (w : World) :
  is_terminal w = true ->
  forall (current_step : Z) (belief_results : list Belief),
    (0 <= max_steps_ < Unsigned.modulus - 1)%Z ->
    (0 <= current_step <= max_steps_ + 1)%Z ->
    (Z.to_nat (max_steps_ + 2 - current_step) <= fuel)%nat ->
    run_loop EgoCosts_init is_terminal advance get_beliefs max_steps_ save fuel
             w current_step belief_results
    = Some (w,
            mkRunResult (mkStepResult 0 EgoCosts_init false false false) 1
              (max_steps_ + 1)
              (if save
               then belief_results
                    ++ repeat (get_beliefs w)
                              (Z.to_nat (max_steps_ + 2 - current_step))
               else belief_results)).
Proof.
  intros Ht. induction fuel as [|fuel IH]; intros current_step belief_results Hmax Hcs Hfuel.
  - exfalso. lia.
  - cbn [run_loop]. rewrite (step_on_terminal w Ht). cbn [fst snd Terminal orb].
    destruct (Z.ltb_spec max_steps_ current_step) as [Hreached|Hnot].
    + assert (E : current_step = (max_steps_ + 1)%Z) by lia. subst current_step.
      replace (max_steps_ + 2 - (max_steps_ + 1))%Z with 1%Z by lia.
      destruct save; reflexivity.
    + rewrite MeanFacts.incr_no_wrap by lia.
      rewrite IH by lia. f_equal. f_equal. f_equal.
      destruct save; [|reflexivity].
      rewrite <- app_assoc. f_equal.
      replace (Z.to_nat (max_steps_ + 2 - current_step))
        with (S (Z.to_nat (max_steps_ + 2 - (current_step + 1)))) by lia.
      reflexivity.
Qed.

Lemma run_loop_on_terminal_without_limit (save : bool) (fuel : nat) (w : World) :
  is_terminal w = true ->
  forall (current_step : Z) (belief_results : list Belief),
    (0 <= current_step < Unsigned.modulus)%Z ->
    run_loop EgoCosts_init is_terminal advance get_beliefs (Unsigned.modulus - 1)
             save fuel w current_step belief_results = None.
Proof.
  intros Ht. induction fuel as [|fuel IH]; intros current_step belief_results Hcs.
  - reflexivity.
  - cbn [run_loop]. rewrite (step_on_terminal w Ht). cbn [fst snd Terminal orb].
    destruct (Z.ltb_spec (Unsigned.modulus - 1) current_step) as [Hreached|Hnot];
      [lia|].
    apply IH. unfold Unsigned.incr, Unsigned.wrap. apply Z.mod_pos_bound. reflexivity.
Qed.

(** X24: a run that starts in a terminal state does not return at once:
    [step] answers with its value-initialised result, whose flag
    [Terminal] is false.  For [max_steps_] below the largest
    [unsigned int] the loop goes on to the step [max_steps_ + 1] and
    returns there, the state unchanged, with [MaxSteps] set, [Terminal]
    false, the reward [0] and the value-initialised cost.  For
    [max_steps_] the largest [unsigned int] it never returns. *)
Theorem run_from_a_terminal_state (max_steps_ : Z) (save_belief_results : bool)
    (w : World) :
  is_terminal w = true ->
  ((0 <= max_steps_ < Unsigned.modulus - 1)%Z ->
   forall fuel,
     (Z.to_nat max_steps_ + 2 <= fuel)%nat ->
     exists r,
       run EgoCosts_init is_terminal advance get_beliefs max_steps_
           save_belief_results fuel w = Some (w, r) /\
       Terminal (last_step r) = false /\
       Reward_ (last_step r) = 0 /\
       EgoCosts_ (last_step r) = EgoCosts_init /\
       MaxSteps r = 1%Z /\
       NumSteps r = (max_steps_ + 1)%Z /\
       BeliefResults r
       = if save_belief_results
         then repeat (get_beliefs w) (Z.to_nat max_steps_ + 2)
         else []) /\
  (max_steps_ = (Unsigned.modulus - 1)%Z ->
   forall fuel,
     run EgoCosts_init is_terminal advance get_beliefs max_steps_
         save_belief_results fuel w = None).
Proof.
  intros Ht. split.
  - intros Hmax fuel Hfuel. unfold run.
    rewrite (run_loop_on_terminal max_steps_ save_belief_results fuel w Ht 0%Z [] Hmax)
      by lia.
    eexists. split; [reflexivity|]. cbn [last_step Terminal Reward_ EgoCosts_ MaxSteps
                                           NumSteps BeliefResults].
    repeat (split; [reflexivity|]).
    destruct save_belief_results; [|reflexivity]. cbn [app]. f_equal. lia.
  - intros -> fuel. unfold run.
    apply run_loop_on_terminal_without_limit; [exact Ht|]. split; [lia | reflexivity].
Qed.

End Episode.

End RunnerFacts.

(** ** The maps of a statistic that a run of updates has produced *)
Module ReachableFacts.
Import Uct Ccs StdMapFacts GreedyFacts.

Local Open Scope Q_scope.

Lemma backprop_found (s : UctStatistic) (c : ActionIdx * Reward) (b : Reward)
    (a : ActionIdx) :
  StdMap.find a
    (ucb_statistics_ (update_statistics_from_backpropagated (set_collected_reward s c) b))
  = None
  <-> a <> fst c /\ StdMap.find a (ucb_statistics_ s) = None.
Proof.
  unfold update_statistics_from_backpropagated.
  cbn [ucb_statistics_ set_collected_reward Uct.collected_reward_ fst].
  destruct (Nat.eq_dec a (fst c)) as [->|Hne].
  - rewrite find_assign_eq. split; [discriminate | intros [H _]; congruence].
  - rewrite find_assign_neq by congruence. split; [intros H; split; assumption|].
    intros [_ H]. exact H.
Qed.

Lemma run_updates_maps (gamma : Q) (us : list BackpropUpdate) :
  forall (s : CostConstrainedStatistic) (fr fc : ActionIdx -> list Q),
    StdMap.ok (ucb_statistics_ (reward_statistic_ s)) = true ->
    StdMap.ok (ucb_statistics_ (cost_statistic_ s)) = true ->
    (forall a, StdMap.find a (ucb_statistics_ (reward_statistic_ s)) = None
               <-> fr a = []) ->
    (forall a, StdMap.find a (ucb_statistics_ (cost_statistic_ s)) = None
               <-> fc a = []) ->
    let s' := run_updates s us in
    StdMap.ok (ucb_statistics_ (reward_statistic_ s')) = true /\
    StdMap.ok (ucb_statistics_ (cost_statistic_ s')) = true /\
    (forall a, StdMap.find a (ucb_statistics_ (reward_statistic_ s')) = None
               <-> fr a ++ reward_returns gamma a us = []) /\
    (forall a, StdMap.find a (ucb_statistics_ (cost_statistic_ s')) = None
               <-> fc a ++ cost_returns a us = []).
Proof.
  unfold run_updates.
  induction us as [|u us IH]; intros s fr fc Hokr Hokc Hr Hc.
  - cbn [fold_left reward_returns cost_returns].
    split; [exact Hokr|]. split; [exact Hokc|].
    split; intros a; rewrite app_nil_r; [apply Hr | apply Hc].
  - cbn [fold_left]. destruct u as [h|r c child].
    + cbn [reward_returns cost_returns]. apply IH; assumption.
    + destruct (IH (apply_update s (ChildUpdate r c child))
                  (fun a => fr a ++ (if (fst r =? a)%nat
                                     then [snd r + gamma * latest_return_
                                                             (reward_statistic_ child)]
                                     else []))
                  (fun a => fc a ++ (if (fst c =? a)%nat
                                     then [snd c + latest_return_ (cost_statistic_ child)]
                                     else [])))
        as (H1 & H2 & H3 & H4).
      * apply assign_ok, Hokr.
      * apply assign_ok, Hokc.
      * intros a.
        change (ucb_statistics_ (reward_statistic_ (apply_update s (ChildUpdate r c child))))
          with (ucb_statistics_
                  (update_statistics_from_backpropagated
                     (set_collected_reward (reward_statistic_ s) r)
                     (latest_return_ (reward_statistic_ child)))).
        rewrite backprop_found, Hr.
        destruct (Nat.eqb_spec (fst r) a) as [E|E].
        -- split; [intros [H _]; congruence|].
           intros H. apply app_eq_nil in H as [_ H]. discriminate.
        -- rewrite app_nil_r. split; [intros [_ H]; exact H|].
           intros H. split; [congruence | exact H].
      * intros a.
        change (ucb_statistics_ (cost_statistic_ (apply_update s (ChildUpdate r c child))))
          with (ucb_statistics_
                  (update_statistics_from_backpropagated
                     (set_collected_reward (cost_statistic_ s) c)
                     (latest_return_ (cost_statistic_ child)))).
        rewrite backprop_found, Hc.
        destruct (Nat.eqb_spec (fst c) a) as [E|E].
        -- split; [intros [H _]; congruence|].
           intros H. apply app_eq_nil in H as [_ H]. discriminate.
        -- rewrite app_nil_r. split; [intros [_ H]; exact H|].
           intros H. split; [congruence | exact H].
      * split; [exact H1|]. split; [exact H2|].
        split; intros a; [rewrite H3 | rewrite H4]; cbn [reward_returns cost_returns];
          rewrite <- app_assoc.
        -- destruct (fst r =? a)%nat; reflexivity.
        -- destruct (fst c =? a)%nat; reflexivity.
Qed.

(** X25: in a statistic that a run of updates has produced from a fresh
    one, both maps have their keys in strictly ascending order, and an
    action has an entry exactly if a return has been backed up for it:
    selecting an action creates no entry, the first backup does. *)
Theorem maps_hold_the_backed_up_actions (num_actions : nat) (p : MctsParameters)
    (us : list BackpropUpdate) :
  let s := run_updates (Ccs.init num_actions p) us in
  StdMap.ok (ucb_statistics_ (reward_statistic_ s)) = true /\
  StdMap.ok (ucb_statistics_ (cost_statistic_ s)) = true /\
  (forall a,
      In a (StdMap.keys (ucb_statistics_ (reward_statistic_ s)))
      <-> reward_returns (DISCOUNT_FACTOR p) a us <> []) /\
  (forall a,
      In a (StdMap.keys (ucb_statistics_ (cost_statistic_ s)))
      <-> cost_returns a us <> []).
Proof.
  intros s.
  destruct (run_updates_maps (DISCOUNT_FACTOR p) us (Ccs.init num_actions p)
              (fun _ => []) (fun _ => []) eq_refl eq_refl)
    as (Hokr & Hokc & Hr & Hc).
  { intros a. split; reflexivity. }
  { intros a. split; reflexivity. }
  fold s in Hokr, Hokc, Hr, Hc. cbn [app] in Hr, Hc.
  split; [exact Hokr|]. split; [exact Hokc|].
  split; intros a.
  - rewrite (find_keys _ a Hokr). rewrite <- Hr.
    destruct (StdMap.find a (ucb_statistics_ (reward_statistic_ s))) as [v|].
    + split; [discriminate | eauto].
    + split; [intros [v H]; discriminate | congruence].
  - rewrite (find_keys _ a Hokc). rewrite <- Hc.
    destruct (StdMap.find a (ucb_statistics_ (cost_statistic_ s))) as [v|].
    + split; [discriminate | eauto].
    + split; [intros [v H]; discriminate | congruence].
Qed.

Section WithOracles.

Context {L : Libm} {U : UniformInt}.


End WithOracles.

End ReachableFacts.

(** ** Further statements on the example data *)
Module MoreExampleFacts.
Import Uct Ccs Examples.

Local Open Scope Q_scope.





Lemma reward_and_cost_maps_in_lockstep_witness :
  StdMap.keys (ucb_statistics_ (reward_statistic_ (run_updates fresh_root two_backups)))
  = StdMap.keys (ucb_statistics_ (cost_statistic_ (run_updates fresh_root two_backups))).
Proof.
  apply (LockstepFacts.reward_and_cost_maps_in_lockstep 3 test_parameters two_backups).
  repeat constructor.
Defined.

Lemma uct_policy_is_the_action_values_witness :
  StdMap.keys (Uct.get_policy uct_three) = [0%nat; 1%nat; 2%nat].
Proof.
  apply (UctPolicyFacts.uct_policy_is_the_action_values uct_three). reflexivity.
Defined.




Lemma progressive_widening_edge_cases_witness :
  require_progressive_widening_total (P := unit_pow) (Uct.init 3 test_parameters)
  = true.
Proof.
  apply (proj2 (UctChooseFacts.progressive_widening_edge_cases
                  (P := unit_pow) (Uct.init 3 test_parameters))).
  - reflexivity.
  - reflexivity.
  - discriminate.
  - left. reflexivity.
Defined.

Lemma ccs_choose_next_action_expands_witness :
  exists a s' g',
    Ccs.choose_next_action (L := half_libm) (U := lowest_index) test_parameters
                           fresh_root quarter_then_three_quarters
    = Some (a, s', g') /\
    In a [0%nat; 1%nat; 2%nat].
Proof.
  destruct (CcsChooseFacts.ccs_choose_next_action_expands
              (L := half_libm) (U := lowest_index) test_parameters fresh_root
              quarter_then_three_quarters ltac:(discriminate))
    as (a & s' & g' & Hc & Hin & _).
  exists a, s', g'. split; [exact Hc | exact Hin].
Defined.

Lemma expansion_selects_every_action_once_witness :
  exists sel s' g',
    select_rounds (L := half_libm) (U := lowest_index) test_parameters fresh_root
                  quarter_then_three_quarters [[]; two_backups; []]
    = Some (sel, s', g') /\
    NoDup sel /\
    policy_is_ready s' = true.
Proof.
  destruct (CcsChooseFacts.expansion_selects_every_action_once
              (L := half_libm) (U := lowest_index) test_parameters test_parameters 3
              quarter_then_three_quarters [[]; two_backups; []] ltac:(cbn; lia))
    as (sel & s' & g' & Hs & _ & Hnd & _ & Hready).
  exists sel, s', g'. split; [exact Hs|]. split; [exact Hnd|].
  apply Hready. reflexivity.
Defined.


Lemma lp_expected_cost_outside_the_range_witness :
  exists a policy g' e,
    solve_LP_and_sample slack_root [0%nat; 1%nat] quarter_then_three_quarters
    = Some ((a, policy), g') /\
    expected_policy_cost slack_root policy = Some e /\
    e <= 1.
Proof.
  destruct (LpPolicyFacts.lp_expected_cost_outside_the_range
              slack_root [0%nat; 1%nat] quarter_then_three_quarters)
    as (a & policy & g' & e & lo & hi & Hs & He & Hb & _ & (f & pf & Hin & Hf & Hhi)
        & _ & Hle).
  - reflexivity.
  - discriminate.
  - constructor; [vm_compute; auto | constructor; [vm_compute; auto | constructor]].
  - exists a, policy, g', e. split; [exact Hs|]. split; [exact He|].
    assert (Hhi1 : hi <= 1).
    { rewrite <- Hhi.
      destruct Hin as [<-|[<-|[]]]; vm_compute in Hf; injection Hf as <-;
        vm_compute; discriminate. }
    rewrite (Hle Hhi1). exact Hhi1.
Defined.

Lemma filter_with_zero_factor_keeps_the_maximizers_witness :
  exists feasible,
    filter_feasible_actions (L := half_libm) tie_root (map Fin [1 # 2; 1 # 2]) 0
    = Some feasible /\
    In 1%nat feasible.
Proof.
  destruct (proj1 (FilterFacts.filter_with_zero_factor_keeps_the_maximizers
                     (L := half_libm) tie_root 2 ltac:(reflexivity))
              [1 # 2; 1 # 2] ltac:(reflexivity) ltac:(discriminate))
    as (feasible & m & Hm & _ & Hf & Hiff).
  exists feasible. split; [exact Hf|].
  apply Hiff. exists (1 # 2). split; [reflexivity|].
  vm_compute in Hm. injection Hm as <-. reflexivity.
Defined.

Lemma filter_grows_with_the_factor_witness :
  exists feasible1 feasible2,
    filter_feasible_actions (L := half_libm) tie_root (map Fin [1 # 2; 1 # 4]) 0
    = Some feasible1 /\
    filter_feasible_actions (L := half_libm) tie_root (map Fin [1 # 2; 1 # 4]) 1
    = Some feasible2 /\
    forall idx, In idx feasible1 -> In idx feasible2.
Proof.
  apply (FilterFacts.filter_grows_with_the_factor
           (L := half_libm) tie_root [1 # 2; 1 # 4] 2 0 1).
  - reflexivity.
  - reflexivity.
  - discriminate.
  - intros N c. vm_compute. discriminate.
  - vm_compute. discriminate.
Defined.

Lemma updated_constraint_of_a_point_policy_witness :
  exists c',
    calc_updated_constraint_based_on_policy
      tie_root (1%nat, [(0%nat, 0); (1%nat, 1)]) (1 # 2)
    = Some (Fin c') /\
    c' == (1 # 2) - StdMap.index 0 1%nat (mean_step_costs_ tie_root).
Proof.
  apply (proj2 (proj2 (proj2
           (ConstraintFacts.updated_constraint_of_a_point_policy
              tie_root 1%nat [(0%nat, 0); (1%nat, 1)] (1 # 2))))).
  - reflexivity.
  - intros k v [E|[E|[]]] Hne; injection E as <- <-;
      [reflexivity | exfalso; apply Hne; reflexivity].
  - reflexivity.
  - intros k [<-|[<-|[]]] Hne; [discriminate | exfalso; apply Hne; reflexivity].
  - reflexivity.
Defined.

Lemma first_backup_takes_the_heuristic_estimate_witness :
  exists pr,
    StdMap.find 1%nat
      (ucb_statistics_
         (reward_statistic_
            (apply_update fresh_root
               (ChildUpdate (1%nat, 2) (1%nat, 0)
                  (update_from_heuristic leaf
                     (set_heuristic_estimate leaf 3 (1 # 2)))))))
    = Some pr /\
    action_value_ pr == 2 + (9 # 10) * 3.
Proof.
  destruct (ConstraintFacts.first_backup_takes_the_heuristic_estimate
              fresh_root leaf leaf 1%nat 2 0 3 (1 # 2) eq_refl eq_refl)
    as (_ & _ & pr & pc & Hf & _ & Hv & _).
  exists pr. split; [exact Hf | exact Hv].
Defined.

Lemma wait_and_forward_support_witness :
  exists w f,
    Crossing.get_probability gap_3_5 4 Crossing.WAIT = Fin w /\
    Crossing.get_probability gap_3_5 4 Crossing.FORWARD = Fin f /\
    0 < w /\ 0 < f.
Proof.
  destruct (CrossingProbabilityFacts.wait_and_forward_support gap_3_5 4)
    as (w & f & Hw & Hf & _ & _ & Hpw & _ & Hpf).
  - cbn. lia.
  - reflexivity.
  - reflexivity.
  - split; [discriminate | reflexivity].
  - exists w, f. split; [exact Hw|]. split; [exact Hf|]. split.
    + apply Hpw. cbn. lia.
    + apply Hpf. cbn. intros [H _]. discriminate H.
Defined.

Lemma act_has_positive_probability_witness :
  exists action q,
    Crossing.act (D := lowest_gap) gap_3_5 7 = Some action /\
    Crossing.get_probability gap_3_5 7 action = Fin q /\
    0 < q.
Proof.
  destruct (proj2 (CrossingProbabilityFacts.act_has_positive_probability
                     (D := lowest_gap) gap_3_5 7))
    as (action & q & Ha & _ & Hq & Hpos).
  - cbn. lia.
  - reflexivity.
  - reflexivity.
  - exists action, q. split; [exact Ha|]. split; [exact Hq | exact Hpos].
Defined.

Lemma execute_outcome_witness :
  exists s' rewards' ego_cost,
    Crossing.execute 0 before_crossing [1%Z; 1%Z] [] = Some (s', rewards', ego_cost) /\
    Crossing.is_terminal s' = true /\
    ego_cost == 1.
Proof.
  destruct (Crossing.execute 0 before_crossing [1%Z; 1%Z] [])
    as [[[s' rewards'] ego_cost]|] eqn:E; [|vm_compute in E; discriminate].
  destruct (ExecuteFacts.execute_outcome 0 before_crossing [1%Z; 1%Z] []
              s' rewards' ego_cost E) as (Ht & _ & _ & Hc & _).
  exists s', rewards', ego_cost. split; [reflexivity|].
  vm_compute in E. injection E as <- <- <-. split; [reflexivity|].
  reflexivity.
Defined.

Lemma execute_successor_witness :
  exists s' rewards' ego_cost,
    Crossing.execute 0 before_crossing [1%Z; 1%Z] [] = Some (s', rewards', ego_cost) /\
    Crossing.get_num_hypothesis s' = 0%nat /\
    Crossing.get_last_action 0 s' 1 = Some 1%Z.
Proof.
  destruct (Crossing.execute 0 before_crossing [1%Z; 1%Z] [])
    as [[[s' rewards'] ego_cost]|] eqn:E; [|vm_compute in E; discriminate].
  destruct (ExecuteFacts.execute_successor 0 before_crossing [1%Z; 1%Z] []
              s' rewards' ego_cost E) as (_ & _ & _ & Hl & Hn & _).
  exists s', rewards', ego_cost. split; [reflexivity|]. split; [exact Hn|].
  apply (Hl 1%nat). right. cbn. lia.
Defined.

Lemma run_stops_within_max_steps_witness :
  exists w' r,
    Runner.run 0 (fun w => (w =? 0)%nat) countdown_advance (fun w => w) 3 true 5 2%nat
    = Some (w', r) /\
    (0 <= Runner.NumSteps r <= 4)%Z.
Proof.
  destruct (proj1 (RunnerFacts.run_stops_within_max_steps
                     nat nat Q 0 (fun w => (w =? 0)%nat) countdown_advance
                     (fun w => w) 3 true 5 2%nat)
              ltac:(split; [discriminate | reflexivity]) ltac:(cbn; lia))
    as (w' & r & Hrun & Hn & _).
  exists w', r. split; [exact Hrun | exact Hn].
Defined.

Lemma run_from_a_terminal_state_witness :
  exists r,
    Runner.run 0 (fun w => (w =? 0)%nat) countdown_advance (fun w => w) 3 false 5 0%nat
    = Some (0%nat, r) /\
    Runner.Terminal (Runner.last_step r) = false /\
    Runner.NumSteps r = 4%Z.
Proof.
  destruct (proj1 (RunnerFacts.run_from_a_terminal_state
                     nat nat Q 0 (fun w => (w =? 0)%nat) countdown_advance
                     (fun w => w) 3 false 0%nat eq_refl)
              ltac:(split; [discriminate | reflexivity]) 5%nat ltac:(cbn; lia))
    as (r & Hrun & Ht & _ & _ & _ & Hn & _).
  exists r. split; [exact Hrun|]. split; [exact Ht | exact Hn].
Defined.


End MoreExampleFacts.

(** ** The LP step in binary64 on the decimal example *)
Module RoundingExamples.
Import Uct Ccs Examples Binary64.

Local Open Scope Q_scope.

Lemma lp_expected_cost_is_rounded_witness :
  exists a policy g' e,
    Ccs64.solve_LP_and_sample decimal_root [0%nat; 1%nat] quarter_then_three_quarters
    = Some ((a, policy), g') /\
    Ccs64.expected_policy_cost decimal_root policy = Some e /\
    e = Fin (2702159776422297 # 9007199254740992).
Proof.
  destruct (RoundedLpFacts.lp_expected_cost_is_rounded
              decimal_root [0%nat; 1%nat] quarter_then_three_quarters
              1%nat 0%nat
              (mkUcbPair 1 (3602879701896397 # 9007199254740992))
              (mkUcbPair 1 (3602879701896397 # 36028797018963968)))
    as (a & policy & g' & e & Hs & He & _ & Hmix & _).
  - reflexivity.
  - discriminate.
  - constructor; [vm_compute; auto | constructor; [vm_compute; auto | constructor]].
  - reflexivity.
  - reflexivity.
  - reflexivity.
  - reflexivity.
  - reflexivity.
  - reflexivity.
  - split; vm_compute; discriminate.
  - exists a, policy, g', e. split; [exact Hs|]. split; [exact He|].
    destruct Hmix as (_ & _ & _ & Hv).
    + discriminate.
    + split; vm_compute; reflexivity.
    + rewrite Hv. vm_compute. reflexivity.
Defined.

Lemma lp_policy_three_cases_rounded_witness :
  exists a policy g',
    Ccs64.solve_LP_and_sample decimal_root [0%nat; 1%nat] quarter_then_three_quarters
    = Some ((a, policy), g') /\
    rounded_policy_sum policy = Fin 1.
Proof.
  destruct (RoundedLpFacts.lp_policy_three_cases_rounded
              decimal_root [0%nat; 1%nat] quarter_then_three_quarters)
    as (a_max & a_min & pmax & pmin & a & policy & g' & Hext & _ & _ & Hfmx & Hfmn
        & _ & Hsol & _ & _ & _ & _ & _ & _ & Hsum).
  - reflexivity.
  - discriminate.
  - constructor; [vm_compute; auto | constructor; [vm_compute; auto | constructor]].
  - reflexivity.
  - intros f pf [<-|[<-|[]]] Hf; vm_compute in Hf; injection Hf as <-; reflexivity.
  - exists a, policy, g'. split; [exact Hsol|].
    apply Hsum.
    vm_compute in Hext. injection Hext as <- <-.
    vm_compute in Hfmx. injection Hfmx as <-.
    vm_compute in Hfmn. injection Hfmn as <-.
    vm_compute. discriminate.
Defined.

(** On the decimal example the constraint lies between the two cost
    values, and the expected cost of the policy that the LP step returns
    is one unit in the last place below the constraint. *)
Lemma lp_expected_cost_misses_the_constraint :
  exists pmax pmin a policy g' e,
    extreme_actions (ucb_statistics_ (cost_statistic_ decimal_root)) [0%nat; 1%nat]
    = Some (1%nat, 0%nat) /\
    StdMap.find 1%nat (ucb_statistics_ (cost_statistic_ decimal_root)) = Some pmax /\
    StdMap.find 0%nat (ucb_statistics_ (cost_statistic_ decimal_root)) = Some pmin /\
    action_value_ pmin <= cost_constraint decimal_root <= action_value_ pmax /\
    Ccs64.solve_LP_and_sample decimal_root [0%nat; 1%nat] quarter_then_three_quarters
    = Some ((a, policy), g') /\
    Ccs64.expected_policy_cost decimal_root policy = Some (Fin e) /\
    e < cost_constraint decimal_root /\
    ~ e == cost_constraint decimal_root.
Proof.
  do 6 eexists.
  split; [reflexivity|]. split; [reflexivity|]. split; [reflexivity|].
  split; [split; vm_compute; discriminate|].
  split; [vm_compute; reflexivity|].
  split; [vm_compute; reflexivity|].
  split; [vm_compute; reflexivity|].
  vm_compute. discriminate.
Qed.

End RoundingExamples.
